(** * pdf_tools: a shallow embedding of [src/pdf_tools.py]

    The definitions follow the layout of the Python class [PDFTools]:

    - [Py]          exceptions and results of Python calls;
    - [Pool]        the creation of a [ThreadPoolExecutor];
    - [Merge]       the bucket assignment of [merge_pdfs] (greedy, largest first);
    - [FS]          files, and calls that read and write them;
    - [Download]    the file name derivation and retry loop of [download_pdf],
                    and [download_pdfs_from_url];
    - [Compress]    [compress_pdf] and [super_compress_pdf] over a file system
                    and an external Ghostscript process;
    - [Pipeline]    directory listings and [get_pdf_size_info];
    - [Samples]     concrete inputs;
    - [MergeWrite]  [merge_pdf_bucket] and [merge_pdfs];
    - [CompressDir] [compress_pdf_directory];
    - [Main]        the [all] command of [main].

    The properties come after them, stage by stage.

    Python [int] is [Z]; Python [str] is [string] (one character per code
    point below 256, which covers ASCII paths and URLs); a directory tree is
    a finite map from paths to file contents, with one path per file (paths
    are compared as strings; two spellings of one file are not modelled).
    What the map does not show is a parameter of the functions that depend
    on it: the answers of the network, of PyPDF2 and of Ghostscript, whether
    [os.makedirs] can create a directory ([makedirs]), whether a copy can
    create its destination ([copy_error]), and [os.cpu_count()]. *)

From Stdlib Require Import ZArith String Ascii List Lia Permutation.
From stdpp Require Import base option list strings gmap sorting pretty.

Local Open Scope string_scope.
Local Open Scope list_scope.
Local Open Scope Z_scope.

(* ===================================================================== *)
(** * Python results                                                       *)
(* ===================================================================== *)

Module Py.

(** The exceptions the modelled code can raise or catch. *)
Inductive exn : Type :=
  | ValueError            (* min() of an empty sequence; a pool of size <= 0 *)
  | ZeroDivisionError     (* x / 0 *)
  | FileNotFoundError     (* os.remove, os.rename, os.path.getsize on a missing path *)
  | CalledProcessError    (* subprocess.run(..., check=True), non-zero exit *)
  | SameFileError         (* shutil.copy of a file onto itself *)
  | TypeError             (* unpacking None; min(None, 4) *)
  | RequestException      (* requests: transient network or HTTP error *)
  | OtherException.       (* any other subclass of Exception *)

(** A call either returns a value or raises. *)
Inductive res (A : Type) : Type :=
  | Ret (a : A)
  | Raise (e : exn).
Arguments Ret {A} a.
Arguments Raise {A} e.

End Py.
Import Py.

(* ===================================================================== *)
(** * Thread pools                                                         *)
(* ===================================================================== *)

Module Pool.

(** [ThreadPoolExecutor(max_workers=max_workers)]: with [None] the library
    chooses the size; a size of zero or less raises ValueError. *)
Definition executor (max_workers : option Z) : res unit :=
  match max_workers with
  | Some n => if n <=? 0 then Raise ValueError else Ret tt
  | None => Ret tt
  end.

(** Lines 434-435 of [compress_pdf_directory]:
    [if not max_workers: max_workers = min(os.cpu_count(), 4)].
    [not max_workers] holds for [None] and for [0]; [os.cpu_count()] may be
    [None], and [min(None, 4)] raises TypeError. *)
Definition default_workers (max_workers cpu_count : option Z) : res Z :=
  let fallback :=
    match cpu_count with
    | Some n => Ret (Z.min n 4)
    | None => Raise TypeError
    end in
  match max_workers with
  | Some n => if n =? 0 then fallback else Ret n
  | None => fallback
  end.

End Pool.

(* ===================================================================== *)
(** * merge_pdfs: bucket assignment (lines 209-243)                        *)
(* ===================================================================== *)

Module Merge.

(** The tuple [(file_size, num_pages, pdf_path)] returned by
    [get_pdf_size_info]. *)
Definition pdf_info : Type := Z * Z * string.

Definition file_size (p : pdf_info) : Z := p.1.1.
Definition num_pages (p : pdf_info) : Z := p.1.2.
Definition pdf_path (p : pdf_info) : string := p.2.

(** [if file_size > 0: valid_pdfs.append(...)] *)
Definition is_valid (p : pdf_info) : bool := 0 <? file_size p.

Fixpoint valid_pdfs (analysed : list pdf_info) : list pdf_info :=
  match analysed with
  | [] => []
  | p :: rest => if is_valid p then p :: valid_pdfs rest else valid_pdfs rest
  end.

(** Python compares tuples lexicographically: sizes, then page counts, then
    paths (strings compare character by character, a proper prefix first). *)
Definition tuple_compare (a b : pdf_info) : comparison :=
  match file_size a ?= file_size b with
  | Eq => match num_pages a ?= num_pages b with
          | Eq => String.compare (pdf_path a) (pdf_path b)
          | c => c
          end
  | c => c
  end.

(** [valid_pdfs.sort(reverse=True)]: descending, and equal elements keep
    their order.  [insert_desc] puts [x] in front of the first element that
    is not greater than it. *)
Fixpoint insert_desc (x : pdf_info) (l : list pdf_info) : list pdf_info :=
  match l with
  | [] => [x]
  | y :: l' =>
      match tuple_compare x y with
      | Lt => y :: insert_desc x l'
      | _ => x :: y :: l'
      end
  end.

Fixpoint sort_reverse (l : list pdf_info) : list pdf_info :=
  match l with
  | [] => []
  | x :: l' => insert_desc x (sort_reverse l')
  end.

(** [min(bucket_sizes)]: raises ValueError on an empty list. *)
Definition py_min (l : list Z) : res Z :=
  match l with
  | [] => Raise ValueError
  | x :: l' => Ret (fold_left Z.min l' x)
  end.

(** [bucket_sizes.index(v)]: the first position holding [v]. *)
Fixpoint py_index (v : Z) (l : list Z) : res nat :=
  match l with
  | [] => Raise ValueError
  | x :: l' =>
      if x =? v then Ret 0%nat
      else match py_index v l' with
           | Ret i => Ret (S i)
           | Raise e => Raise e
           end
  end.

(** The two parallel lists [buckets] and [bucket_sizes]. *)
Record state : Type := mkState {
  buckets : list (list string);
  bucket_sizes : list Z
}.

(** [buckets = [[] for _ in range(n)]; bucket_sizes = [0] * n]
    (both empty when [n <= 0]). *)
Definition init_state (n : Z) : state :=
  mkState (replicate (Z.to_nat n) []) (replicate (Z.to_nat n) 0).

(** One iteration of the assignment loop:
    [min_idx = bucket_sizes.index(min(bucket_sizes))]
    [buckets[min_idx].append(file_path)]
    [bucket_sizes[min_idx] += file_size] *)
Definition assign_one (st : state) (p : pdf_info) : res state :=
  match py_min (bucket_sizes st) with
  | Raise e => Raise e
  | Ret m =>
      match py_index m (bucket_sizes st) with
      | Raise e => Raise e
      | Ret min_idx =>
          Ret (mkState (alter (fun b => b ++ [pdf_path p]) min_idx (buckets st))
                       (alter (fun s => s + file_size p) min_idx (bucket_sizes st)))
      end
  end.

Fixpoint assign_all (st : state) (l : list pdf_info) : res state :=
  match l with
  | [] => Ret st
  | p :: rest =>
      match assign_one st p with
      | Raise e => Raise e
      | Ret st' => assign_all st' rest
      end
  end.

(** Lines 209-243 of [merge_pdfs].  [analysed] is the list of probe results
    in the order the futures complete; [None] is the early [return None]
    ("No valid PDFs to merge"). *)
Definition merge_assign (analysed : list pdf_info) (num_output_files : Z)
  : res (option state) :=
  let valid := valid_pdfs analysed in
  match valid with
  | [] => Ret None
  | _ =>
      let n := Z.min num_output_files (Z.of_nat (length valid)) in
      match assign_all (init_state n) (sort_reverse valid) with
      | Raise e => Raise e
      | Ret st => Ret (Some st)
      end
  end.

(** "Not smaller than": the order in which a descending sort puts [a]
    before [b]. *)
Definition tuple_ge (a b : pdf_info) : Prop := tuple_compare a b <> Lt.

(** Sums and maxima used to state the properties. *)
Definition zsum (l : list Z) : Z := foldr Z.add 0 l.
Definition zmax (l : list Z) : Z := foldr Z.max 0 l.

Definition total_weight (l : list pdf_info) : Z := zsum (file_size <$> l).
Definition max_weight (l : list pdf_info) : Z := zmax (file_size <$> l).

(** Specification-only view of the buckets that keeps each whole tuple, where
    the code keeps the path in [buckets] and adds the size to [bucket_sizes]. *)
Definition tracks (ib : list (list pdf_info)) (st : state) : Prop :=
  buckets st = (fmap (M:=list) pdf_path <$> ib : list (list string)) ∧
  bucket_sizes st = (total_weight <$> ib : list Z).

(** Number of buckets that are still empty (weight 0). *)
Fixpoint count_zero (l : list Z) : nat :=
  match l with
  | [] => 0%nat
  | x :: l' => if x =? 0 then S (count_zero l') else count_zero l'
  end.

(** The five documents of the scenario and a broken one, in the order the
    probes complete. *)
Definition scenario_docs : list pdf_info :=
  [(30, 3, "c.pdf"); (50, 5, "a.pdf"); (10, 1, "e.pdf"); (0, 0, "broken.pdf");
   (40, 4, "b.pdf"); (20, 2, "d.pdf")].

(** The five documents of the scenario, largest first. *)
Definition five_docs : list pdf_info :=
  [(50, 5, "a.pdf"); (40, 4, "b.pdf"); (30, 3, "c.pdf"); (20, 2, "d.pdf");
   (10, 1, "e.pdf")].

End Merge.

(* ===================================================================== *)
(** * Files and the external world                                         *)
(* ===================================================================== *)

Module FS.

(** A file system is a finite map from paths to file contents; the type of
    contents is left open, only its size in bytes is observed. *)
Abbreviation fs content := (gmap string content).

(** A call that reads and writes files: it returns or raises, and leaves a
    file system behind in both cases. *)
Definition M (content A : Type) : Type := fs content -> res A * fs content.

Definition ret {content A} (a : A) : M content A := fun σ => (Ret a, σ).
Definition raise {content A} (e : exn) : M content A := fun σ => (Raise e, σ).
Definition bind {content A B} (m : M content A) (f : A -> M content B) : M content B :=
  fun σ => match m σ with
           | (Ret a, σ') => f a σ'
           | (Raise e, σ') => (Raise e, σ')
           end.

(** [try: body  except <e>: handler] for one exception class. *)
Definition try_except {content A} (body : M content A) (caught : exn -> bool)
    (handler : M content A) : M content A :=
  fun σ => match body σ with
           | (Ret a, σ') => (Ret a, σ')
           | (Raise e, σ') => if caught e then handler σ' else (Raise e, σ')
           end.

Module Import Notations.
Notation "'let*' x := m 'in' k" := (bind m (fun x => k))
  (at level 10, x name, m at level 100, k at level 200).
Notation "m ;; k" := (bind m (fun _ => k))
  (at level 100, k at level 200, right associativity).
End Notations.

Section Files.
Context {content : Type}.
Variable nbytes : content -> Z.

(** [os.path.getsize(path)] *)
Definition getsize (path : string) : M content Z :=
  fun σ => match σ !! path with
           | Some c => (Ret (nbytes c), σ)
           | None => (Raise FileNotFoundError, σ)
           end.

(** [os.path.exists(path)] *)
Definition exists_ (path : string) : M content bool :=
  fun σ => (Ret (bool_decide (is_Some (σ !! path))), σ).

(** [os.remove(path)] *)
Definition remove (path : string) : M content unit :=
  fun σ => match σ !! path with
           | Some _ => (Ret tt, delete path σ)
           | None => (Raise FileNotFoundError, σ)
           end.

(** [os.rename(src, dst)]: replaces [dst] when it exists. *)
Definition rename (src dst : string) : M content unit :=
  fun σ => match σ !! src with
           | Some c => (Ret tt, <[dst := c]> (delete src σ))
           | None => (Raise FileNotFoundError, σ)
           end.

(** What the file map does not show of the destination of a copy: the
    exception raised when no file can be created under that path (its
    directory is missing or cannot be written), [None] when one can. *)
Variable copy_error : string -> option exn.

(** [shutil.copy(src, dst)] between two file paths. *)
Definition copy (src dst : string) : M content unit :=
  fun σ => match σ !! src with
           | Some c => if decide (src = dst) then (Raise SameFileError, σ)
                       else match copy_error dst with
                            | Some e => (Raise e, σ)
                            | None => (Ret tt, <[dst := c]> σ)
                            end
           | None => (Raise FileNotFoundError, σ)
           end.

(** [open(path, 'wb')] followed by writing [c]. *)
Definition write_file (path : string) (c : content) : M content unit :=
  fun σ => (Ret tt, <[path := c]> σ).
End Files.

End FS.

(* ===================================================================== *)
(** * download_pdf and download_pdfs_from_url (lines 25-142)               *)
(* ===================================================================== *)

Module Download.
Import FS FS.Notations Pool.

(** ** String operations of the file name derivation *)

(** [s.split(sep)] for a one-character separator. *)
Fixpoint py_split (sep : ascii) (s : string) : list string :=
  match s with
  | EmptyString => [EmptyString]
  | String c s' =>
      if Ascii.eqb c sep then EmptyString :: py_split sep s'
      else match py_split sep s' with
           | seg :: rest => String c seg :: rest
           | [] => [String c EmptyString]
           end
  end.

(** [c in s] for a character [c]. *)
Fixpoint has_char (c : ascii) (s : string) : bool :=
  match s with
  | EmptyString => false
  | String b s' => Ascii.eqb b c || has_char c s'
  end.

(** [l[-1]] and [l[0]] on the (never empty) result of [split]. *)
Definition py_last (l : list string) : string := List.last l EmptyString.
Definition py_first (l : list string) : string := List.hd EmptyString l.

Definition in_range (lo hi : nat) (c : ascii) : bool :=
  ((lo <=? nat_of_ascii c) && (nat_of_ascii c <=? hi))%nat.

(** The character class [[a-zA-Z0-9._-]]. *)
Definition is_safe_char (c : ascii) : bool :=
  in_range 97 122 c || in_range 65 90 c || in_range 48 57 c
  || Ascii.eqb c "." || Ascii.eqb c "_" || Ascii.eqb c "-".

(** [re.sub(r'[^a-zA-Z0-9._-]', '_', s)] *)
Fixpoint re_sub_clean (s : string) : string :=
  match s with
  | EmptyString => EmptyString
  | String c s' => String (if is_safe_char c then c else "_"%char) (re_sub_clean s')
  end.

(** [s.lower()]: the letters A-Z; the other characters below code point 256
    that [lower] changes never become one of the characters tested for. *)
Definition lower_char (c : ascii) : ascii :=
  if in_range 65 90 c then ascii_of_nat (nat_of_ascii c + 32) else c.

Fixpoint py_lower (s : string) : string :=
  match s with
  | EmptyString => EmptyString
  | String c s' => String (lower_char c) (py_lower s')
  end.

(** [s.endswith(suffix)] *)
Definition py_endswith (s suffix : string) : bool :=
  (String.length suffix <=? String.length s)%nat &&
  String.eqb (substring (String.length s - String.length suffix)
                        (String.length suffix) s) suffix.

(** [s.startswith(prefix)] *)
Definition py_startswith (s pre : string) : bool := String.prefix pre s.

(** [os.path.join(a, b)] (posixpath). *)
Definition os_path_join (a b : string) : string :=
  if py_startswith b "/" then b
  else if String.eqb a "" || py_endswith a "/" then (a ++ b)%string
  else (a ++ "/" ++ b)%string.

(** Lines 28-32 of [download_pdf]: the path the download is written to. *)
Definition local_filename (pdf_url download_dir : string) : string :=
  let filename :=
    os_path_join download_dir (py_first (py_split "?" (py_last (py_split "/" pdf_url)))) in
  let filename := re_sub_clean filename in
  if negb (py_endswith (py_lower filename) ".pdf") then (filename ++ ".pdf")%string
  else filename.

(** What the claim describes: the sanitised name of the last URL segment,
    kept inside the destination directory. *)
Definition sanitised_name (pdf_url : string) : string :=
  let name := re_sub_clean (py_first (py_split "?" (py_last (py_split "/" pdf_url)))) in
  if negb (py_endswith (py_lower name) ".pdf") then (name ++ ".pdf")%string else name.

Definition intended_filename (pdf_url download_dir : string) : string :=
  os_path_join download_dir (sanitised_name pdf_url).

(** The URL used to illustrate the file name derivation. *)
Definition sample_url : string := "http://example.com/docs/report.pdf".

(** ** The retry loop *)

Section Network.
Context {content : Type}.

(** [os.makedirs(path, exist_ok=True)]: [None] when it returns, the
    exception it raises otherwise. *)
Variable makedirs : string -> option exn.

(** One pass through the body of the [try]: the request and the write
    succeed, a [requests.RequestException] is raised (possibly after part
    of the file was written), or another exception is raised. *)
Inductive attempt : Type :=
  | Fetched (body : content)
  | RequestFailed (partial : option content)
  | OtherFailed (partial : option content).

Definition write_partial (filename : string) (partial : option content)
  : M content unit :=
  match partial with
  | Some c => write_file filename c
  | None => ret tt
  end.

(** [while retry_count < num_retries: ...]; [remaining] is
    [num_retries - retry_count], [tries n] the outcome of the pass made
    with [retry_count = n].  Falling out of the loop returns [None]. *)
Fixpoint download_loop (tries : nat -> attempt) (filename : string)
    (retry_count remaining : nat) : M content (option (bool * option string)) :=
  match remaining with
  | O => ret None
  | S remaining' =>
      match tries retry_count with
      | Fetched body =>
          write_file filename body ;; ret (Some (true, Some filename))
      | RequestFailed partial =>
          write_partial filename partial ;;
          match remaining' with
          | O => ret (Some (false, None))
          | S _ => download_loop tries filename (S retry_count) remaining'
          end
      | OtherFailed partial =>
          write_partial filename partial ;; ret (Some (false, None))
      end
  end.

Definition download_pdf (tries : nat -> attempt) (pdf_url download_dir : string)
    (num_retries : Z) : M content (option (bool * option string)) :=
  download_loop tries (local_filename pdf_url download_dir) 0 (Z.to_nat num_retries).

(** ** The batch (lines 99-135) *)

(** The body of [for i, future in enumerate(as_completed(...))]:
    unpacking the result raises TypeError on [None]; every exception is
    caught and counted as a failure. *)
Definition count_result (r : res (option (bool * option string)))
    (counts : Z * Z) : Z * Z :=
  let '(successful_downloads, failed_downloads) := counts in
  match r with
  | Ret (Some (true, _)) => (successful_downloads + 1, failed_downloads)
  | Ret (Some (false, _)) => (successful_downloads, failed_downloads + 1)
  | Ret None => (successful_downloads, failed_downloads + 1)
  | Raise _ => (successful_downloads, failed_downloads + 1)
  end.

(** The futures in the order they complete; each writes its own file. *)
Fixpoint run_batch (net : string -> nat -> attempt) (download_dir : string)
    (completed : list string) (counts : Z * Z) : fs content -> (Z * Z) * fs content :=
  fun σ =>
    match completed with
    | [] => (counts, σ)
    | url :: rest =>
        let '(r, σ') := download_pdf (net url) url download_dir 3 σ in
        run_batch net download_dir rest (count_result r counts) σ'
    end.

(** [download_pdfs_from_url(target_url, download_dir, max_workers)], with
    [download_dir] the directory after line 64.  [page] is [None] when
    fetching or parsing the page raises, and otherwise the list [pdf_urls]
    after duplicates are removed; [completed] is the order in which the
    futures complete.  [os.makedirs] stands before the [try]: its exception
    leaves the function.  The pool is created inside the [try]: its
    ValueError is caught by [except Exception] and [None] is returned with
    no unit run.  The result is the returned value and, when the batch ran,
    the two counters that are printed. *)
Definition download_pdfs_from_url (page : option (list string))
    (completed : list string) (net : string -> nat -> attempt)
    (download_dir : string) (max_workers : option Z)
  : M content (option string * option (Z * Z)) :=
  fun σ =>
    match makedirs download_dir with
    | Some e => (Raise e, σ)
    | None =>
        match page with
        | None => (Ret (None, None), σ)
        | Some [] => (Ret (None, None), σ)
        | Some (_ :: _) =>
            match executor max_workers with
            | Raise _ => (Ret (None, None), σ)
            | Ret _ =>
                let '(counts, σ') := run_batch net download_dir completed (0, 0) σ in
                (Ret (Some download_dir, Some counts), σ')
            end
        end
    end.

(** The number of elements of [l] that satisfy [f]. *)
Fixpoint count_true {A} (f : A -> bool) (l : list A) : Z :=
  match l with
  | [] => 0
  | x :: l' => (if f x then 1 else 0) + count_true f l'
  end.

(** A unit of work succeeds when a pass within the three allowed fetches
    the file and all earlier passes failed with a request error. *)
Definition unit_succeeds (tries : nat -> attempt) : bool :=
  match tries 0%nat with
  | Fetched _ => true
  | OtherFailed _ => false
  | RequestFailed _ =>
      match tries 1%nat with
      | Fetched _ => true
      | OtherFailed _ => false
      | RequestFailed _ =>
          match tries 2%nat with
          | Fetched _ => true
          | _ => false
          end
      end
  end.
End Network.

Arguments attempt : clear implicits.

End Download.

(* ===================================================================== *)
(** * compress_pdf and super_compress_pdf (lines 264-380)                  *)
(* ===================================================================== *)

Module Compress.
Import FS FS.Notations.

(** The dictionary [quality_settings] of [compress_pdf]. *)
Definition quality_settings : gmap string string :=
  <["screen" := "/screen"]>
  (<["ebook" := "/ebook"]>
  (<["printer" := "/printer"]>
  (<["prepress" := "/prepress"]> ∅))).

(** [quality_settings.get(quality, '/ebook')] *)
Definition gs_setting (quality : string) : string :=
  default "/ebook" (quality_settings !! quality).

(** The argument vector built by [compress_pdf]. *)
Definition compress_cmd (setting output_file input_file : string) : list string :=
  ["gs"; "-sDEVICE=pdfwrite"; "-dCompatibilityLevel=1.4";
   ("-dPDFSETTINGS=" ++ setting)%string; "-dNOPAUSE"; "-dQUIET"; "-dBATCH";
   ("-sOutputFile=" ++ output_file)%string; input_file].

(** The two argument vectors built by [super_compress_pdf]. *)
Definition super_cmd (output_file input_file : string) : list string :=
  ["gs"; "-sDEVICE=pdfwrite"; "-dCompatibilityLevel=1.4"; "-dPDFSETTINGS=/screen";
   "-dColorImageResolution=72"; "-dGrayImageResolution=72"; "-dMonoImageResolution=72";
   "-dColorImageDownsampleType=/Bicubic"; "-dGrayImageDownsampleType=/Bicubic";
   "-dMonoImageDownsampleType=/Bicubic"; "-dOptimize=true"; "-dEmbedAllFonts=true";
   "-dSubsetFonts=true"; "-dNOPAUSE"; "-dQUIET"; "-dBATCH";
   ("-sOutputFile=" ++ output_file)%string; input_file].

Definition super_cmd2 (more_aggressive_output input_file : string) : list string :=
  ["gs"; "-sDEVICE=pdfwrite"; "-dCompatibilityLevel=1.4"; "-dPDFSETTINGS=/screen";
   "-dColorImageResolution=50"; "-dGrayImageResolution=50"; "-dMonoImageResolution=50";
   "-dDownsampleColorImages=true"; "-dDownsampleGrayImages=true";
   "-dDownsampleMonoImages=true"; "-dColorConversionStrategy=/Gray";
   "-dDetectDuplicateImages=true"; "-dCompressFonts=true"; "-dEmbedAllFonts=false";
   "-dNOPAUSE"; "-dQUIET"; "-dBATCH";
   ("-sOutputFile=" ++ more_aggressive_output)%string; input_file].

(** [s.replace(old, new)] for a non-empty [old]: every occurrence, left to
    right, without overlap.  [skip] counts the characters of a matched
    occurrence that are still to be passed over. *)
Fixpoint replace_from (old new : string) (skip : nat) (s : string) : string :=
  match s with
  | EmptyString => EmptyString
  | String c s' =>
      match skip with
      | S skip' => replace_from old new skip' s'
      | O =>
          if String.prefix old s
          then (new ++ replace_from old new (String.length old - 1) s')%string
          else String c (replace_from old new 0 s')
      end
  end.

Definition py_replace (s old new : string) : string := replace_from old new 0 s.

(** [output_file.replace('.pdf', '_more_compressed.pdf')] *)
Definition more_aggressive_output (output_file : string) : string :=
  py_replace output_file ".pdf" "_more_compressed.pdf".

(** Sizes are compared in megabytes, [size / (1024 * 1024)] as a float.
    Dividing an integer below 2^53 by a power of two is exact, and larger
    sizes are far above 100, so the two tests are the integer tests below. *)
Definition hundred_mb : Z := 100 * (1024 * 1024).

(** [size_mb > 100] *)
Definition over_100mb (size : Z) : bool := hundred_mb <? size.
(** [size_mb < 100] *)
Definition under_100mb (size : Z) : bool := size <? hundred_mb.

Section Ghostscript.
Context {content : Type}.
Variable nbytes : content -> Z.

(** One run of the external filter: exit status 0 with the output file it
    wrote, or a non-zero exit status, possibly leaving a partial output. *)
Inductive gs_exit : Type :=
  | GsDone (out : content)
  | GsFailed (partial : option content).

(** The filter itself is not part of the program: its result is a
    function of the argument vector and of the input file, if any. *)
Variable gs : list string -> option content -> gs_exit.

(** The exception [shutil.copy] raises when it cannot create its
    destination, as in [FS.copy]. *)
Variable copy_error : string -> option exn.

(** [subprocess.run(cmd, check=True)] for a command reading [input_file]
    and writing [output_file]; Ghostscript is taken to be installed. *)
Definition subprocess_run (cmd : list string) (input_file output_file : string)
  : M content unit :=
  fun σ =>
    match gs cmd (σ !! input_file) with
    | GsDone out => (Ret tt, <[output_file := out]> σ)
    | GsFailed (Some part) => (Raise CalledProcessError, <[output_file := part]> σ)
    | GsFailed None => (Raise CalledProcessError, σ)
    end.

Definition is_called_process_error (e : exn) : bool :=
  match e with CalledProcessError => true | _ => false end.

(** [reduction = (1 - compressed_size / original_size) * 100]: only
    printed, but the division raises when the input is empty. *)
Definition reduction_check (original_size : Z) : M content unit :=
  if original_size =? 0 then raise ZeroDivisionError else ret tt.

(** [compress_pdf(input_file, output_file, quality)], returning
    [(success, original_size, compressed_size)]. *)
Definition compress_pdf (input_file output_file quality : string)
  : M content (bool * Z * Z) :=
  let setting := gs_setting quality in
  try_except
    (subprocess_run (compress_cmd setting output_file input_file) input_file output_file ;;
     let* original_size := getsize nbytes input_file in
     let* compressed_size := getsize nbytes output_file in
     reduction_check original_size ;;
     ret (true, original_size, compressed_size))
    is_called_process_error
    (copy copy_error input_file output_file ;;
     let* original_size := getsize nbytes input_file in
     ret (false, original_size, original_size)).

(** The branch taken when the first result is still over 100 MB. *)
Definition second_pass (input_file output_file : string) (compressed_size : Z)
  : M content Z :=
  let more := more_aggressive_output output_file in
  subprocess_run (super_cmd2 more input_file) input_file more ;;
  let* more_compressed_size := getsize nbytes more in
  if more_compressed_size <? compressed_size then
    remove output_file ;;
    rename more output_file ;;
    ret more_compressed_size
  else
    let* still_there := exists_ more in
    (if still_there then remove more else ret tt) ;;
    ret compressed_size.

(** [super_compress_pdf(input_file, output_file)], returning
    [(compressed_size_mb < 100, compressed_size_mb)]; the size is kept in
    bytes here. *)
Definition super_compress_pdf (input_file output_file : string)
  : M content (bool * Z) :=
  let* original_size := getsize nbytes input_file in
  try_except
    (subprocess_run (super_cmd output_file input_file) input_file output_file ;;
     let* compressed_size := getsize nbytes output_file in
     reduction_check original_size ;;
     let* compressed_size :=
       (if over_100mb compressed_size
        then second_pass input_file output_file compressed_size
        else ret compressed_size) in
     ret (under_100mb compressed_size, compressed_size))
    is_called_process_error
    (ret (false, original_size)).

(** How [compress_pdf_directory] treats one file of the input directory:
    over 100 MB through [super_compress_pdf], otherwise through
    [compress_pdf]. *)
Inductive routed : Type :=
  | ViaSuper (r : bool * Z)
  | ViaRegular (r : bool * Z * Z).

Definition compress_entry (input_dir output_dir filename quality : string)
  : M content routed :=
  let filepath := Download.os_path_join input_dir filename in
  let output_path := Download.os_path_join output_dir filename in
  let* size := getsize nbytes filepath in
  if over_100mb size
  then let* r := super_compress_pdf filepath output_path in ret (ViaSuper r)
  else let* r := compress_pdf filepath output_path quality in ret (ViaRegular r).
End Ghostscript.

Arguments gs_exit : clear implicits.
Arguments routed : clear implicits.

End Compress.

(* ===================================================================== *)
(** * Directory listings and get_pdf_size_info (lines 146-156, 200)        *)
(* ===================================================================== *)

Module Pipeline.
Import FS Download.

(** The stages the [all] command of [main] enters, in order; [Uncaught]
    ends the trace of a run that an exception terminates. *)
Inductive step : Type :=
  | StepDownload (target_url : string)
  | StepMerge (pdf_dir : string)
  | StepCompress (input_dir : string)
  | StepCleanup (merged_dir : string)
  | Uncaught (e : exn).

(** Removing [pre] from the front of [s]. *)
Fixpoint strip_prefix (pre s : string) : option string :=
  match pre, s with
  | EmptyString, _ => Some s
  | String a pre', String b s' => if Ascii.eqb a b then strip_prefix pre' s' else None
  | String _ _, EmptyString => None
  end.

(** The name of [path] inside directory [dir], when it lies directly there. *)
Definition entry_of (dir path : string) : option string :=
  match strip_prefix (dir ++ "/") path with
  | Some name => if String.eqb name "" || has_char "/" name then None else Some name
  | None => None
  end.

Section Run.
Context {content : Type}.
Variable nbytes : content -> Z.
(** The page count PyPDF2 reads, [None] when it raises. *)
Variable pdf_pages : content -> option Z.

(** [os.listdir(dir)], files only, in some order. *)
Definition listdir (dir : string) (σ : fs content) : list string :=
  omap (fun entry => entry_of dir entry.1) (map_to_list σ).

(** [get_pdf_size_info(pdf_path)] *)
Definition get_pdf_size_info (σ : fs content) (path : string) : Merge.pdf_info :=
  match σ !! path with
  | Some c =>
      match pdf_pages c with
      | Some n => (nbytes c, n, path)
      | None => (0, 0, path)
      end
  | None => (0, 0, path)
  end.

(** [all_files = [os.path.join(pdf_dir, f) for f in os.listdir(pdf_dir)
                   if f.lower().endswith('.pdf')]] *)
Definition all_files (pdf_dir : string) (σ : fs content) : list string :=
  os_path_join pdf_dir <$>
    List.filter (fun f => py_endswith (py_lower f) ".pdf") (listdir pdf_dir σ).

(** Truth value of a string or [None] in [if x:]. *)
Definition truthy (x : option string) : bool :=
  match x with
  | Some d => negb (String.eqb d "")
  | None => false
  end.

End Run.

End Pipeline.

(* ===================================================================== *)
(** * Concrete inputs used in examples                                     *)
(* ===================================================================== *)

Module Samples.
Import FS Download Compress.

(** A page with four links: one fetched at once, one after two request
    errors, one that keeps failing, one that hits another exception. *)
Definition sample_net : string -> nat -> attempt string :=
  fun url n =>
    if String.eqb url "http://h/a.pdf" then Fetched "%PDF-a"
    else if String.eqb url "http://h/b.pdf"
         then (if (n <? 2)%nat then RequestFailed None else Fetched "%PDF-b")
    else if String.eqb url "http://h/c.pdf" then RequestFailed (Some "%PD")
    else OtherFailed None.

Definition sample_urls : list string :=
  ["http://h/a.pdf"; "http://h/b.pdf"; "http://h/c.pdf"; "http://h/d.pdf"].

(** A network on which every request fails. *)
Definition failing_net : string -> nat -> attempt Z := fun _ _ => RequestFailed None.

(** In the compression and pipeline examples a file is represented by its
    size in bytes, and every file is a readable one-page document. *)
Definition one_page : Z -> option Z := fun _ => Some 1.

Definition mb (n : Z) : Z := n * (1024 * 1024).

(** A filter whose first kind of run (the profiles of [compress_pdf] and the
    first pass of [super_compress_pdf]) and second kind of run (the
    grayscale pass) each produce a file of a given size, or fail. *)
Definition sized_gs (first second : option Z) : list string -> option Z -> gs_exit Z :=
  fun cmd _ =>
    match (if existsb (String.eqb "-dColorConversionStrategy=/Gray") cmd
           then second else first) with
    | Some size => GsDone size
    | None => GsFailed None
    end.

(** A filter that succeeds, with a file of 20 MB, only when it is run with
    the [/ebook] profile. *)
Definition ebook_only_gs : list string -> option Z -> gs_exit Z :=
  fun cmd _ =>
    if existsb (String.eqb "-dPDFSETTINGS=/ebook") cmd then GsDone (mb 20)
    else GsFailed None.

(** A directory of merged files holding one file. *)
Definition one_file (dir name : string) (size : Z) : fs Z :=
  {[ os_path_join dir name := size ]}.

(** Every directory can be created and written to. *)
Definition no_error : string -> option exn := fun _ => None.

(** No directory can be written to. *)
Definition read_only : string -> option exn := fun _ => Some FileNotFoundError.

End Samples.

(* ===================================================================== *)
(** * merge_pdf_bucket and the merging loop of merge_pdfs (160-183, 245-260) *)
(* ===================================================================== *)

Module MergeWrite.
Import FS Download Merge Pipeline.

(** The character of a decimal digit. *)
Definition digit_char (d : nat) : ascii := ascii_of_nat (48 + d).

(** [f"{n:03d}"] for [n >= 0]: three digits with leading zeros below 1000,
    the plain decimal numeral from 1000 on. *)
Definition format_03d (n : nat) : string :=
  if (n <? 1000)%nat
  then String (digit_char (n / 100))
         (String (digit_char (n / 10 mod 10))
            (String (digit_char (n mod 10)) EmptyString))
  else pretty n.

(** [os.path.join(output_dir, f"merged_{i+1:03d}.pdf")] *)
Definition output_file (output_dir : string) (i : nat) : string :=
  os_path_join output_dir ("merged_" ++ format_03d (i + 1) ++ ".pdf").

Section Merger.
Context {content : Type}.
Variable nbytes : content -> Z.
Variable pdf_pages : content -> option Z.

(** Whether [pdf_merger.append] accepts a file with this content. *)
Variable appends : content -> bool.

(** [pdf_merger.write(output_file)]: the merged document is written, or an
    exception is raised, possibly after part of the file was written. *)
Inductive write_exit : Type :=
  | Wrote (out : content)
  | WriteFailed (partial : option content).

Variable pdf_write : string -> list content -> write_exit.

(** [os.makedirs(path, exist_ok=True)], as in [Download]. *)
Variable makedirs : string -> option exn.

(** The documents the merger holds after the loop over the bucket: the
    files that exist and that [append] accepts, in bucket order. *)
Fixpoint appended (σ : fs content) (bucket : list string) : list content :=
  match bucket with
  | [] => []
  | pdf_file :: rest =>
      match σ !! pdf_file with
      | Some c => if appends c then c :: appended σ rest else appended σ rest
      | None => appended σ rest
      end
  end.

(** [merge_pdf_bucket(bucket, output_file)]; [merged_count] is the length of
    [appended]. *)
Definition merge_pdf_bucket (bucket : list string) (output : string)
    (σ : fs content) : bool * fs content :=
  let docs := appended σ bucket in
  if (0 <? Z.of_nat (length docs))
  then match pdf_write output docs with
       | Wrote out => (true, <[output := out]> σ)
       | WriteFailed (Some part) => (false, <[output := part]> σ)
       | WriteFailed None => (false, σ)
       end
  else (false, σ).

(** [for i, bucket in enumerate(buckets): ...], from index [i] on. *)
Fixpoint merge_buckets (output_dir : string) (i : nat) (bs : list (list string))
    (successfully_merged : Z) (σ : fs content) : Z * fs content :=
  match bs with
  | [] => (successfully_merged, σ)
  | bucket :: rest =>
      match bucket with
      | [] => merge_buckets output_dir (S i) rest successfully_merged σ
      | _ :: _ =>
          let '(ok, σ') := merge_pdf_bucket bucket (output_file output_dir i) σ in
          merge_buckets output_dir (S i) rest
            (if ok then successfully_merged + 1 else successfully_merged) σ'
      end
  end.

(** The number of buckets, from index [i] on, whose merge succeeds when it
    is run on the file system [σ]. *)
Fixpoint count_merged (output_dir : string) (i : nat) (bs : list (list string))
    (σ : fs content) : Z :=
  match bs with
  | [] => 0
  | bucket :: rest =>
      (if (merge_pdf_bucket bucket (output_file output_dir i) σ).1 then 1 else 0)
      + count_merged output_dir (S i) rest σ
  end.

(** [merge_pdfs(pdf_dir, output_dir, num_output_files)] with its writes:
    the returned directory and the printed number of merged files.
    [os.makedirs(output_dir)] (line 224) stands between the test for valid
    documents and the assignment; [os.cpu_count()] is [None] or positive,
    so the pool of line 210 is always created. *)
Definition merge_pdfs_run (pdf_dir output_dir : string) (num_output_files : Z)
    (σ : fs content) : res (option (string * Z)) * fs content :=
  match all_files pdf_dir σ with
  | [] => (Ret None, σ)
  | _ :: _ =>
      let analysed := get_pdf_size_info nbytes pdf_pages σ <$> all_files pdf_dir σ in
      match valid_pdfs analysed with
      | [] => (Ret None, σ)
      | _ :: _ =>
          match makedirs output_dir with
          | Some e => (Raise e, σ)
          | None =>
              match merge_assign analysed num_output_files with
              | Raise e => (Raise e, σ)
              | Ret None => (Ret None, σ)
              | Ret (Some st) =>
                  let '(merged, σ') := merge_buckets output_dir 0 (buckets st) 0 σ in
                  (Ret (Some (output_dir, merged)), σ')
              end
          end
      end
  end.
End Merger.

Arguments write_exit : clear implicits.

End MergeWrite.

(* ===================================================================== *)
(** * compress_pdf_directory (lines 382-474)                               *)
(* ===================================================================== *)

Module CompressDir.
Import FS FS.Notations Pool Download Pipeline Compress.

(** The three counters printed at the end. *)
Record totals : Type := mkTotals {
  total_original_size : Z;
  total_compressed_size : Z;
  successfully_compressed : Z
}.

Section Dir.
Context {content : Type}.
Variable nbytes : content -> Z.
Variable gs : list string -> option content -> gs_exit content.
Variable copy_error : string -> option exn.
(** [os.makedirs(path, exist_ok=True)], as in [Download]. *)
Variable makedirs : string -> option exn.

(** [pdf_files = [f for f in os.listdir(input_dir) if f.lower().endswith('.pdf')]];
    a directory that does not exist lists nothing. *)
Definition pdf_files (input_dir : string) (σ : fs content) : list string :=
  List.filter (fun f => py_endswith (py_lower f) ".pdf") (listdir input_dir σ).

(** The loop that collects [large_pdfs]: the paths whose size is over
    100 MB. *)
Fixpoint large_pdfs (input_dir : string) (files : list string) : M content (list string) :=
  match files with
  | [] => ret []
  | filename :: rest =>
      let filepath := os_path_join input_dir filename in
      let* size := getsize nbytes filepath in
      let* more := large_pdfs input_dir rest in
      ret (if over_100mb size then filepath :: more else more)
  end.

(** [for pdf_path, size in large_pdfs: ... super_compress_pdf(pdf_path, output_path)];
    [os.path.basename] is the part after the last separator.  An exception
    of [super_compress_pdf] is not caught here. *)
Fixpoint compress_large (output_dir : string) (large : list string) : M content unit :=
  match large with
  | [] => ret tt
  | pdf_path :: rest =>
      let filename := py_last (py_split "/" pdf_path) in
      let output_path := os_path_join output_dir filename in
      super_compress_pdf nbytes gs pdf_path output_path ;;
      compress_large output_dir rest
  end.

(** [regular_pdfs = [f for f in pdf_files
                     if os.path.join(input_dir, f) not in [p[0] for p in large_pdfs]]] *)
Definition regular_pdfs (input_dir : string) (files large : list string) : list string :=
  List.filter (fun f => negb (bool_decide (os_path_join input_dir f ∈ large))) files.

(** The pool of [compress_pdf] tasks and the loop over their results, one
    task after the other; an exception of a task is caught and the counters
    stay as they are. *)
Fixpoint compress_regular (input_dir output_dir quality : string) (regular : list string)
    (t : totals) (σ : fs content) : totals * fs content :=
  match regular with
  | [] => (t, σ)
  | pdf_file :: rest =>
      let input_path := os_path_join input_dir pdf_file in
      let output_path := os_path_join output_dir pdf_file in
      match compress_pdf nbytes gs copy_error input_path output_path quality σ with
      | (Ret (success, original_size, compressed_size), σ') =>
          compress_regular input_dir output_dir quality rest
            (mkTotals (total_original_size t + original_size)
                      (total_compressed_size t + compressed_size)
                      (if success then successfully_compressed t + 1
                       else successfully_compressed t)) σ'
      | (Raise _, σ') => compress_regular input_dir output_dir quality rest t σ'
      end
  end.

(** Lines 434-438: the size of the pool is chosen and the pool is
    created, outside any [try]. *)
Definition make_pool (max_workers cpu_count : option Z) : res unit :=
  match default_workers max_workers cpu_count with
  | Raise e => Raise e
  | Ret n => executor (Some n)
  end.

(** [compress_pdf_directory(input_dir, output_dir, quality, max_workers)]:
    the returned directory with the counters, or [None].  [cpu_count] is
    what [os.cpu_count()] answers.  The exceptions of [os.makedirs], of
    [super_compress_pdf] and of the creation of the pool leave the
    function. *)
Definition compress_pdf_directory (input_dir output_dir quality : string)
    (max_workers cpu_count : option Z)
  : M content (option (string * totals)) :=
  fun σ =>
    match pdf_files input_dir σ with
    | [] => (Ret None, σ)
    | files =>
        match makedirs output_dir with
        | Some e => (Raise e, σ)
        | None =>
            (let* large := large_pdfs input_dir files in
             compress_large output_dir large ;;
             fun σ1 =>
               match make_pool max_workers cpu_count with
               | Raise e => (Raise e, σ1)
               | Ret _ =>
                   let '(t, σ2) :=
                     compress_regular input_dir output_dir quality
                       (regular_pdfs input_dir files large) (mkTotals 0 0 0) σ1 in
                   (Ret (Some (output_dir, t)), σ2)
               end) σ
        end
    end.

(** Whether the file [filename] of [input_dir] is over 100 MB in [σ]. *)
Definition is_large (input_dir : string) (σ : fs content) (filename : string) : bool :=
  match σ !! os_path_join input_dir filename with
  | Some c => over_100mb (nbytes c)
  | None => false
  end.

(** What [compress_pdf] leaves under the output path for an input read from
    [σ] when the output can be created: the filter's output, or the input
    itself when the filter fails. *)
Definition committed (quality input_path output_path : string) (σ : fs content)
  : option content :=
  match σ !! input_path with
  | Some c =>
      match gs (compress_cmd (gs_setting quality) output_path input_path) (Some c) with
      | GsDone out => Some out
      | GsFailed _ => Some c
      end
  | None => None
  end.

(** The counters expected for a list of regular files read from [σ] whose
    outputs can be created. *)
Fixpoint expected_totals (input_dir output_dir quality : string) (regular : list string)
    (σ : fs content) : totals :=
  match regular with
  | [] => mkTotals 0 0 0
  | pdf_file :: rest =>
      let t := expected_totals input_dir output_dir quality rest σ in
      let input_path := os_path_join input_dir pdf_file in
      let output_path := os_path_join output_dir pdf_file in
      match σ !! input_path with
      | Some c =>
          match gs (compress_cmd (gs_setting quality) output_path input_path) (Some c) with
          | GsDone out =>
              mkTotals (nbytes c + total_original_size t)
                       (nbytes out + total_compressed_size t)
                       (1 + successfully_compressed t)
          | GsFailed _ =>
              mkTotals (nbytes c + total_original_size t)
                       (nbytes c + total_compressed_size t)
                       (successfully_compressed t)
          end
      | None => t
      end
  end.
End Dir.

End CompressDir.

(* ===================================================================== *)
(** * The [all] command of [main] (lines 527-545)                          *)
(* ===================================================================== *)

Module Main.
Import FS Download Compress Pipeline MergeWrite CompressDir.

Section All.
Context {content : Type}.
Variable nbytes : content -> Z.
Variable pdf_pages : content -> option Z.
Variable appends : content -> bool.
Variable pdf_write : string -> list content -> write_exit content.
Variable gs : list string -> option content -> gs_exit content.
Variable copy_error : string -> option exn.
Variable makedirs : string -> option exn.
Variable cpu_count : option Z.

(** The [all] branch of [main]: the stages entered.  [output], [count],
    [quality], [download_workers] and [compress_workers] are the parsed
    arguments ([-dw] is an [int], [-cw] an [int] or [None]); [page],
    [completed] and [net] are as in [download_pdfs_from_url].  The value
    returned by [compress_pdf_directory] is not looked at; the clean-up
    catches its own exceptions; an exception of one of the three stages
    ends the run. *)
Definition main_all (target_url output : string) (count : Z) (quality : string)
    (download_workers : Z) (compress_workers : option Z)
    (page : option (list string)) (completed : list string)
    (net : string -> nat -> attempt content) (σ : fs content) : list step :=
  let download_dir :=
    ("PDF_Downloads_" ++ py_last (py_split "/" target_url))%string in
  StepDownload target_url ::
  match download_pdfs_from_url makedirs page completed net download_dir
          (Some download_workers) σ with
  | (Raise e, _) => [Uncaught e]
  | (Ret (returned, _), σ1) =>
      if truthy returned then
        StepMerge download_dir ::
        match merge_pdfs_run nbytes pdf_pages appends pdf_write makedirs
                download_dir "Temp_Merged_PDFs" count σ1 with
        | (Raise e, _) => [Uncaught e]
        | (Ret merged, σ2) =>
            if truthy (fst <$> merged) then
              StepCompress "Temp_Merged_PDFs" ::
              match compress_pdf_directory nbytes gs copy_error makedirs
                      "Temp_Merged_PDFs" output quality compress_workers cpu_count σ2 with
              | (Raise e, _) => [Uncaught e]
              | (Ret _, _) => [StepCleanup "Temp_Merged_PDFs"]
              end
            else []
        end
      else []
  end.
End All.

End Main.

(* ===================================================================== *)
(** * Predicates used to state further properties                          *)
(* ===================================================================== *)

Module Preds.
Import Download.

(** Every character of [s] satisfies [f]. *)
Fixpoint all_chars (f : ascii -> bool) (s : string) : bool :=
  match s with
  | EmptyString => true
  | String c s' => f c && all_chars f s'
  end.

(** A directory name as [os.listdir] and [os.path.join] are used with here:
    not empty and without a trailing separator. *)
Definition plain_dir (dir : string) : Prop :=
  dir <> "" ∧ py_endswith dir "/" = false.

End Preds.

(* ===================================================================== *)
(** * Properties of the bucket assignment                                  *)
(* ===================================================================== *)

Module MergeFacts.
Import Merge.

(** ** Facts about [min] and [index] *)

Lemma fold_left_min_spec (l : list Z) (x : Z) :
  fold_left Z.min l x ∈ x :: l ∧ Forall (fun y => fold_left Z.min l x <= y) (x :: l).
Proof.
  revert x. induction l as [|y l IH]; intros x; simpl.
  - split; [left | constructor; [lia | constructor]].
  - destruct (IH (Z.min x y)) as [Hin Hall].
    apply Forall_cons in Hall as [Hhd Htl]. split.
    + apply elem_of_cons in Hin as [Heq | Hin].
      * rewrite Heq. destruct (Z.min_spec x y) as [[_ ->] | [_ ->]].
        -- left.
        -- right; left.
      * right; right; exact Hin.
    + constructor; [lia |]. constructor; [lia | exact Htl].
Qed.

Lemma py_min_spec (l : list Z) (m : Z) :
  py_min l = Ret m -> m ∈ l ∧ Forall (fun y => m <= y) l.
Proof.
  destruct l as [|x l]; simpl; [discriminate |].
  intros [= <-]. apply fold_left_min_spec.
Qed.

Lemma py_min_returns (l : list Z) :
  l <> [] -> exists m, py_min l = Ret m.
Proof. destruct l; [congruence | eauto]. Qed.

Lemma py_index_spec (v : Z) (l : list Z) :
  v ∈ l -> exists i, py_index v l = Ret i ∧ l !! i = Some v.
Proof.
  induction l as [|x l IH]; intros Hin.
  - inversion Hin.
  - simpl. destruct (Z.eqb_spec x v) as [-> | Hne].
    + exists 0%nat. split; reflexivity.
    + apply elem_of_cons in Hin as [-> | Hin]; [congruence |].
      destruct (IH Hin) as (i & -> & Hi). exists (S i). split; [reflexivity | exact Hi].
Qed.

(** [index] returns the lowest position: no earlier entry holds the value. *)
Lemma py_index_lowest (v : Z) (l : list Z) (i : nat) :
  py_index v l = Ret i -> forall j x, (j < i)%nat -> l !! j = Some x -> x <> v.
Proof.
  revert i. induction l as [|y l IH]; intros i; simpl; [discriminate |].
  destruct (Z.eqb_spec y v) as [-> | Hne].
  - intros [= <-] j x Hj. lia.
  - destruct (py_index v l) as [i' |] eqn:E; [| discriminate].
    intros [= <-] [|j] x Hj; simpl.
    + intros [= <-]. exact Hne.
    + apply (IH i' eq_refl). lia.
Qed.

Lemma zsum_app (l1 l2 : list Z) : zsum (l1 ++ l2) = zsum l1 + zsum l2.
Proof. induction l1 as [|x l1 IH]; simpl; [reflexivity | rewrite IH; lia]. Qed.

Lemma zsum_alter_add (l : list Z) (i : nat) (w x : Z) :
  l !! i = Some x -> zsum (alter (fun s => s + w) i l) = zsum l + w.
Proof.
  revert i. induction l as [|y l IH]; intros [|i]; simpl; try discriminate.
  - intros _. lia.
  - intros H. specialize (IH i H). unfold alter in *. simpl. lia.
Qed.

Lemma min_times_length_le_sum (l : list Z) (m : Z) :
  Forall (fun y => m <= y) l -> Z.of_nat (length l) * m <= zsum l.
Proof.
  induction 1 as [|y l Hy _ IH]; simpl length; simpl zsum; [lia |].
  rewrite Nat2Z.inj_succ. lia.
Qed.

Lemma zsum_Permutation (l1 l2 : list Z) : l1 ≡ₚ l2 -> zsum l1 = zsum l2.
Proof. induction 1; simpl; lia. Qed.

Lemma zmax_upper (l : list Z) (x : Z) : x ∈ l -> x <= zmax l.
Proof.
  induction l as [|y l IH]; intros Hin; [inversion Hin |].
  simpl. apply elem_of_cons in Hin as [-> | Hin]; [lia |].
  specialize (IH Hin). lia.
Qed.

Lemma zmax_Permutation (l1 l2 : list Z) : l1 ≡ₚ l2 -> zmax l1 = zmax l2.
Proof. induction 1; simpl; lia. Qed.

(** ** The filter and the sort *)

Lemma valid_pdfs_filter (l : list pdf_info) :
  valid_pdfs l = filter (fun p => 0 < file_size p) l.
Proof.
  induction l as [|p l IH]; [reflexivity |].
  simpl. rewrite filter_cons. unfold is_valid.
  destruct (Z.ltb_spec 0 (file_size p)); destruct (decide (0 < file_size p));
    try lia; rewrite IH; reflexivity.
Qed.

Lemma valid_pdfs_positive (l : list pdf_info) :
  Forall (fun p => 0 < file_size p) (valid_pdfs l).
Proof.
  induction l as [|p l IH]; simpl; [constructor |].
  unfold is_valid. destruct (Z.ltb_spec 0 (file_size p)); [constructor |]; assumption.
Qed.

Lemma insert_desc_Permutation (x : pdf_info) (l : list pdf_info) :
  insert_desc x l ≡ₚ x :: l.
Proof.
  induction l as [|y l IH]; simpl; [reflexivity |].
  destruct (tuple_compare x y); try reflexivity.
  rewrite IH. apply Permutation_swap.
Qed.

Lemma sort_reverse_Permutation (l : list pdf_info) : sort_reverse l ≡ₚ l.
Proof.
  induction l as [|x l IH]; simpl; [reflexivity |].
  rewrite insert_desc_Permutation, IH. reflexivity.
Qed.

(** ** The order on tuples and uniqueness of the sorted list *)

Lemma ascii_compare_refl (a : ascii) : Ascii.compare a a = Eq.
Proof. unfold Ascii.compare. apply N.compare_refl. Qed.

Lemma ascii_compare_lt_trans (a b c : ascii) :
  Ascii.compare a b = Lt -> Ascii.compare b c = Lt -> Ascii.compare a c = Lt.
Proof. unfold Ascii.compare. rewrite !N.compare_lt_iff. lia. Qed.

Lemma string_compare_refl (s : string) : String.compare s s = Eq.
Proof. induction s as [|c s IH]; simpl; [reflexivity |]. rewrite ascii_compare_refl. exact IH. Qed.

Lemma string_compare_lt_trans (a b c : string) :
  String.compare a b = Lt -> String.compare b c = Lt -> String.compare a c = Lt.
Proof.
  revert b c. induction a as [|x a IH]; intros [|y b] [|z c]; simpl; try congruence.
  destruct (Ascii.compare x y) eqn:Hxy; try discriminate;
    destruct (Ascii.compare y z) eqn:Hyz; try discriminate; intros Hab Hbc.
  - apply Ascii.compare_eq_iff in Hxy, Hyz. subst. rewrite ascii_compare_refl. eauto.
  - apply Ascii.compare_eq_iff in Hxy. subst. rewrite Hyz. reflexivity.
  - apply Ascii.compare_eq_iff in Hyz. subst. rewrite Hxy. reflexivity.
  - rewrite (ascii_compare_lt_trans _ _ _ Hxy Hyz). reflexivity.
Qed.

Lemma tuple_compare_antisym (a b : pdf_info) :
  tuple_compare a b = CompOpp (tuple_compare b a).
Proof.
  unfold tuple_compare.
  rewrite (Z.compare_antisym (file_size a)), (Z.compare_antisym (num_pages a)),
    (String.compare_antisym (pdf_path b)).
  destruct (file_size a ?= file_size b); simpl; try reflexivity.
  destruct (num_pages a ?= num_pages b); simpl; try reflexivity.
  destruct (String.compare (pdf_path a) (pdf_path b)); reflexivity.
Qed.

Lemma tuple_compare_eq (a b : pdf_info) : tuple_compare a b = Eq -> a = b.
Proof.
  destruct a as [[sa na] pa], b as [[sb nb] pb].
  unfold tuple_compare, file_size, num_pages, pdf_path. simpl.
  destruct (Z.compare_spec sa sb); try discriminate.
  destruct (Z.compare_spec na nb); try discriminate.
  intros Hp. apply String.compare_eq_iff in Hp. congruence.
Qed.

Lemma tuple_compare_lt_trans (a b c : pdf_info) :
  tuple_compare a b = Lt -> tuple_compare b c = Lt -> tuple_compare a c = Lt.
Proof.
  destruct a as [[sa na] pa], b as [[sb nb] pb], c as [[sc nc] pc].
  unfold tuple_compare, file_size, num_pages, pdf_path. simpl.
  destruct (Z.compare_spec sa sb); try discriminate;
    destruct (Z.compare_spec sb sc); try discriminate;
    destruct (Z.compare_spec sa sc); try lia; try reflexivity.
  destruct (Z.compare_spec na nb); try discriminate;
    destruct (Z.compare_spec nb nc); try discriminate;
    destruct (Z.compare_spec na nc); try lia; try reflexivity.
  apply string_compare_lt_trans.
Qed.

#[local] Instance tuple_ge_trans : Transitive tuple_ge.
Proof.
  intros a b c Hab Hbc. unfold tuple_ge in *.
  destruct (tuple_compare a b) eqn:Eab; [| congruence |].
  { apply tuple_compare_eq in Eab. subst. exact Hbc. }
  destruct (tuple_compare b c) eqn:Ebc; [| congruence |].
  { apply tuple_compare_eq in Ebc. subst. congruence. }
  rewrite tuple_compare_antisym in Eab, Ebc.
  destruct (tuple_compare b a) eqn:Eba; try discriminate.
  destruct (tuple_compare c b) eqn:Ecb; try discriminate.
  rewrite tuple_compare_antisym, (tuple_compare_lt_trans _ _ _ Ecb Eba). discriminate.
Qed.

#[local] Instance tuple_ge_antisym : AntiSymm (=) tuple_ge.
Proof.
  intros a b Hab Hba. unfold tuple_ge in *.
  destruct (tuple_compare a b) eqn:Eab; [| congruence |].
  - apply tuple_compare_eq, Eab.
  - rewrite tuple_compare_antisym in Hba. rewrite Eab in Hba. simpl in Hba. congruence.
Qed.

Lemma insert_desc_Sorted (x : pdf_info) (l : list pdf_info) :
  Sorted tuple_ge l -> Sorted tuple_ge (insert_desc x l).
Proof.
  induction l as [|y l IH]; intros Hs; simpl.
  - repeat constructor.
  - apply Sorted_inv in Hs as [Hs Hhd].
    destruct (tuple_compare x y) eqn:Exy.
    + constructor; [constructor; assumption |]. constructor. unfold tuple_ge. congruence.
    + constructor; [apply IH, Hs |].
      destruct l as [|z l]; simpl.
      * constructor. unfold tuple_ge. rewrite tuple_compare_antisym, Exy. discriminate.
      * destruct (tuple_compare x z).
        -- constructor. unfold tuple_ge. rewrite tuple_compare_antisym, Exy. discriminate.
        -- inversion Hhd; subst. constructor. assumption.
        -- constructor. unfold tuple_ge. rewrite tuple_compare_antisym, Exy. discriminate.
    + constructor; [constructor; assumption |]. constructor. unfold tuple_ge. congruence.
Qed.

Lemma sort_reverse_Sorted (l : list pdf_info) : Sorted tuple_ge (sort_reverse l).
Proof.
  induction l as [|x l IH]; simpl; [constructor | apply insert_desc_Sorted, IH].
Qed.

(** Any descending arrangement of the same tuples is the one [sort_reverse]
    computes: the result does not depend on the sorting algorithm. *)
Lemma sort_reverse_unique (l sorted : list pdf_info) :
  Sorted tuple_ge sorted -> sorted ≡ₚ l -> sorted = sort_reverse l.
Proof.
  intros Hs Hp. apply (Sorted_unique tuple_ge); auto using sort_reverse_Sorted.
  rewrite Hp, sort_reverse_Permutation. reflexivity.
Qed.

(** The assignment does not depend on the order in which the probes
    complete. *)
Lemma merge_assign_Permutation (l1 l2 : list pdf_info) (k : Z) :
  l1 ≡ₚ l2 -> merge_assign l1 k = merge_assign l2 k.
Proof.
  intros Hp.
  assert (Hv : valid_pdfs l1 ≡ₚ valid_pdfs l2).
  { rewrite !valid_pdfs_filter, Hp. reflexivity. }
  assert (Hs : sort_reverse (valid_pdfs l1) = sort_reverse (valid_pdfs l2)).
  { apply sort_reverse_unique; [apply sort_reverse_Sorted |].
    rewrite sort_reverse_Permutation. exact Hv. }
  unfold merge_assign. rewrite Hs, (Permutation_length Hv).
  destruct (valid_pdfs l1) as [|p v] eqn:E1, (valid_pdfs l2) as [|q w] eqn:E2;
    try reflexivity.
  - apply Permutation_length in Hv. discriminate.
  - apply Permutation_length in Hv. discriminate.
Qed.

(** ** One iteration *)

Lemma assign_one_returns (st : state) (p : pdf_info) :
  bucket_sizes st <> [] ->
  exists i m,
    bucket_sizes st !! i = Some m ∧
    Forall (fun y => m <= y) (bucket_sizes st) ∧
    assign_one st p =
      Ret (mkState (alter (fun b => b ++ [pdf_path p]) i (buckets st))
                   (alter (fun s => s + file_size p) i (bucket_sizes st))).
Proof.
  intros Hne. unfold assign_one.
  destruct (py_min_returns _ Hne) as [m Hm]. rewrite Hm.
  destruct (py_min_spec _ _ Hm) as [Hin Hall].
  destruct (py_index_spec _ _ Hin) as (i & Hi & Hlook). rewrite Hi.
  exists i, m. auto.
Qed.

Lemma total_weight_snoc (b : list pdf_info) (p : pdf_info) :
  total_weight (b ++ [p]) = total_weight b + file_size p.
Proof. unfold total_weight. rewrite fmap_app, zsum_app. simpl. lia. Qed.

Lemma tracks_alter (ib : list (list pdf_info)) (st : state) (i : nat) (p : pdf_info) :
  tracks ib st ->
  tracks (alter (fun b => b ++ [p]) i ib)
         (mkState (alter (fun b => b ++ [pdf_path p]) i (buckets st))
                  (alter (fun s => s + file_size p) i (bucket_sizes st))).
Proof.
  intros [Hb Hs]. split; simpl.
  - rewrite Hb. symmetry. apply list_fmap_alter.
    apply Forall_forall. intros b _. rewrite fmap_app. reflexivity.
  - rewrite Hs. symmetry. apply list_fmap_alter.
    apply Forall_forall. intros b _. apply total_weight_snoc.
Qed.

Lemma concat_alter_snoc {A} (ls : list (list A)) (i : nat) (x : A) :
  (i < length ls)%nat -> concat (alter (fun b => b ++ [x]) i ls) ≡ₚ x :: concat ls.
Proof.
  revert i. induction ls as [|b ls IH]; intros i Hi; simpl in Hi; [lia |].
  destruct i as [|i]; unfold alter; simpl.
  - rewrite <- app_assoc. simpl. symmetry. apply Permutation_middle.
  - specialize (IH i ltac:(lia)). unfold alter in IH. rewrite IH.
    symmetry. apply Permutation_middle.
Qed.

Lemma tracks_length (ib : list (list pdf_info)) (st : state) :
  tracks ib st -> length (bucket_sizes st) = length ib ∧ length (buckets st) = length ib.
Proof. intros [-> ->]. rewrite !length_fmap. auto. Qed.

(** ** The whole loop returns, and keeps every item once *)

Lemma assign_all_tracks (l : list pdf_info) :
  forall (st : state) (ib : list (list pdf_info)),
    tracks ib st -> ib <> [] ->
    exists st' ib',
      assign_all st l = Ret st' ∧ tracks ib' st' ∧
      length ib' = length ib ∧ concat ib' ≡ₚ concat ib ++ l.
Proof.
  induction l as [|p l IH]; intros st ib Htr Hne.
  - exists st, ib. rewrite app_nil_r. auto.
  - destruct (tracks_length _ _ Htr) as [Hlen _].
    assert (Hne' : bucket_sizes st <> []).
    { intros E. rewrite E in Hlen. destruct ib; [congruence | discriminate]. }
    destruct (assign_one_returns st p Hne') as (i & m & Hlook & _ & Hone).
    pose proof (tracks_alter ib st i p Htr) as Htr'.
    assert (Hi : (i < length ib)%nat).
    { rewrite <- Hlen. eapply lookup_lt_Some; eauto. }
    destruct (IH _ (alter (fun b => b ++ [p]) i ib) Htr') as (st' & ib' & Hrun & Htr'' & Hl & Hperm).
    { intros E. apply (f_equal length) in E. rewrite length_alter in E.
      destruct ib; [congruence | discriminate]. }
    exists st', ib'. simpl. rewrite Hone. repeat split; try apply Htr''; auto.
    + rewrite Hl. apply length_alter.
    + rewrite Hperm, (concat_alter_snoc ib i p Hi).
      simpl. apply Permutation_middle.
Qed.

(** ** The load bound of greedy assignment *)

(** While the chosen bucket is a least loaded one, no bucket exceeds the
    largest weight plus the average load. *)
Lemma assign_all_bound (M : Z) (l : list pdf_info) :
  forall (st st' : state),
    Forall (fun p => 0 <= file_size p <= M) l ->
    assign_all st l = Ret st' ->
    Forall (fun s => Z.of_nat (length (bucket_sizes st)) * s
                     <= Z.of_nat (length (bucket_sizes st)) * M + zsum (bucket_sizes st))
           (bucket_sizes st) ->
    length (bucket_sizes st') = length (bucket_sizes st) ∧
    zsum (bucket_sizes st') = zsum (bucket_sizes st) + total_weight l ∧
    Forall (fun s => Z.of_nat (length (bucket_sizes st)) * s
                     <= Z.of_nat (length (bucket_sizes st)) * M + zsum (bucket_sizes st'))
           (bucket_sizes st').
Proof.
  induction l as [|p l IH]; intros st st' Hw Hrun Hinv.
  - simpl in Hrun. injection Hrun as <-. unfold total_weight. simpl.
    rewrite Z.add_0_r. auto.
  - apply Forall_cons in Hw as [Hp Hw]. simpl in Hrun.
    destruct (decide (bucket_sizes st = [])) as [E | Hne].
    { unfold assign_one in Hrun. rewrite E in Hrun. discriminate. }
    destruct (assign_one_returns st p Hne) as (i & m & Hlook & Hmin & Hone).
    rewrite Hone in Hrun.
    set (st1 := mkState (alter (fun b => b ++ [pdf_path p]) i (buckets st))
                        (alter (fun s => s + file_size p) i (bucket_sizes st))) in *.
    assert (Hlen1 : length (bucket_sizes st1) = length (bucket_sizes st))
      by apply length_alter.
    assert (Hsum1 : zsum (bucket_sizes st1) = zsum (bucket_sizes st) + file_size p)
      by (eapply zsum_alter_add; eauto).
    destruct (IH st1 st' Hw Hrun) as (Hlen & Hsum & Hall).
    { rewrite Hlen1, Hsum1. simpl. apply Forall_alter.
      - eapply Forall_impl; [exact Hinv |]. simpl. intros s Hs. lia.
      - intros x Hx _. rewrite Hlook in Hx. injection Hx as <-.
        pose proof (min_times_length_le_sum _ _ Hmin) as Havg.
        pose proof (Nat2Z.is_nonneg (length (bucket_sizes st))). nia. }
    rewrite Hlen1 in Hlen, Hall. rewrite Hsum1 in Hsum.
    repeat split; auto.
    rewrite Hsum. change (total_weight (p :: l)) with (file_size p + total_weight l). lia.
Qed.

Lemma count_zero_elem (l : list Z) : (0 < count_zero l)%nat -> 0 ∈ l.
Proof.
  induction l as [|x l IH]; simpl; [lia |].
  destruct (Z.eqb_spec x 0) as [-> | _]; intros H; [left | right; auto].
Qed.

Lemma count_zero_alter (f : Z -> Z) (i : nat) (l : list Z) :
  (count_zero l <= S (count_zero (alter f i l)))%nat.
Proof.
  revert i. induction l as [|x l IH]; intros i; [simpl; lia |].
  destruct i as [|i]; unfold alter; simpl.
  - destruct (x =? 0), (f x =? 0); lia.
  - specialize (IH i). unfold alter in IH. destruct (x =? 0); lia.
Qed.

Lemma count_zero_replicate (n : nat) : count_zero (replicate n 0) = n.
Proof. induction n as [|n IH]; simpl; [reflexivity | rewrite IH; reflexivity]. Qed.

(** With at least as many empty buckets as items left, every item opens a
    bucket of its own. *)
Lemma assign_all_single (M : Z) (l : list pdf_info) :
  forall (st st' : state),
    Forall (fun p => 0 <= file_size p <= M) l ->
    assign_all st l = Ret st' ->
    Forall (fun s => 0 <= s <= M) (bucket_sizes st) ->
    (length l <= count_zero (bucket_sizes st))%nat ->
    Forall (fun s => 0 <= s <= M) (bucket_sizes st').
Proof.
  induction l as [|p l IH]; intros st st' Hw Hrun Hinv Hz.
  - simpl in Hrun. injection Hrun as <-. exact Hinv.
  - apply Forall_cons in Hw as [Hp Hw]. simpl in Hrun, Hz.
    assert (H0 : 0 ∈ bucket_sizes st) by (apply count_zero_elem; lia).
    assert (Hne : bucket_sizes st <> []) by (intros E; rewrite E in H0; inversion H0).
    destruct (assign_one_returns st p Hne) as (i & m & Hlook & Hmin & Hone).
    rewrite Hone in Hrun.
    assert (Hm : m = 0).
    { rewrite Forall_forall in Hmin, Hinv. specialize (Hmin 0 H0).
      assert (m ∈ bucket_sizes st) as Hin by (apply list_elem_of_lookup; eauto).
      specialize (Hinv m Hin). lia. }
    subst m. apply (IH _ st' Hw Hrun); simpl.
    + apply Forall_alter; [exact Hinv |].
      intros x Hx _. rewrite Hlook in Hx. injection Hx as <-. lia.
    + pose proof (count_zero_alter (fun s => s + file_size p) i (bucket_sizes st)). lia.
Qed.

(** ** [merge_assign] as a whole *)

Lemma valid_weights_bounded (l : list pdf_info) :
  Forall (fun p => 0 <= file_size p <= max_weight (valid_pdfs l)) (valid_pdfs l).
Proof.
  pose proof (valid_pdfs_positive l) as Hpos.
  rewrite Forall_forall in Hpos |- *. intros p Hp. split.
  - specialize (Hpos p Hp). simpl in Hpos. lia.
  - apply zmax_upper. apply list_elem_of_fmap. eauto.
Qed.

Lemma max_weight_nonneg (l : list pdf_info) : 0 <= max_weight l.
Proof.
  unfold max_weight. induction l as [|p l IH]; [reflexivity |].
  rewrite fmap_cons. unfold zmax in *. simpl foldr. lia.
Qed.

Lemma total_weight_nonneg (l : list pdf_info) : 0 <= total_weight (valid_pdfs l).
Proof.
  pose proof (valid_pdfs_positive l) as Hpos.
  induction Hpos as [|p v Hp _ IH]; [reflexivity |].
  change (total_weight (p :: v)) with (file_size p + total_weight v). lia.
Qed.

Lemma concat_replicate_nil {A} (n : nat) : concat (replicate n (@nil A)) = [].
Proof. induction n as [|n IH]; simpl; auto. Qed.

Lemma tracks_init (n : Z) : tracks (replicate (Z.to_nat n) []) (init_state n).
Proof. split; simpl; rewrite fmap_replicate; reflexivity. Qed.

Lemma merge_assign_tracks (analysed : list pdf_info) (k : Z) :
  1 <= k -> valid_pdfs analysed <> [] ->
  exists st ib,
    merge_assign analysed k = Ret (Some st) ∧ tracks ib st ∧
    Z.of_nat (length ib) = Z.min k (Z.of_nat (length (valid_pdfs analysed))) ∧
    concat ib ≡ₚ valid_pdfs analysed.
Proof.
  intros Hk Hv. unfold merge_assign.
  set (valid := valid_pdfs analysed) in *.
  set (n := Z.min k (Z.of_nat (length valid))).
  assert (Hn : 1 <= n).
  { subst n. destruct valid; [congruence | simpl length; lia]. }
  destruct (assign_all_tracks (sort_reverse valid) (init_state n)
              (replicate (Z.to_nat n) []) (tracks_init n)) as (st & ib & Hrun & Htr & Hlen & Hperm).
  { intros E. apply (f_equal length) in E. rewrite length_replicate in E. simpl in E. lia. }
  exists st, ib. rewrite Hrun. destruct valid eqn:Ev; [congruence |].
  rewrite <- Ev in *. repeat split; try apply Htr.
  - rewrite Hlen, length_replicate. lia.
  - rewrite Hperm, sort_reverse_Permutation.
    rewrite concat_replicate_nil. reflexivity.
Qed.

Lemma merge_assign_loop (analysed : list pdf_info) (k : Z) (st : state) :
  merge_assign analysed k = Ret (Some st) ->
  assign_all (init_state (Z.min k (Z.of_nat (length (valid_pdfs analysed)))))
             (sort_reverse (valid_pdfs analysed)) = Ret st.
Proof.
  unfold merge_assign. destruct (valid_pdfs analysed) as [|p v]; [discriminate |].
  destruct (assign_all _ _) as [st0 | e]; [| discriminate].
  intros [= <-]. reflexivity.
Qed.

Lemma merge_assign_no_valid (analysed : list pdf_info) (k : Z) :
  valid_pdfs analysed = [] -> merge_assign analysed k = Ret None.
Proof. unfold merge_assign. intros ->. reflexivity. Qed.

Lemma concat_paths (ib : list (list pdf_info)) :
  concat (fmap (M:=list) pdf_path <$> ib) = pdf_path <$> concat ib.
Proof.
  induction ib as [|b ib IH]; [reflexivity |].
  rewrite fmap_cons. simpl concat. rewrite fmap_app, IH. reflexivity.
Qed.

Lemma zsum_weights (ib : list (list pdf_info)) :
  zsum (total_weight <$> ib) = total_weight (concat ib).
Proof.
  induction ib as [|b ib IH]; [reflexivity |].
  rewrite fmap_cons. simpl concat. unfold total_weight at 3.
  rewrite fmap_app, zsum_app. fold (total_weight b). fold (total_weight (concat ib)).
  rewrite <- IH. reflexivity.
Qed.

Lemma total_weight_Permutation (l1 l2 : list pdf_info) :
  l1 ≡ₚ l2 -> total_weight l1 = total_weight l2.
Proof. intros H. unfold total_weight. apply zsum_Permutation. rewrite H. reflexivity. Qed.

(** In a family of lists whose concatenation has no repetition, an element
    lies in one member only. *)
Lemma NoDup_concat_unique {A} (ls : list (list A)) (x : A) (i j : nat) (a b : list A) :
  NoDup (concat ls) -> ls !! i = Some a -> ls !! j = Some b -> x ∈ a -> x ∈ b -> i = j.
Proof.
  revert i j. induction ls as [|c ls IH]; intros i j Hnd Hi Hj Ha Hb; [discriminate |].
  simpl in Hnd. apply NoDup_app in Hnd as (_ & Hdisj & Hnd).
  assert (Hin : forall n d, ls !! n = Some d -> x ∈ d -> x ∈ concat ls).
  { clear. induction ls as [|c ls IH]; intros n d Hn Hd; [discriminate |].
    simpl. apply elem_of_app. destruct n as [|n]; simpl in Hn.
    - injection Hn as ->. auto.
    - right. eapply IH; eauto. }
  destruct i as [|i], j as [|j]; simpl in Hi, Hj.
  - reflexivity.
  - injection Hi as ->. exfalso. eapply Hdisj; eauto.
  - injection Hj as ->. exfalso. eapply Hdisj; eauto.
  - f_equal. eapply IH; eauto.
Qed.

Lemma elem_of_concat_lookup {A} (ls : list (list A)) (x : A) :
  x ∈ concat ls -> exists i b, ls !! i = Some b ∧ x ∈ b.
Proof.
  induction ls as [|c ls IH]; simpl; intros H; [inversion H |].
  apply elem_of_app in H as [H | H].
  - exists 0%nat, c. auto.
  - destruct (IH H) as (i & b & Hi & Hb). exists (S i), b. auto.
Qed.

(** C1.  For every sequence of probe results and every requested count of at
    least one, the bucket assignment of [merge_pdfs] returns (or, with no
    valid item, stops with [None]); the buckets hold every valid item
    (size > 0) exactly once: the paths in the buckets are a rearrangement of
    the valid paths, each bucket weight is the sum of the sizes of the items
    put in it, the bucket weights add up to the total valid weight, and with
    distinct paths every valid path lies in exactly one bucket. *)
Theorem merge_buckets_partition_valid_items (analysed : list pdf_info) (k : Z) :
  1 <= k ->
  (valid_pdfs analysed = [] ∧ merge_assign analysed k = Ret None) ∨
  (exists (st : state) (ib : list (list pdf_info)),
      merge_assign analysed k = Ret (Some st) ∧
      buckets st = (fmap (M:=list) pdf_path <$> ib) ∧
      bucket_sizes st = (total_weight <$> ib) ∧
      concat ib ≡ₚ valid_pdfs analysed ∧
      concat (buckets st) ≡ₚ (pdf_path <$> valid_pdfs analysed) ∧
      zsum (bucket_sizes st) = total_weight (valid_pdfs analysed) ∧
      (NoDup (pdf_path <$> valid_pdfs analysed) ->
       NoDup (concat (buckets st)) ∧
       forall p, p ∈ valid_pdfs analysed ->
         exists i b, buckets st !! i = Some b ∧ pdf_path p ∈ b ∧
           forall j b', buckets st !! j = Some b' -> pdf_path p ∈ b' -> j = i)).
Proof.
  intros Hk. destruct (decide (valid_pdfs analysed = [])) as [Hv | Hv].
  - left. split; [exact Hv | apply merge_assign_no_valid, Hv].
  - right. destruct (merge_assign_tracks analysed k Hk Hv) as (st & ib & Hrun & [Hb Hs] & _ & Hperm).
    assert (Hpaths : concat (buckets st) ≡ₚ (pdf_path <$> valid_pdfs analysed)).
    { rewrite Hb, concat_paths, Hperm. reflexivity. }
    exists st, ib. repeat split; auto.
    + rewrite Hs, zsum_weights. apply total_weight_Permutation, Hperm.
    + rewrite Hpaths. assumption.
    + rename H into Hnd. intros p Hp.
      assert (Hin : pdf_path p ∈ concat (buckets st)).
      { rewrite Hpaths. apply list_elem_of_fmap. eauto. }
      destruct (elem_of_concat_lookup _ _ Hin) as (i & b & Hi & Hpb).
      exists i, b. repeat split; auto.
      intros j b' Hj Hpb'. eapply NoDup_concat_unique; eauto.
      rewrite Hpaths. exact Hnd.
Qed.

Lemma merge_buckets_partition_valid_items_witness :
  1 <= 3 ∧
  exists st, merge_assign scenario_docs 3 = Ret (Some st) ∧
             concat (buckets st) ≡ₚ (pdf_path <$> valid_pdfs scenario_docs) ∧
             zsum (bucket_sizes st) = 150.
Proof.
  split; [lia |].
  destruct (merge_buckets_partition_valid_items scenario_docs 3 ltac:(lia))
    as [[Hv _] | (st & ib & Hrun & _ & _ & _ & Hperm & Hsum & _)].
  - vm_compute in Hv. discriminate.
  - exists st. split; [exact Hrun |]. split; [exact Hperm |].
    rewrite Hsum. reflexivity.
Defined.

(** A requested count below one makes [min] fail on the empty list of
    bucket sizes as soon as there is a valid item. *)
Lemma merge_assign_nonpositive_count (analysed : list pdf_info) (k : Z) :
  k <= 0 -> valid_pdfs analysed <> [] -> merge_assign analysed k = Raise ValueError.
Proof.
  intros Hk Hv. unfold merge_assign.
  pose proof (sort_reverse_Permutation (valid_pdfs analysed)) as Hperm.
  destruct (valid_pdfs analysed) as [|p v] eqn:E; [congruence |].
  assert (Z.to_nat (Z.min k (Z.of_nat (length (p :: v)))) = 0%nat) as Hn by lia.
  destruct (sort_reverse (p :: v)) as [|q l] eqn:Es.
  - apply Permutation_length in Hperm. discriminate.
  - unfold init_state. rewrite Hn. reflexivity.
Qed.

(** C3.  For every sequence of probe results and every requested count
    [k >= 1], the assignment returns and no bucket weight exceeds the largest
    valid size plus the average bucket weight (total valid weight divided by
    [k]).  The bound is given exactly ([k * s <= k * max + total]), with the
    quotient rounded down, and for the number of buckets really created. *)
Theorem greedy_bucket_weight_bound (analysed : list pdf_info) (k : Z) :
  1 <= k ->
  (valid_pdfs analysed = [] ∧ merge_assign analysed k = Ret None) ∨
  (exists st : state,
      merge_assign analysed k = Ret (Some st) ∧
      Forall (fun s =>
                k * s <= k * max_weight (valid_pdfs analysed)
                         + total_weight (valid_pdfs analysed) ∧
                s <= max_weight (valid_pdfs analysed)
                     + total_weight (valid_pdfs analysed) / k ∧
                Z.of_nat (length (bucket_sizes st)) * s
                <= Z.of_nat (length (bucket_sizes st)) * max_weight (valid_pdfs analysed)
                   + total_weight (valid_pdfs analysed))
             (bucket_sizes st)).
Proof.
  intros Hk. destruct (decide (valid_pdfs analysed = [])) as [Hv | Hv].
  { left. split; [exact Hv | apply merge_assign_no_valid, Hv]. }
  right. destruct (merge_assign_tracks analysed k Hk Hv) as (st & ib & Hrun & _ & _ & _).
  exists st. split; [exact Hrun |].
  apply merge_assign_loop in Hrun.
  set (valid := valid_pdfs analysed) in *.
  set (M := max_weight valid). set (T := total_weight valid).
  set (n := Z.min k (Z.of_nat (length valid))) in *.
  assert (HM : 0 <= M) by apply max_weight_nonneg.
  assert (HT : 0 <= T) by apply total_weight_nonneg.
  assert (Hw : Forall (fun p => 0 <= file_size p <= M) (sort_reverse valid)).
  { rewrite sort_reverse_Permutation. apply valid_weights_bounded. }
  assert (Hlen0 : length (bucket_sizes (init_state n)) = Z.to_nat n)
    by apply length_replicate.
  assert (Hsum0 : zsum (bucket_sizes (init_state n)) = 0).
  { simpl. generalize (Z.to_nat n). intros c. induction c; simpl; auto. }
  destruct (assign_all_bound M _ _ _ Hw Hrun) as (Hlen & Hsum & Hall).
  { rewrite Hsum0. simpl. apply Forall_forall. intros s Hs.
    apply elem_of_replicate_inv in Hs. subst s. nia. }
  rewrite Hlen0 in Hlen, Hall. rewrite Hsum0 in Hsum. rewrite Hsum in Hall.
  rewrite (total_weight_Permutation _ _ (sort_reverse_Permutation valid)) in Hall.
  fold T in Hall. simpl in Hall.
  assert (Hk' : Forall (fun s => k * s <= k * M + T) (bucket_sizes st)).
  { destruct (Z.le_gt_cases k (Z.of_nat (length valid))) as [Hle | Hgt].
    - replace (Z.of_nat (Z.to_nat n)) with k in Hall by lia. exact Hall.
    - assert (Hone : Forall (fun s => 0 <= s <= M) (bucket_sizes st)).
      { apply (assign_all_single M _ _ _ Hw Hrun).
        - simpl. apply Forall_forall. intros s Hs.
          apply elem_of_replicate_inv in Hs. lia.
        - simpl. rewrite count_zero_replicate.
          rewrite (Permutation_length (sort_reverse_Permutation valid)). lia. }
      eapply Forall_impl; [exact Hone |]. simpl. intros s Hs. nia. }
  rewrite Forall_forall in Hk', Hall |- *. intros s Hs.
  specialize (Hk' s Hs). specialize (Hall s Hs). repeat split.
  - exact Hk'.
  - assert (s - M <= T / k); [| lia].
    apply Z.div_le_lower_bound; lia.
  - rewrite Hlen. exact Hall.
Qed.

Lemma greedy_bucket_weight_bound_witness :
  1 <= 3 ∧
  exists st, merge_assign scenario_docs 3 = Ret (Some st) ∧
             Forall (fun s => s <= 50 + 150 / 3) (bucket_sizes st).
Proof.
  split; [lia |].
  destruct (greedy_bucket_weight_bound scenario_docs 3 ltac:(lia))
    as [[Hv _] | (st & Hrun & Hall)].
  - vm_compute in Hv. discriminate.
  - exists st. split; [exact Hrun |].
    eapply Forall_impl; [exact Hall |]. simpl. intros s (_ & Hs & _).
    exact Hs.
Defined.

(** C2, as amended.  Five valid items with weights 50, 40, 30, 20 and 10,
    arriving in any order, with three buckets requested: the items are
    taken largest first, 50, 40 and 30 open the three buckets, 20 joins the
    bucket holding 30 (the only lightest one) and 10 joins the bucket
    holding 40; the final bucket weights are [50, 50, 50]. *)
Theorem scenario_greedy_weights (analysed : list pdf_info)
    (n1 n2 n3 n4 n5 : Z) (p1 p2 p3 p4 p5 : string) :
  analysed ≡ₚ [(50, n1, p1); (40, n2, p2); (30, n3, p3); (20, n4, p4); (10, n5, p5)] ->
  merge_assign analysed 3
  = Ret (Some {| buckets := [[p1]; [p2; p5]; [p3; p4]];
                 bucket_sizes := [50; 50; 50] |}).
Proof.
  intros Hp. rewrite (merge_assign_Permutation _ _ 3 Hp). reflexivity.
Qed.

Lemma scenario_greedy_weights_witness :
  merge_assign [(30, 3, "c.pdf"); (50, 5, "a.pdf"); (10, 1, "e.pdf");
                (40, 4, "b.pdf"); (20, 2, "d.pdf")] 3
  = Ret (Some {| buckets := [["a.pdf"]; ["b.pdf"; "e.pdf"]; ["c.pdf"; "d.pdf"]];
                 bucket_sizes := [50; 50; 50] |}).
Proof.
  apply (scenario_greedy_weights _ 5 4 3 2 1 "a.pdf" "b.pdf" "c.pdf" "d.pdf" "e.pdf").
  apply (Permutation_cons_app [(50, 5, "a.pdf"); (40, 4, "b.pdf")]
           [(20, 2, "d.pdf"); (10, 1, "e.pdf")] (30, 3, "c.pdf")).
  apply perm_skip.
  apply (Permutation_cons_app [(40, 4, "b.pdf"); (20, 2, "d.pdf")] [] (10, 1, "e.pdf")).
  reflexivity.
Defined.

(** C2, as stated, fails: on the five documents with three buckets the
    final weights are [50, 50, 50], not [50, 60, 40]. *)
Lemma scenario_greedy_weights_counterexample :
  exists st, merge_assign five_docs 3 = Ret (Some st) ∧
             bucket_sizes st = [50; 50; 50] ∧
             bucket_sizes st <> [50; 60; 40].
Proof.
  eexists. split; [reflexivity |]. split; [reflexivity | discriminate].
Qed.

End MergeFacts.

(* ===================================================================== *)
(** * Properties of the download stage                                     *)
(* ===================================================================== *)

Module DownloadFacts.
Import FS Pool Download Samples.

(** ** The derived file name *)

Lemma has_char_app (c : ascii) (a b : string) :
  has_char c (a ++ b)%string = has_char c a || has_char c b.
Proof.
  induction a as [|x a IH]; simpl; [reflexivity |].
  rewrite IH. apply orb_assoc.
Qed.

Lemma safe_char_not_slash (c : ascii) :
  Ascii.eqb (if is_safe_char c then c else "_"%char) "/" = false.
Proof.
  destruct c as [[] [] [] [] [] [] [] []]; vm_compute; reflexivity.
Qed.

Lemma re_sub_clean_no_slash (s : string) : has_char "/" (re_sub_clean s) = false.
Proof.
  induction s as [|c s IH]; simpl; [reflexivity |].
  rewrite safe_char_not_slash, IH. reflexivity.
Qed.

(** The cleaning is applied to the joined path, so the separator that
    [os.path.join] put between directory and name is replaced too: the
    resulting path never has a directory part. *)
Lemma local_filename_no_slash (pdf_url download_dir : string) :
  has_char "/" (local_filename pdf_url download_dir) = false.
Proof.
  unfold local_filename.
  destruct (negb _); [rewrite has_char_app |]; rewrite re_sub_clean_no_slash; reflexivity.
Qed.

Lemma re_sub_clean_app (a b : string) :
  re_sub_clean (a ++ b) = (re_sub_clean a ++ re_sub_clean b)%string.
Proof. induction a as [|c a IH]; simpl; [reflexivity | rewrite IH; reflexivity]. Qed.

(** With an empty directory the written name is the one the claim describes. *)
Lemma local_filename_empty_dir (pdf_url : string) :
  local_filename pdf_url "" = sanitised_name pdf_url.
Proof.
  unfold local_filename, sanitised_name, os_path_join.
  destruct (py_startswith _ "/"); reflexivity.
Qed.

(** C4 (the code departs from the claim).  For the URL
    [http://example.com/docs/report.pdf] and the destination directory
    [PDF_Downloads_docs], the claim asks for the bytes to be written to
    [report.pdf] inside the directory, [PDF_Downloads_docs/report.pdf];
    [download_pdf] cleans the joined path, separator included, and writes
    [PDF_Downloads_docs_report.pdf] next to the directory, which stays
    empty. *)
Theorem download_pdf_writes_beside_directory :
  sanitised_name sample_url = "report.pdf" ∧
  intended_filename sample_url "PDF_Downloads_docs" = "PDF_Downloads_docs/report.pdf" ∧
  local_filename sample_url "PDF_Downloads_docs" = "PDF_Downloads_docs_report.pdf" ∧
  (download_pdf (fun _ => Fetched "%PDF-1.4") sample_url "PDF_Downloads_docs" 3 ∅).1
    = Ret (Some (true, Some "PDF_Downloads_docs_report.pdf")) ∧
  (download_pdf (fun _ => Fetched "%PDF-1.4") sample_url "PDF_Downloads_docs" 3 ∅).2
    !! "PDF_Downloads_docs_report.pdf" = Some "%PDF-1.4" ∧
  (download_pdf (fun _ => Fetched "%PDF-1.4") sample_url "PDF_Downloads_docs" 3 ∅).2
    !! "PDF_Downloads_docs/report.pdf" = None.
Proof. repeat split; vm_compute; reflexivity. Qed.

(** ** The retry loop *)

Section Batch.
Context {content : Type}.
Variable makedirs : string -> option exn.
Implicit Types (tries : nat -> attempt content) (σ : fs content).

(** With three passes allowed, [download_pdf] always returns a pair, whose
    flag tells whether the unit succeeded. *)
Lemma download_pdf_result tries (pdf_url download_dir : string) σ :
  (download_pdf tries pdf_url download_dir 3 σ).1 =
  Ret (Some (if unit_succeeds tries
             then (true, Some (local_filename pdf_url download_dir))
             else (false, None))).
Proof.
  unfold download_pdf, unit_succeeds. simpl Z.to_nat.
  change (Pos.to_nat 3) with 3%nat. simpl download_loop.
  unfold bind, write_file, write_partial, ret.
  destruct (tries 0%nat) as [b0 | [p0|] | [p0|]]; simpl; try reflexivity;
    destruct (tries 1%nat) as [b1 | [p1|] | [p1|]]; simpl; try reflexivity;
      destruct (tries 2%nat) as [b2 | [p2|] | [p2|]]; simpl; reflexivity.
Qed.

(** A unit fails exactly when its retries are exhausted by request errors
    or a pass raises another exception before any pass succeeds. *)
Lemma unit_fails_iff tries :
  unit_succeeds tries = false <->
  (exists j, (j < 3)%nat ∧ (exists p, tries j = OtherFailed p) ∧
             forall i, (i < j)%nat -> exists p, tries i = RequestFailed p) ∨
  (forall i, (i < 3)%nat -> exists p, tries i = RequestFailed p).
Proof.
  unfold unit_succeeds. split.
  - destruct (tries 0%nat) as [b0 | p0 | p0] eqn:E0; [discriminate | |].
    + destruct (tries 1%nat) as [b1 | p1 | p1] eqn:E1; [discriminate | |].
      * destruct (tries 2%nat) as [b2 | p2 | p2] eqn:E2; [discriminate | |]; intros _.
        -- right. intros [|[|[|i]]] Hi; eauto; lia.
        -- left. exists 2%nat. repeat split; eauto.
           intros [|[|i]] Hi; eauto; lia.
      * intros _. left. exists 1%nat. repeat split; eauto.
        intros [|i] Hi; eauto; lia.
    + intros _. left. exists 0%nat. repeat split; eauto. intros i Hi; lia.
  - intros [(j & Hj & [p Hp] & Hbefore) | Hall].
    + destruct j as [|[|[|j]]]; try lia.
      * rewrite Hp. reflexivity.
      * destruct (Hbefore 0%nat ltac:(lia)) as [p0 ->]. rewrite Hp. reflexivity.
      * destruct (Hbefore 0%nat ltac:(lia)) as [p0 ->].
        destruct (Hbefore 1%nat ltac:(lia)) as [p1 ->]. rewrite Hp. reflexivity.
    + destruct (Hall 0%nat ltac:(lia)) as [p0 ->].
      destruct (Hall 1%nat ltac:(lia)) as [p1 ->].
      destruct (Hall 2%nat ltac:(lia)) as [p2 ->]. reflexivity.
Qed.

Lemma count_true_Permutation {A} (f : A -> bool) (l1 l2 : list A) :
  l1 ≡ₚ l2 -> count_true f l1 = count_true f l2.
Proof. induction 1; simpl; lia. Qed.

Lemma count_true_split {A} (f : A -> bool) (l : list A) :
  count_true f l + count_true (fun x => negb (f x)) l = Z.of_nat (length l).
Proof.
  induction l as [|x l IH]; [reflexivity |].
  simpl count_true. simpl length. rewrite Nat2Z.inj_succ. destruct (f x); simpl; lia.
Qed.

Lemma count_true_nonneg {A} (f : A -> bool) (l : list A) : 0 <= count_true f l.
Proof. induction l as [|x l IH]; simpl; [lia | destruct (f x); lia]. Qed.

(** The counting loop adds one to exactly one counter per completed unit. *)
Lemma run_batch_counts (net : string -> nat -> attempt content) (download_dir : string)
    (completed : list string) :
  forall (successful failed : Z) σ,
    (run_batch net download_dir completed (successful, failed) σ).1 =
    (successful + count_true (fun u => unit_succeeds (net u)) completed,
     failed + count_true (fun u => negb (unit_succeeds (net u))) completed).
Proof.
  induction completed as [|url rest IH]; intros successful failed σ.
  - simpl. f_equal; lia.
  - simpl run_batch.
    pose proof (download_pdf_result (net url) url download_dir σ) as Hr.
    destruct (download_pdf (net url) url download_dir 3 σ) as [r σ'].
    simpl in Hr. subst r. simpl count_true.
    destruct (unit_succeeds (net url)); simpl; rewrite IH; f_equal; lia.
Qed.

(** ** The batch and its pool *)

(** A pool can be created for every size but those of zero or less. *)
Lemma executor_returns (max_workers : option Z) :
  (forall w, max_workers = Some w -> 1 <= w) -> executor max_workers = Ret tt.
Proof.
  intros Hw. unfold executor. destruct max_workers as [w |]; [| reflexivity].
  specialize (Hw w eq_refl). destruct (Z.leb_spec w 0); [lia | reflexivity].
Qed.

Lemma executor_raises (w : Z) : w <= 0 -> executor (Some w) = Raise ValueError.
Proof.
  intros Hw. unfold executor. destruct (Z.leb_spec w 0); [reflexivity | lia].
Qed.

(** With a directory that can be created and a pool that can be created,
    the batch runs as soon as the page holds a link. *)
Lemma download_runs_batch (u : string) (us completed : list string)
    (net : string -> nat -> attempt content) (download_dir : string)
    (max_workers : option Z) σ :
  makedirs download_dir = None ->
  (forall w, max_workers = Some w -> 1 <= w) ->
  download_pdfs_from_url makedirs (Some (u :: us)) completed net download_dir max_workers σ
  = (Ret (Some download_dir, Some (run_batch net download_dir completed (0, 0) σ).1),
     (run_batch net download_dir completed (0, 0) σ).2).
Proof.
  intros Hdir Hw. unfold download_pdfs_from_url.
  rewrite Hdir, (executor_returns _ Hw).
  destruct (run_batch net download_dir completed (0, 0) σ). reflexivity.
Qed.

(** A pool size of zero or less: the ValueError of the pool is caught and
    [None] is returned; no unit has run. *)
Lemma download_without_pool (page : option (list string)) (completed : list string)
    (net : string -> nat -> attempt content) (download_dir : string) (w : Z) σ :
  makedirs download_dir = None -> w <= 0 ->
  download_pdfs_from_url makedirs page completed net download_dir (Some w) σ
  = (Ret (None, None), σ).
Proof.
  intros Hdir Hw. unfold download_pdfs_from_url. rewrite Hdir, (executor_raises _ Hw).
  destruct page as [[|u us] |]; reflexivity.
Qed.

(** The exception of [os.makedirs] leaves the function. *)
Lemma download_makedirs_raises (page : option (list string)) (completed : list string)
    (net : string -> nat -> attempt content) (download_dir : string)
    (max_workers : option Z) (e : exn) σ :
  makedirs download_dir = Some e ->
  download_pdfs_from_url makedirs page completed net download_dir max_workers σ
  = (Raise e, σ).
Proof. intros Hdir. unfold download_pdfs_from_url. rewrite Hdir. reflexivity. Qed.

(** C5.  For every batch of [N] fetch units (the non-empty list of URLs
    found on the page, distinct or not) running in a pool of at least one
    worker (or of the default size) and completing in any order, in a
    download directory that could be created: the batch returns the
    download directory without raising, the success counter is the number
    of units that succeed, the failure counter the number [k] of units that
    fail permanently, so the success counter is [N - k] and the two counters
    add up to [N]: every unit is counted exactly once. *)
Theorem fetch_batch_counts (pdf_urls completed : list string)
    (net : string -> nat -> attempt content) (download_dir : string)
    (max_workers : option Z) σ :
  pdf_urls <> [] -> completed ≡ₚ pdf_urls ->
  makedirs download_dir = None ->
  (forall w, max_workers = Some w -> 1 <= w) ->
  let N := Z.of_nat (length pdf_urls) in
  let k := count_true (fun u => negb (unit_succeeds (net u))) pdf_urls in
  (download_pdfs_from_url makedirs (Some pdf_urls) completed net download_dir
     max_workers σ).1
  = Ret (Some download_dir, Some (N - k, k)) ∧
  N - k = count_true (fun u => unit_succeeds (net u)) pdf_urls ∧
  0 <= k <= N.
Proof.
  intros Hne Hperm Hdir Hw N k.
  assert (Hsplit := count_true_split (fun u => unit_succeeds (net u)) pdf_urls).
  assert (Hk := count_true_nonneg (fun u => negb (unit_succeeds (net u))) pdf_urls).
  assert (Hs := count_true_nonneg (fun u => unit_succeeds (net u)) pdf_urls).
  cbv beta in Hsplit. fold N in Hsplit. fold k in Hsplit, Hk.
  repeat split; try lia.
  destruct pdf_urls as [|u us]; [congruence |].
  rewrite (download_runs_batch _ _ _ _ _ _ _ Hdir Hw). cbn [fst].
  rewrite (run_batch_counts net download_dir completed 0 0 σ).
  rewrite !(count_true_Permutation _ _ _ Hperm). fold k.
  repeat f_equal. lia.
Qed.
End Batch.

Lemma fetch_batch_counts_witness :
  (download_pdfs_from_url no_error (Some sample_urls)
     ["http://h/c.pdf"; "http://h/a.pdf"; "http://h/d.pdf"; "http://h/b.pdf"]
     sample_net "dl" (Some 10) ∅).1 = Ret (Some "dl", Some (2, 2)).
Proof.
  refine (proj1 (fetch_batch_counts no_error sample_urls _ sample_net "dl" (Some 10) ∅
                   _ _ _ _)).
  - discriminate.
  - unfold sample_urls.
    apply (Permutation_cons_app  ["http://h/a.pdf"; "http://h/b.pdf"] ["http://h/d.pdf"]).
    apply perm_skip. apply Permutation_swap.
  - reflexivity.
  - intros w [= <-]. lia.
Defined.

End DownloadFacts.

(* ===================================================================== *)
(** * Properties of the compression stage                                  *)
(* ===================================================================== *)

Module CompressFacts.
Import FS Compress Samples.

(** Unfolding of the file operations and of the sequencing. *)
Ltac run_step :=
  unfold try_except, bind, ret, raise, subprocess_run, getsize, copy, remove,
    rename, exists_, reduction_check, is_called_process_error.

Ltac run := repeat (progress (run_step; cbv beta iota zeta)).

Lemma gs_setting_unknown (quality : string) :
  quality ∉ ["screen"; "ebook"; "printer"; "prepress"] ->
  Compress.gs_setting quality = "/ebook".
Proof.
  intros Hq. unfold gs_setting, quality_settings.
  rewrite !lookup_insert_ne, lookup_empty; [reflexivity | ..];
    intros <-; apply Hq; repeat constructor.
Qed.

Section Filter.
Context {content : Type}.
Variable nbytes : content -> Z.
Variable gs : list string -> option content -> gs_exit content.
Variable copy_error : string -> option exn.
Implicit Types (σ : fs content) (c out : content).

(** ** [compress_pdf] *)

Lemma compress_pdf_done (input_file output_file quality : string) σ c out :
  σ !! input_file = Some c -> input_file <> output_file -> nbytes c <> 0 ->
  gs (compress_cmd (gs_setting quality) output_file input_file) (Some c) = GsDone out ->
  compress_pdf nbytes gs copy_error input_file output_file quality σ
  = (Ret (true, nbytes c, nbytes out), <[output_file := out]> σ).
Proof.
  intros Hin Hne Hsize Hgs. unfold compress_pdf. run_step.
  rewrite Hin, Hgs. rewrite lookup_insert_ne, Hin by congruence.
  rewrite lookup_insert_eq.
  destruct (Z.eqb_spec (nbytes c) 0); [contradiction | reflexivity].
Qed.

(** On a non-zero exit status the input is copied to the output path, when
    a file can be created there. *)
Lemma compress_pdf_failed (input_file output_file quality : string) σ c partial :
  σ !! input_file = Some c -> input_file <> output_file ->
  gs (compress_cmd (gs_setting quality) output_file input_file) (Some c)
    = GsFailed partial ->
  copy_error output_file = None ->
  compress_pdf nbytes gs copy_error input_file output_file quality σ
  = (Ret (false, nbytes c, nbytes c), <[output_file := c]> σ).
Proof.
  intros Hin Hne Hgs Hcopy. unfold compress_pdf. run_step.
  rewrite Hin, Hgs. destruct partial as [part |].
  - rewrite lookup_insert_ne, Hin by congruence.
    destruct (decide (input_file = output_file)); [contradiction |].
    rewrite Hcopy. rewrite !lookup_insert_ne, Hin by congruence.
    rewrite insert_insert_eq. reflexivity.
  - rewrite Hin. destruct (decide (input_file = output_file)); [contradiction |].
    rewrite Hcopy. rewrite lookup_insert_ne, Hin by congruence. reflexivity.
Qed.

(** When the copy cannot create the output either, its exception leaves
    [compress_pdf]: it is raised inside the handler. *)
Lemma compress_pdf_copy_failed (input_file output_file quality : string) σ c partial e :
  σ !! input_file = Some c -> input_file <> output_file ->
  gs (compress_cmd (gs_setting quality) output_file input_file) (Some c)
    = GsFailed partial ->
  copy_error output_file = Some e ->
  compress_pdf nbytes gs copy_error input_file output_file quality σ
  = (Raise e, match partial with
              | Some part => <[output_file := part]> σ
              | None => σ
              end).
Proof.
  intros Hin Hne Hgs Hcopy. unfold compress_pdf. run_step.
  rewrite Hin, Hgs. destruct partial as [part |].
  - rewrite lookup_insert_ne, Hin by congruence.
    destruct (decide (input_file = output_file)); [contradiction |].
    rewrite Hcopy. reflexivity.
  - rewrite Hin. destruct (decide (input_file = output_file)); [contradiction |].
    rewrite Hcopy. reflexivity.
Qed.

(** The only run of the filter is the one with the argument vector of the
    profile: two filters that agree on it give the same call. *)
Lemma compress_pdf_filter_ext (gs' : list string -> option content -> gs_exit content)
    (input_file output_file quality : string) σ :
  (forall i, gs' (compress_cmd (gs_setting quality) output_file input_file) i
             = gs (compress_cmd (gs_setting quality) output_file input_file) i) ->
  compress_pdf nbytes gs' copy_error input_file output_file quality σ
  = compress_pdf nbytes gs copy_error input_file output_file quality σ.
Proof.
  intros Hagree. unfold compress_pdf, try_except, bind, subprocess_run.
  rewrite Hagree. reflexivity.
Qed.

(** ** [super_compress_pdf] *)

(** A failing first pass returns the original size and writes nothing to
    the output path beyond what the filter left there. *)
Lemma super_compress_first_pass_failed (input_file output_file : string) σ c :
  σ !! input_file = Some c ->
  gs (super_cmd output_file input_file) (Some c) = GsFailed None ->
  super_compress_pdf nbytes gs input_file output_file σ = (Ret (false, nbytes c), σ).
Proof.
  intros Hin Hgs. unfold super_compress_pdf. run_step.
  rewrite Hin. cbv beta iota. rewrite Hin, Hgs. reflexivity.
Qed.

(** A first result that is not over 100 MB is kept as it is. *)
Lemma super_compress_one_pass (input_file output_file : string) σ c out :
  σ !! input_file = Some c -> nbytes c <> 0 ->
  gs (super_cmd output_file input_file) (Some c) = GsDone out ->
  over_100mb (nbytes out) = false ->
  super_compress_pdf nbytes gs input_file output_file σ
  = (Ret (under_100mb (nbytes out), nbytes out), <[output_file := out]> σ).
Proof.
  intros Hin Hsize Hgs Hover. unfold super_compress_pdf. run_step.
  rewrite Hin. cbv beta iota. rewrite Hin, Hgs, lookup_insert_eq.
  destruct (Z.eqb_spec (nbytes c) 0); [contradiction |].
  rewrite Hover. reflexivity.
Qed.

(** The two-pass policy, for an output path that [replace] really changes:
    the smaller result is committed under the output path and the other
    one is gone; on equal sizes the first result stays; when the second
    pass fails the first result stays although it is over 100 MB. *)
Lemma second_pass_done (input_file output_file : string) σ1 (compressed_size : Z) second :
  gs (super_cmd2 (more_aggressive_output output_file) input_file) (σ1 !! input_file)
    = GsDone second ->
  more_aggressive_output output_file <> output_file ->
  is_Some (σ1 !! output_file) ->
  second_pass nbytes gs input_file output_file compressed_size σ1
  = if nbytes second <? compressed_size
    then (Ret (nbytes second),
          <[output_file := second]>
            (delete (more_aggressive_output output_file)
               (delete output_file (<[more_aggressive_output output_file := second]> σ1))))
    else (Ret compressed_size,
          delete (more_aggressive_output output_file)
            (<[more_aggressive_output output_file := second]> σ1)).
Proof.
  intros Hgs Hmore [first Hout]. unfold second_pass. run.
  rewrite Hgs. run. rewrite lookup_insert_eq. run.
  destruct (nbytes second <? compressed_size); run.
  - rewrite lookup_insert_ne, Hout by congruence. run.
    rewrite lookup_delete_ne, lookup_insert_eq by congruence. reflexivity.
  - rewrite lookup_insert_eq.
    rewrite bool_decide_eq_true_2 by eauto. run.
    rewrite lookup_insert_eq. reflexivity.
Qed.

Lemma second_pass_failed (input_file output_file : string) σ1 (compressed_size : Z) partial :
  gs (super_cmd2 (more_aggressive_output output_file) input_file) (σ1 !! input_file)
    = GsFailed partial ->
  second_pass nbytes gs input_file output_file compressed_size σ1
  = (Raise CalledProcessError,
     match partial with
     | Some part => <[more_aggressive_output output_file := part]> σ1
     | None => σ1
     end).
Proof.
  intros Hgs. unfold second_pass. run. rewrite Hgs. destruct partial; reflexivity.
Qed.

(** The part of [super_compress_pdf] that follows a first pass whose
    result is over 100 MB. *)
Lemma super_compress_escalates (input_file output_file : string) σ c first :
  σ !! input_file = Some c -> nbytes c <> 0 ->
  gs (super_cmd output_file input_file) (Some c) = GsDone first ->
  over_100mb (nbytes first) = true ->
  super_compress_pdf nbytes gs input_file output_file σ
  = match second_pass nbytes gs input_file output_file (nbytes first)
            (<[output_file := first]> σ) with
    | (Ret size, σ') => (Ret (under_100mb size, size), σ')
    | (Raise CalledProcessError, σ') => (Ret (false, nbytes c), σ')
    | (Raise e, σ') => (Raise e, σ')
    end.
Proof.
  intros Hin Hsize Hgs Hover. unfold super_compress_pdf. run.
  rewrite Hin. run. rewrite Hin, Hgs. run. rewrite lookup_insert_eq. run.
  destruct (Z.eqb_spec (nbytes c) 0); [contradiction |]. run.
  rewrite Hover.
  destruct (second_pass nbytes gs input_file output_file (nbytes first)
              (<[output_file := first]> σ)) as [[size | e] σ']; [reflexivity |].
  destruct e; reflexivity.
Qed.

(** The two-pass policy, for an output path that [replace] really changes:
    the smaller result is committed under the output path and the other
    one is gone; on equal sizes the first result stays; when the second
    pass fails the first result stays although it is over 100 MB. *)
Lemma super_compress_two_pass (input_file output_file : string) σ c first :
  σ !! input_file = Some c -> nbytes c <> 0 ->
  gs (super_cmd output_file input_file) (Some c) = GsDone first ->
  over_100mb (nbytes first) = true ->
  more_aggressive_output output_file <> output_file ->
  match gs (super_cmd2 (more_aggressive_output output_file) input_file)
           (<[output_file := first]> σ !! input_file) with
  | GsDone second =>
      exists σ',
        super_compress_pdf nbytes gs input_file output_file σ
        = (Ret (if nbytes second <? nbytes first
                then (under_100mb (nbytes second), nbytes second)
                else (false, nbytes first)), σ') ∧
        σ' !! output_file
        = Some (if nbytes second <? nbytes first then second else first) ∧
        σ' !! more_aggressive_output output_file = None
  | GsFailed partial =>
      exists σ',
        super_compress_pdf nbytes gs input_file output_file σ
        = (Ret (false, nbytes c), σ') ∧
        σ' !! output_file = Some first
  end.
Proof.
  intros Hin Hsize Hgs Hover Hmore.
  assert (Hunder : under_100mb (nbytes first) = false).
  { unfold over_100mb, under_100mb in *. lia. }
  rewrite (super_compress_escalates _ _ _ _ _ Hin Hsize Hgs Hover).
  destruct (gs _ (<[output_file := first]> σ !! input_file)) as [second | partial] eqn:Hgs2.
  - rewrite (second_pass_done _ _ _ _ _ Hgs2 Hmore)
      by (rewrite lookup_insert_eq; eauto).
    destruct (nbytes second <? nbytes first) eqn:Hlt.
    + eexists. split; [reflexivity |]. rewrite lookup_insert_eq. split; [reflexivity |].
      rewrite lookup_insert_ne by congruence. apply lookup_delete_eq.
    + rewrite Hunder. eexists. split; [reflexivity |].
      rewrite lookup_delete_eq. split; [| reflexivity].
      rewrite lookup_delete_ne, lookup_insert_ne by congruence.
      apply lookup_insert_eq.
  - rewrite (second_pass_failed _ _ _ _ _ Hgs2).
    eexists. split; [reflexivity |].
    destruct partial; [rewrite lookup_insert_ne by congruence |]; apply lookup_insert_eq.
Qed.

(** C10.  For every quality string other than the four known ones,
    [compress_pdf] does not fail on the lookup and runs the filter with the
    [/ebook] profile: the outcome of the run with
    [-dPDFSETTINGS=/ebook] decides the call (on a readable non-empty input
    and another output path, its output is committed with [True] when it
    exits with status 0, and the copy of the handler is made when it does
    not), and what the filter would do with any other argument vector has
    no influence. *)
Theorem unknown_quality_falls_back_to_ebook (quality input_file output_file : string) σ :
  quality ∉ ["screen"; "ebook"; "printer"; "prepress"] ->
  let ebook_cmd :=
    ["gs"; "-sDEVICE=pdfwrite"; "-dCompatibilityLevel=1.4"; "-dPDFSETTINGS=/ebook";
     "-dNOPAUSE"; "-dQUIET"; "-dBATCH";
     ("-sOutputFile=" ++ output_file)%string; input_file] in
  (forall c, σ !! input_file = Some c -> nbytes c <> 0 -> input_file <> output_file ->
     match gs ebook_cmd (Some c) with
     | GsDone out =>
         compress_pdf nbytes gs copy_error input_file output_file quality σ
         = (Ret (true, nbytes c, nbytes out), <[output_file := out]> σ)
     | GsFailed partial =>
         match copy_error output_file with
         | None =>
             compress_pdf nbytes gs copy_error input_file output_file quality σ
             = (Ret (false, nbytes c, nbytes c), <[output_file := c]> σ)
         | Some e =>
             compress_pdf nbytes gs copy_error input_file output_file quality σ
             = (Raise e, match partial with
                         | Some part => <[output_file := part]> σ
                         | None => σ
                         end)
         end
     end) ∧
  (forall gs' : list string -> option content -> gs_exit content,
     (forall i, gs' ebook_cmd i = gs ebook_cmd i) ->
     compress_pdf nbytes gs' copy_error input_file output_file quality σ
     = compress_pdf nbytes gs copy_error input_file output_file quality σ).
Proof.
  intros Hq ebook_cmd. pose proof (gs_setting_unknown quality Hq) as Hset.
  assert (Hcmd : compress_cmd (gs_setting quality) output_file input_file = ebook_cmd)
    by (rewrite Hset; reflexivity).
  split.
  - intros c Hin Hsize Hne. rewrite <- Hcmd.
    destruct (gs (compress_cmd (gs_setting quality) output_file input_file) (Some c))
      as [out | partial] eqn:Hgs.
    + apply compress_pdf_done; auto.
    + destruct (copy_error output_file) as [e |] eqn:Hcopy.
      * eapply compress_pdf_copy_failed; eauto.
      * eapply compress_pdf_failed; eauto.
  - intros gs' Hagree. apply compress_pdf_filter_ext. rewrite Hcmd. exact Hagree.
Qed.

(** C7, as amended.  For every non-empty input below 100 MB, an output
    path other than the input path, and a filter whose successful runs on
    the input give a file no larger than the input: [compress_pdf] commits
    the filter's output and returns [(True, input size, output size)] when
    the filter exits with status 0, and commits an unchanged copy of the
    input and returns [(False, input size, input size)] when the filter
    fails and the copy can be created; in both cases the committed file is
    at most as large as the input, and the result carries no under-ceiling
    flag.  [super_compress_pdf], when its first pass succeeds, commits that
    result, makes no second pass, and reports [True]. *)
Theorem compress_below_ceiling (input_file output_file quality : string) σ c :
  σ !! input_file = Some c -> input_file <> output_file ->
  0 < nbytes c < hundred_mb ->
  (forall cmd out, gs cmd (Some c) = GsDone out -> nbytes out <= nbytes c) ->
  match gs (compress_cmd (gs_setting quality) output_file input_file) (Some c) with
  | GsDone out =>
      compress_pdf nbytes gs copy_error input_file output_file quality σ
      = (Ret (true, nbytes c, nbytes out), <[output_file := out]> σ) ∧
      nbytes out <= nbytes c
  | GsFailed _ =>
      copy_error output_file = None ->
      compress_pdf nbytes gs copy_error input_file output_file quality σ
      = (Ret (false, nbytes c, nbytes c), <[output_file := c]> σ)
  end ∧
  (forall first,
      gs (super_cmd output_file input_file) (Some c) = GsDone first ->
      super_compress_pdf nbytes gs input_file output_file σ
      = (Ret (true, nbytes first), <[output_file := first]> σ) ∧
      nbytes first <= nbytes c).
Proof.
  intros Hin Hne Hsize Hshrink. split.
  - destruct (gs (compress_cmd (gs_setting quality) output_file input_file) (Some c))
      as [out | partial] eqn:Hgs.
    + split; [apply compress_pdf_done; auto; lia | eauto].
    + intros Hcopy. eapply compress_pdf_failed; eauto.
  - intros first Hgs. pose proof (Hshrink _ _ Hgs) as Hle. split; [| exact Hle].
    rewrite (super_compress_one_pass _ _ _ _ _ Hin ltac:(lia) Hgs).
    + replace (under_100mb (nbytes first)) with true; [reflexivity |].
      unfold under_100mb. lia.
    + unfold over_100mb. lia.
Qed.
End Filter.

Lemma unknown_quality_falls_back_to_ebook_witness :
  compress_pdf id ebook_only_gs no_error "in/a.pdf" "out/a.pdf" "high"
    (one_file "in" "a.pdf" (mb 50))
  = (Ret (true, mb 50, mb 20), <["out/a.pdf" := mb 20]> (one_file "in" "a.pdf" (mb 50))).
Proof.
  assert (Hq : "high" ∉ ["screen"; "ebook"; "printer"; "prepress"]).
  { intros H. repeat (apply elem_of_cons in H as [H | H]; [discriminate |]). inversion H. }
  exact (proj1 (unknown_quality_falls_back_to_ebook id ebook_only_gs no_error
                  "high" "in/a.pdf" "out/a.pdf" (one_file "in" "a.pdf" (mb 50)) Hq)
           (mb 50) eq_refl ltac:(vm_compute; discriminate) ltac:(discriminate)).
Defined.

Lemma compress_below_ceiling_witness :
  (compress_pdf id (sized_gs (Some (mb 20)) None) no_error "in/a.pdf" "out/a.pdf" "screen"
     (one_file "in" "a.pdf" (mb 50))
   = (Ret (true, mb 50, mb 20), <["out/a.pdf" := mb 20]> (one_file "in" "a.pdf" (mb 50))) ∧
   id (mb 20) <= id (mb 50)) ∧
  super_compress_pdf id (sized_gs (Some (mb 20)) None) "in/a.pdf" "out/a.pdf"
     (one_file "in" "a.pdf" (mb 50))
  = (Ret (true, mb 20), <["out/a.pdf" := mb 20]> (one_file "in" "a.pdf" (mb 50))).
Proof.
  assert (Hshrink : forall cmd out,
             sized_gs (Some (mb 20)) None cmd (Some (mb 50)) = GsDone out ->
             id out <= id (mb 50)).
  { intros cmd out. unfold sized_gs.
    destruct (existsb _ cmd); [discriminate |]. intros [= <-]. vm_compute. discriminate. }
  destruct (compress_below_ceiling id (sized_gs (Some (mb 20)) None) no_error
              "in/a.pdf" "out/a.pdf" "screen" (one_file "in" "a.pdf" (mb 50)) (mb 50)
              ltac:(reflexivity) ltac:(discriminate) ltac:(vm_compute; split; reflexivity)
              Hshrink) as [Hregular Hsuper].
  split; [exact Hregular |].
  exact (proj1 (Hsuper (mb 20) eq_refl)).
Defined.

(** C7, as stated, fails twice on a 50 MB input: a filter run that succeeds
    with a 60 MB file makes [compress_pdf] commit 60 MB, more than the
    input; and a filter run that fails makes [super_compress_pdf] report
    [False] although the input is under 100 MB. *)
Lemma compress_below_ceiling_counterexample :
  under_100mb (mb 50) = true ∧
  (compress_pdf id (sized_gs (Some (mb 60)) None) no_error "in/a.pdf" "out/a.pdf" "screen"
     (one_file "in" "a.pdf" (mb 50))).1 = Ret (true, mb 50, mb 60) ∧
  (compress_pdf id (sized_gs (Some (mb 60)) None) no_error "in/a.pdf" "out/a.pdf" "screen"
     (one_file "in" "a.pdf" (mb 50))).2 !! "out/a.pdf" = Some (mb 60) ∧
  ~ (mb 60 <= mb 50) ∧
  (super_compress_pdf id (sized_gs None None) "in/a.pdf" "out/a.pdf"
     (one_file "in" "a.pdf" (mb 50))).1 = Ret (false, mb 50).
Proof. repeat split; try (vm_compute; reflexivity). vm_compute. intros H. apply H. reflexivity. Qed.

(** C8 (the code departs from the claim).  A 150 MB file goes through
    [super_compress_pdf]; when the filter exits with a non-zero status the
    call returns [(False, original size)] and leaves the file system as it
    was: nothing is copied to the output path.  [compress_pdf], on the same
    input and failure, does copy the input there. *)
Theorem super_compress_failure_copies_nothing :
  compress_entry id (sized_gs None None) no_error "Temp_Merged_PDFs" "Processed_PDFs" "merged_001.pdf" "screen"
    (one_file "Temp_Merged_PDFs" "merged_001.pdf" (mb 150))
  = (Ret (ViaSuper (false, mb 150)), one_file "Temp_Merged_PDFs" "merged_001.pdf" (mb 150)) ∧
  super_compress_pdf id (sized_gs None None) "Temp_Merged_PDFs/merged_001.pdf" "Processed_PDFs/merged_001.pdf"
    (one_file "Temp_Merged_PDFs" "merged_001.pdf" (mb 150))
  = (Ret (false, mb 150), one_file "Temp_Merged_PDFs" "merged_001.pdf" (mb 150)) ∧
  one_file "Temp_Merged_PDFs" "merged_001.pdf" (mb 150) !! "Processed_PDFs/merged_001.pdf" = None ∧
  (compress_pdf id (sized_gs None None) no_error "Temp_Merged_PDFs/merged_001.pdf" "Processed_PDFs/merged_001.pdf" "screen"
     (one_file "Temp_Merged_PDFs" "merged_001.pdf" (mb 150))).2 !! "Processed_PDFs/merged_001.pdf" = Some (mb 150).
Proof. repeat split; vm_compute; reflexivity. Qed.

(** C6 (the code departs from the claim).  For an output path without a
    lower-case [.pdf], here [Compressed_PDFs/BIG.PDF], [replace] returns the path
    unchanged and the second pass overwrites the first result.  With a
    first result of 120 MB and a second of 95 MB the output is removed and
    the rename raises: nothing is committed.  With a second result of 130 MB
    the call returns the size of the first result, after deleting the only
    file under the output path. *)
Theorem super_compress_upper_case_name_loses_output :
  more_aggressive_output "Compressed_PDFs/BIG.PDF" = "Compressed_PDFs/BIG.PDF" ∧
  (super_compress_pdf id (sized_gs (Some (mb 120)) (Some (mb 95)))
     "Scans/BIG.PDF" "Compressed_PDFs/BIG.PDF"
     (one_file "Scans" "BIG.PDF" (mb 150))).1 = Raise FileNotFoundError ∧
  (super_compress_pdf id (sized_gs (Some (mb 120)) (Some (mb 95)))
     "Scans/BIG.PDF" "Compressed_PDFs/BIG.PDF"
     (one_file "Scans" "BIG.PDF" (mb 150))).2 !! "Compressed_PDFs/BIG.PDF" = None ∧
  (super_compress_pdf id (sized_gs (Some (mb 120)) (Some (mb 130)))
     "Scans/BIG.PDF" "Compressed_PDFs/BIG.PDF"
     (one_file "Scans" "BIG.PDF" (mb 150))).1 = Ret (false, mb 120) ∧
  (super_compress_pdf id (sized_gs (Some (mb 120)) (Some (mb 130)))
     "Scans/BIG.PDF" "Compressed_PDFs/BIG.PDF"
     (one_file "Scans" "BIG.PDF" (mb 150))).2 !! "Compressed_PDFs/BIG.PDF" = None ∧
  (compress_entry id (sized_gs (Some (mb 120)) (Some (mb 95))) no_error
     "Scans" "Compressed_PDFs" "BIG.PDF" "screen"
     (one_file "Scans" "BIG.PDF" (mb 150))).1 = Raise FileNotFoundError.
Proof. repeat split; vm_compute; reflexivity. Qed.

(** The same runs with the name [big.pdf] follow the policy. *)
Example super_compress_lower_case_name :
  (super_compress_pdf id (sized_gs (Some (mb 120)) (Some (mb 95)))
     "Scans/big.pdf" "Compressed_PDFs/big.pdf"
     (one_file "Scans" "big.pdf" (mb 150)))
  = (Ret (true, mb 95),
     <["Compressed_PDFs/big.pdf" := mb 95]> (one_file "Scans" "big.pdf" (mb 150))) ∧
  (super_compress_pdf id (sized_gs (Some (mb 120)) (Some (mb 120)))
     "Scans/big.pdf" "Compressed_PDFs/big.pdf"
     (one_file "Scans" "big.pdf" (mb 150)))
  = (Ret (false, mb 120),
     <["Compressed_PDFs/big.pdf" := mb 120]> (one_file "Scans" "big.pdf" (mb 150))) ∧
  (super_compress_pdf id (sized_gs (Some (mb 120)) None)
     "Scans/big.pdf" "Compressed_PDFs/big.pdf"
     (one_file "Scans" "big.pdf" (mb 150)))
  = (Ret (false, mb 150),
     <["Compressed_PDFs/big.pdf" := mb 120]> (one_file "Scans" "big.pdf" (mb 150))).
Proof. repeat split; vm_compute; reflexivity. Qed.

End CompressFacts.

(* ===================================================================== *)
(** * Further properties of the bucket assignment                          *)
(* ===================================================================== *)

Module MergeMore.
Import Merge MergeFacts.

(** X1.  The assignment of [merge_pdfs] does not depend on the order in
    which the probes complete: two lists of probe results that are
    rearrangements of one another give the same buckets and weights (or the
    same exception). *)
Theorem assignment_ignores_completion_order (l1 l2 : list pdf_info) (k : Z) :
  l1 ≡ₚ l2 -> merge_assign l1 k = merge_assign l2 k.
Proof. apply merge_assign_Permutation. Qed.

Lemma assignment_ignores_completion_order_witness :
  merge_assign scenario_docs 3 = merge_assign (five_docs ++ [(0, 0, "broken.pdf")]) 3.
Proof.
  apply assignment_ignores_completion_order. unfold scenario_docs, five_docs. simpl.
  apply (Permutation_cons_app [(50, 5, "a.pdf"); (40, 4, "b.pdf")]
           [(20, 2, "d.pdf"); (10, 1, "e.pdf"); (0, 0, "broken.pdf")] (30, 3, "c.pdf")).
  apply perm_skip.
  apply (Permutation_cons_app [(40, 4, "b.pdf"); (20, 2, "d.pdf")]
           [(0, 0, "broken.pdf")] (10, 1, "e.pdf")).
  apply (Permutation_cons_app [(40, 4, "b.pdf"); (20, 2, "d.pdf")] [] (0, 0, "broken.pdf")).
  reflexivity.
Defined.

(** X2.  With a requested count of zero or less and at least one valid
    document, [min(bucket_sizes)] is taken of an empty list: the assignment
    raises ValueError instead of returning buckets. *)
Theorem nonpositive_count_raises (analysed : list pdf_info) (k : Z) :
  k <= 0 -> valid_pdfs analysed <> [] -> merge_assign analysed k = Raise ValueError.
Proof. apply merge_assign_nonpositive_count. Qed.

Lemma nonpositive_count_raises_witness : merge_assign scenario_docs 0 = Raise ValueError.
Proof.
  apply nonpositive_count_raises; [lia |]. vm_compute. discriminate.
Defined.

(** ** No bucket stays empty *)

Lemma count_zero_alter_balance (f : Z -> Z) (i : nat) (l : list Z) (x : Z) :
  l !! i = Some x ->
  (count_zero (alter f i l) + (if (x =? 0)%Z then 1 else 0)
   = count_zero l + (if (f x =? 0)%Z then 1 else 0))%nat.
Proof.
  revert i. induction l as [|y l IH]; intros [|i]; simpl; try discriminate.
  - intros [= ->]. unfold alter. simpl. destruct (x =? 0), (f x =? 0); lia.
  - intros H. specialize (IH i H). unfold alter in *. simpl. destruct (y =? 0); lia.
Qed.

Lemma count_zero_none (l : list Z) : count_zero l = 0%nat <-> 0 ∉ l.
Proof.
  induction l as [|x l IH]; simpl.
  - split; [intros _ H; inversion H | reflexivity].
  - rewrite not_elem_of_cons. destruct (Z.eqb_spec x 0) as [-> | Hx].
    + split; [discriminate | intros [H _]; congruence].
    + rewrite IH. split; [intros H; split; [congruence | exact H] | intros [_ H]; exact H].
Qed.

(** Each item fills an empty bucket as long as there is one. *)
Lemma assign_all_fills (l : list pdf_info) :
  forall st st',
    Forall (fun p => 0 < file_size p) l ->
    Forall (fun s => 0 <= s) (bucket_sizes st) ->
    assign_all st l = Ret st' ->
    Forall (fun s => 0 <= s) (bucket_sizes st') ∧
    count_zero (bucket_sizes st') = (count_zero (bucket_sizes st) - length l)%nat.
Proof.
  induction l as [|p l IH]; intros st st' Hw Hpos Hrun.
  - simpl in Hrun. injection Hrun as <-. split; [exact Hpos | simpl; lia].
  - apply Forall_cons in Hw as [Hp Hw]. simpl in Hrun.
    destruct (decide (bucket_sizes st = [])) as [E | Hne].
    { unfold assign_one in Hrun. rewrite E in Hrun. discriminate. }
    destruct (assign_one_returns st p Hne) as (i & m & Hlook & Hmin & Hone).
    rewrite Hone in Hrun.
    assert (Hm0 : 0 <= m).
    { rewrite Forall_forall in Hpos. apply Hpos. apply list_elem_of_lookup. eauto. }
    set (st1 := mkState (alter (fun b => b ++ [pdf_path p]) i (buckets st))
                        (alter (fun s => s + file_size p) i (bucket_sizes st))) in *.
    assert (Hpos1 : Forall (fun s => 0 <= s) (bucket_sizes st1)).
    { apply Forall_alter; [exact Hpos |]. intros x Hx Hx0. lia. }
    destruct (IH st1 st' Hw Hpos1 Hrun) as [Hpos' Hcount].
    split; [exact Hpos' |]. rewrite Hcount. simpl bucket_sizes. simpl length.
    pose proof (count_zero_alter_balance (fun s => s + file_size p) i _ m Hlook) as Hbal.
    cbv beta in Hbal.
    destruct (Z.eqb_spec (m + file_size p) 0); [lia |].
    destruct (Z.eqb_spec m 0) as [-> | Hm]; [lia |].
    assert (count_zero (bucket_sizes st) = 0%nat); [| lia].
    apply count_zero_none. intros H0.
    rewrite Forall_forall in Hmin. specialize (Hmin 0 H0). lia.
Qed.

(** X3.  For a requested count of at least one and [n >= 1] valid
    documents, the assignment creates exactly [min(count, n)] buckets and
    none of them is empty: the test [if not bucket: continue] of the merging
    loop never skips a bucket. *)
Theorem no_bucket_left_empty (analysed : list pdf_info) (k : Z) :
  1 <= k -> valid_pdfs analysed <> [] ->
  exists st,
    merge_assign analysed k = Ret (Some st) ∧
    Z.of_nat (length (buckets st)) = Z.min k (Z.of_nat (length (valid_pdfs analysed))) ∧
    length (bucket_sizes st) = length (buckets st) ∧
    Forall (fun b => b <> []) (buckets st) ∧
    Forall (fun s => 0 < s) (bucket_sizes st).
Proof.
  intros Hk Hv.
  destruct (merge_assign_tracks analysed k Hk Hv) as (st & ib & Hrun & Htr & Hlen & Hperm).
  exists st. split; [exact Hrun |].
  destruct (tracks_length _ _ Htr) as [Hls Hlb].
  split; [rewrite Hlb; exact Hlen |]. split; [congruence |].
  apply merge_assign_loop in Hrun.
  set (valid := valid_pdfs analysed) in *.
  set (n := Z.min k (Z.of_nat (length valid))) in *.
  destruct (assign_all_fills (sort_reverse valid) (init_state n) st) as [Hpos Hcount]; auto.
  { rewrite sort_reverse_Permutation. apply valid_pdfs_positive. }
  { simpl. apply Forall_forall. intros s Hs. apply elem_of_replicate_inv in Hs. lia. }
  simpl in Hcount. rewrite count_zero_replicate in Hcount.
  rewrite (Permutation_length (sort_reverse_Permutation valid)) in Hcount.
  assert (Hnone : 0 ∉ bucket_sizes st) by (apply count_zero_none; lia).
  assert (Hsizes : Forall (fun s => 0 < s) (bucket_sizes st)).
  { rewrite Forall_forall in Hpos |- *. intros s Hs. specialize (Hpos s Hs).
    destruct (decide (s = 0)) as [-> | ?]; [contradiction | lia]. }
  split; [| exact Hsizes].
  destruct Htr as [Hb Hs]. rewrite Hs in Hsizes. rewrite Hb.
  pose proof (proj1 (Forall_forall _ _) Hsizes) as Hall.
  apply Forall_forall. intros paths Hpaths.
  apply list_elem_of_fmap in Hpaths as (b & -> & Hin).
  intros E. apply fmap_nil_inv in E. subst b.
  assert (H0 : 0 < total_weight []); [| vm_compute in H0; discriminate].
  apply Hall. apply list_elem_of_fmap. exists []. auto.
Qed.

Lemma no_bucket_left_empty_witness :
  exists st, merge_assign scenario_docs 7 = Ret (Some st) ∧
             length (buckets st) = 5%nat ∧ Forall (fun b => b <> []) (buckets st).
Proof.
  destruct (no_bucket_left_empty scenario_docs 7) as (st & Hrun & Hlen & _ & Hne & _).
  - lia.
  - vm_compute. discriminate.
  - exists st. split; [exact Hrun |]. split; [| exact Hne].
    change (Z.min 7 (Z.of_nat (length (valid_pdfs scenario_docs)))) with 5 in Hlen. lia.
Defined.

(** ** Evenly sized buckets *)

Lemma elem_of_alter_inv {A} (f : A -> A) (i : nat) (l : list A) (x : A) :
  x ∈ alter f i l -> x ∈ l ∨ exists y, l !! i = Some y ∧ x = f y.
Proof.
  revert i. induction l as [|z l IH]; intros i Hx.
  - inversion Hx.
  - destruct i as [|i]; unfold alter in Hx; simpl in Hx;
      apply elem_of_cons in Hx as [-> | Hx].
    + right. exists z. auto.
    + left. right. exact Hx.
    + left. left.
    + destruct (IH i Hx) as [H | (y & Hy & ->)].
      * left. right. exact H.
      * right. exists y. auto.
Qed.

(** The least loaded bucket receives the next item, so no bucket ever gets
    ahead of another by more than one item. *)
Lemma assign_all_spread (M : Z) (l : list pdf_info) :
  forall st st',
    Forall (fun p => 0 <= file_size p <= M) l ->
    (forall s t, s ∈ bucket_sizes st -> t ∈ bucket_sizes st -> s <= t + M) ->
    assign_all st l = Ret st' ->
    forall s t, s ∈ bucket_sizes st' -> t ∈ bucket_sizes st' -> s <= t + M.
Proof.
  induction l as [|p l IH]; intros st st' Hw Hinv Hrun.
  - simpl in Hrun. injection Hrun as <-. exact Hinv.
  - apply Forall_cons in Hw as [Hp Hw]. simpl in Hrun.
    destruct (decide (bucket_sizes st = [])) as [E | Hne].
    { unfold assign_one in Hrun. rewrite E in Hrun. discriminate. }
    destruct (assign_one_returns st p Hne) as (i & m & Hlook & Hmin & Hone).
    rewrite Hone in Hrun.
    set (st1 := mkState (alter (fun b => b ++ [pdf_path p]) i (buckets st))
                        (alter (fun s => s + file_size p) i (bucket_sizes st))) in *.
    refine (IH st1 st' Hw _ Hrun). simpl.
    rewrite Forall_forall in Hmin.
    assert (Hmin_in : m ∈ bucket_sizes st) by (apply list_elem_of_lookup; eauto).
    intros s t Hs Ht.
    apply elem_of_alter_inv in Hs as [Hs | (y & Hy & ->)];
      apply elem_of_alter_inv in Ht as [Ht | (z & Hz & ->)].
    + auto.
    + rewrite Hlook in Hz. injection Hz as <-. specialize (Hinv s m Hs Hmin_in). lia.
    + rewrite Hlook in Hy. injection Hy as <-. specialize (Hmin t Ht). lia.
    + rewrite Hlook in Hy, Hz. injection Hy as <-. injection Hz as <-. lia.
Qed.

(** X4.  The merged files are evenly sized in this sense: for a requested
    count of at least one, the weights of any two buckets differ by at most
    the size of the largest valid document. *)
Theorem bucket_weights_differ_by_at_most_one_item (analysed : list pdf_info) (k : Z) :
  1 <= k -> valid_pdfs analysed <> [] ->
  exists st,
    merge_assign analysed k = Ret (Some st) ∧
    forall s t, s ∈ bucket_sizes st -> t ∈ bucket_sizes st ->
                s - t <= max_weight (valid_pdfs analysed).
Proof.
  intros Hk Hv.
  destruct (merge_assign_tracks analysed k Hk Hv) as (st & ib & Hrun & _).
  exists st. split; [exact Hrun |].
  apply merge_assign_loop in Hrun.
  pose proof (max_weight_nonneg (valid_pdfs analysed)) as HM.
  intros s t Hs Ht.
  assert (s <= t + max_weight (valid_pdfs analysed)); [| lia].
  refine (assign_all_spread _ _ _ st _ _ Hrun s t Hs Ht).
  - rewrite sort_reverse_Permutation. apply valid_weights_bounded.
  - simpl. intros a b Ha Hb.
    apply elem_of_replicate_inv in Ha, Hb. lia.
Qed.

Lemma bucket_weights_differ_by_at_most_one_item_witness :
  exists st, merge_assign scenario_docs 2 = Ret (Some st) ∧
             forall s t, s ∈ bucket_sizes st -> t ∈ bucket_sizes st -> s - t <= 50.
Proof.
  destruct (bucket_weights_differ_by_at_most_one_item scenario_docs 2) as (st & Hrun & Hd).
  - lia.
  - vm_compute. discriminate.
  - exists st. split; [exact Hrun | exact Hd].
Defined.

End MergeMore.

(* ===================================================================== *)
(** * Further properties of the download stage                             *)
(* ===================================================================== *)

Module DownloadMore.
Import FS Download Preds Samples DownloadFacts.

(** ** The derived file name *)

Lemma all_chars_app (f : ascii -> bool) (a b : string) :
  all_chars f (a ++ b)%string = all_chars f a && all_chars f b.
Proof.
  induction a as [|c a IH]; simpl; [reflexivity |].
  rewrite IH. apply andb_assoc.
Qed.

Lemma clean_char_safe (c : ascii) :
  is_safe_char (if is_safe_char c then c else "_"%char) = true.
Proof. destruct (is_safe_char c) eqn:E; [exact E | reflexivity]. Qed.

Lemma re_sub_clean_safe (s : string) : all_chars is_safe_char (re_sub_clean s) = true.
Proof.
  induction s as [|c s IH]; simpl; [reflexivity |].
  rewrite clean_char_safe, IH. reflexivity.
Qed.

Lemma substring_skip (a b : string) (m : nat) :
  substring (String.length a) m (a ++ b) = substring 0 m b.
Proof. induction a as [|c a IH]; simpl; [reflexivity | exact IH]. Qed.

Lemma substring_all (b : string) : substring 0 (String.length b) b = b.
Proof. induction b as [|c b IH]; simpl; [reflexivity | rewrite IH; reflexivity]. Qed.

Lemma string_length_app (a b : string) :
  String.length (a ++ b) = (String.length a + String.length b)%nat.
Proof. induction a as [|c a IH]; simpl; [reflexivity | rewrite IH; reflexivity]. Qed.

Lemma py_endswith_app (a suffix : string) : py_endswith (a ++ suffix) suffix = true.
Proof.
  unfold py_endswith. rewrite string_length_app.
  replace (String.length a + String.length suffix - String.length suffix)%nat
    with (String.length a) by lia.
  rewrite substring_skip, substring_all, String.eqb_refl.
  rewrite andb_true_r. apply Nat.leb_le. lia.
Qed.

Lemma py_lower_app (a b : string) : py_lower (a ++ b) = (py_lower a ++ py_lower b)%string.
Proof. induction a as [|c a IH]; simpl; [reflexivity | rewrite IH; reflexivity]. Qed.

(** X5.  Whatever the URL and the directory, the path [download_pdf]
    writes to consists of the characters [A-Za-z0-9._-] only (so it holds no
    path separator and names a file of the current directory) and ends in
    [.pdf], in upper or lower case. *)
Theorem local_filename_is_flat_pdf_name (pdf_url download_dir : string) :
  all_chars is_safe_char (local_filename pdf_url download_dir) = true ∧
  has_char "/" (local_filename pdf_url download_dir) = false ∧
  py_endswith (py_lower (local_filename pdf_url download_dir)) ".pdf" = true.
Proof.
  split; [| split; [apply local_filename_no_slash |]]; unfold local_filename.
  - destruct (negb _); [rewrite all_chars_app |]; rewrite re_sub_clean_safe; reflexivity.
  - destruct (py_endswith (py_lower (re_sub_clean _)) ".pdf") eqn:E; simpl.
    + exact E.
    + rewrite py_lower_app. apply (py_endswith_app _ ".pdf").
Qed.

(** ** Which part of the URL the name depends on *)

Lemma py_split_no_sep (sep : ascii) (s : string) :
  has_char sep s = false -> py_split sep s = [s].
Proof.
  induction s as [|c s IH]; simpl; [reflexivity |].
  intros H. apply orb_false_iff in H as [Hc Hs].
  rewrite Hc, (IH Hs). reflexivity.
Qed.

Lemma py_split_nonempty (sep : ascii) (s : string) : py_split sep s <> [].
Proof.
  induction s as [|c s IH]; simpl; [discriminate |].
  destruct (Ascii.eqb c sep); [discriminate |].
  destruct (py_split sep s); [congruence | discriminate].
Qed.

Lemma last_cons_nonempty {A} (x : A) (l : list A) (d : A) :
  l <> [] -> List.last (x :: l) d = List.last l d.
Proof. destruct l; [congruence | reflexivity]. Qed.

Lemma py_split_two (sep : ascii) (s : string) :
  has_char sep s = true -> exists seg r rest, py_split sep s = seg :: r :: rest.
Proof.
  induction s as [|c s IH]; [discriminate |].
  cbn [has_char py_split]. destruct (Ascii.eqb c sep) eqn:Ec.
  - intros _. destruct (py_split sep s) as [|r rest] eqn:E.
    + exfalso. eapply py_split_nonempty, E.
    + eauto.
  - simpl. intros Hs. destruct (IH Hs) as (seg & r & rest & ->). eauto.
Qed.

Lemma py_last_cons (c : ascii) (s : string) :
  has_char "/" s = true ->
  py_last (py_split "/" (String c s)) = py_last (py_split "/" s).
Proof.
  intros Hs. destruct (py_split_two _ _ Hs) as (seg & r & rest & E).
  unfold py_last. cbn [py_split]. rewrite E.
  destruct (Ascii.eqb c "/"); reflexivity.
Qed.

(** The last segment of [before/segment] is [segment]. *)
Lemma py_last_split (before segment : string) :
  has_char "/" segment = false ->
  py_last (py_split "/" (before ++ "/" ++ segment)) = segment.
Proof.
  intros Hseg. induction before as [|c before IH].
  - change ("" ++ "/" ++ segment)%string with (String "/" segment).
    unfold py_last. cbn [py_split]. rewrite Ascii.eqb_refl.
    rewrite (py_split_no_sep _ _ Hseg). reflexivity.
  - change (String c before ++ "/" ++ segment)%string
      with (String c (before ++ "/" ++ segment)).
    rewrite py_last_cons; [exact IH |].
    rewrite has_char_app. change ("/" ++ segment)%string with (String "/" segment).
    cbn [has_char]. rewrite Ascii.eqb_refl. apply orb_true_r.
Qed.

(** The part of [name?query] before the first question mark is [name]. *)
Lemma py_first_split (name query : string) :
  has_char "?" name = false ->
  py_first (py_split "?" (name ++ "?" ++ query)) = name.
Proof.
  intros Hname. unfold py_first. induction name as [|c name IH]; simpl.
  - reflexivity.
  - simpl in Hname. apply orb_false_iff in Hname as [Hc Hn].
    rewrite Hc. specialize (IH Hn).
    destruct (py_split "?" (name ++ "?" ++ query)) as [|seg rest]; simpl in *; congruence.
Qed.

(** X6.  The written path depends on the URL only through the part of its
    last segment that precedes the first question mark: two links with the
    same file name, on any hosts or in any directories and with any query
    strings, are written to the same path, so the later download replaces
    the earlier one. *)
Theorem local_filename_depends_on_last_segment
    (before1 before2 name query1 query2 download_dir : string) :
  has_char "/" name = false -> has_char "?" name = false ->
  has_char "/" query1 = false -> has_char "/" query2 = false ->
  local_filename (before1 ++ "/" ++ name ++ "?" ++ query1) download_dir
  = local_filename (before2 ++ "/" ++ name ++ "?" ++ query2) download_dir ∧
  local_filename (before1 ++ "/" ++ name ++ "?" ++ query1) download_dir
  = local_filename (before2 ++ "/" ++ name) download_dir.
Proof.
  intros Hn Hq H1 H2.
  assert (Hseg : forall q, has_char "/" q = false ->
                           has_char "/" (name ++ "?" ++ q) = false).
  { intros q Hq'. rewrite !has_char_app, Hn, Hq'. reflexivity. }
  unfold local_filename.
  rewrite !py_last_split by auto.
  rewrite !py_first_split by auto.
  rewrite (py_split_no_sep "?" name Hq). simpl py_first.
  split; reflexivity.
Qed.

Lemma local_filename_depends_on_last_segment_witness :
  local_filename "http://a.example/docs/report.pdf?version=1" "dl"
  = local_filename "http://b.example/archive/2020/report.pdf?lang=en" "dl".
Proof.
  exact (proj1 (local_filename_depends_on_last_segment
                  "http://a.example/docs" "http://b.example/archive/2020"
                  "report.pdf" "version=1" "lang=en" "dl"
                  eq_refl eq_refl eq_refl eq_refl)).
Defined.

(** ** The retry loop for any number of retries *)

Section Retry.
Context {content : Type}.
Variable makedirs : string -> option exn.
Implicit Types (tries : nat -> attempt content) (σ : fs content).

Lemma write_partial_frame (filename : string) (partial : option content) σ :
  (write_partial filename partial σ).1 = Ret tt ∧
  forall p, p <> filename -> (write_partial filename partial σ).2 !! p = σ !! p.
Proof.
  destruct partial as [part |]; simpl; split; auto.
  intros p Hp. apply lookup_insert_ne. congruence.
Qed.

(** What the loop does from pass [c] on, with [r] passes left. *)
Lemma download_loop_spec tries (filename : string) (r : nat) :
  forall (c : nat) σ,
    (forall p, p <> filename ->
               (download_loop tries filename c r σ).2 !! p = σ !! p) ∧
    match (download_loop tries filename c r σ).1 with
    | Ret (Some (true, f)) =>
        f = Some filename ∧
        exists j body,
          (c <= j < c + r)%nat ∧ tries j = Fetched body ∧
          (forall i, (c <= i < j)%nat -> exists part, tries i = RequestFailed part) ∧
          (download_loop tries filename c r σ).2 !! filename = Some body
    | Ret (Some (false, f)) =>
        f = None ∧
        ((exists j part,
             (c <= j < c + r)%nat ∧ tries j = OtherFailed part ∧
             forall i, (c <= i < j)%nat -> exists part', tries i = RequestFailed part') ∨
         ((0 < r)%nat ∧
          forall i, (c <= i < c + r)%nat -> exists part, tries i = RequestFailed part))
    | Ret None => r = 0%nat
    | Raise _ => False
    end.
Proof.
  induction r as [|r IH]; intros c σ.
  - simpl. auto.
  - cbn [download_loop]. destruct (tries c) as [body | partial | partial] eqn:Ec.
    + unfold bind, write_file, ret. simpl. split.
      * intros p Hp. apply lookup_insert_ne. congruence.
      * split; [reflexivity |]. exists c, body.
        split; [lia |]. split; [exact Ec |].
        split; [intros i Hi; lia | apply lookup_insert_eq].
    + destruct (write_partial_frame filename partial σ) as [Hret Hframe].
      unfold bind. destruct (write_partial filename partial σ) as [[[] | e] σ1];
        simpl in Hret; [| discriminate].
      simpl in Hframe. destruct r as [|r].
      * unfold ret. simpl. split; [exact Hframe |]. split; [reflexivity |].
        right. split; [lia |]. intros i Hi. assert (i = c) as -> by lia. eauto.
      * specialize (IH (S c) σ1). destruct IH as [IHframe IHres].
        split.
        { intros p Hp. rewrite (IHframe p Hp). auto. }
        destruct (download_loop tries filename (S c) (S r) σ1) as [[[[[|] f] |] | e] σ2];
          simpl in *.
        -- destruct IHres as (-> & j & body & Hj & Hf & Hbefore & Hfile).
           split; [reflexivity |]. exists j, body.
           split; [lia |]. split; [exact Hf |]. split; [| exact Hfile].
           intros i Hi. destruct (decide (i = c)) as [-> | Hne]; [eauto |].
           apply Hbefore. lia.
        -- destruct IHres as (-> & Hcase). split; [reflexivity |].
           destruct Hcase as [(j & part & Hj & Hf & Hbefore) | [_ Hall]].
           ++ left. exists j, part. split; [lia |]. split; [exact Hf |].
              intros i Hi. destruct (decide (i = c)) as [-> | Hne]; [eauto |].
              apply Hbefore. lia.
           ++ right. split; [lia |]. intros i Hi.
              destruct (decide (i = c)) as [-> | Hne]; [eauto |]. apply Hall. lia.
        -- discriminate.
        -- exact IHres.
    + destruct (write_partial_frame filename partial σ) as [Hret Hframe].
      unfold bind. destruct (write_partial filename partial σ) as [[[] | e] σ1];
        simpl in Hret; [| discriminate].
      simpl in Hframe. unfold ret. simpl. split; [exact Hframe |].
      split; [reflexivity |]. left. exists c, partial.
      split; [lia |]. split; [exact Ec |]. intros i Hi. lia.
Qed.

(** X7.  For every number of retries, [download_pdf] never raises and
    changes no path but its own.  It returns [(True, filename)] only if some
    pass within the allowed number fetches the file after request errors
    only, and the file then holds exactly the body fetched by that pass,
    whatever earlier passes had written; it returns [(False, None)] only if
    a pass hits another exception or every allowed pass ends in a request
    error; it returns [None] exactly when no pass is allowed
    ([num_retries <= 0]). *)
Theorem download_pdf_outcomes tries (pdf_url download_dir : string) (num_retries : Z) σ :
  let filename := local_filename pdf_url download_dir in
  let result := download_pdf tries pdf_url download_dir num_retries σ in
  (forall p, p <> filename -> result.2 !! p = σ !! p) ∧
  match result.1 with
  | Ret (Some (true, f)) =>
      f = Some filename ∧
      exists j body,
        Z.of_nat j < num_retries ∧ tries j = Fetched body ∧
        (forall i, (i < j)%nat -> exists part, tries i = RequestFailed part) ∧
        result.2 !! filename = Some body
  | Ret (Some (false, f)) =>
      f = None ∧ 0 < num_retries ∧
      ((exists j part,
           Z.of_nat j < num_retries ∧ tries j = OtherFailed part ∧
           forall i, (i < j)%nat -> exists part', tries i = RequestFailed part') ∨
       (forall i, Z.of_nat i < num_retries -> exists part, tries i = RequestFailed part))
  | Ret None => num_retries <= 0
  | Raise _ => False
  end.
Proof.
  intros filename result. subst result. unfold download_pdf. fold filename.
  destruct (download_loop_spec tries filename (Z.to_nat num_retries) 0 σ) as [Hframe Hres].
  split; [exact Hframe |].
  destruct (download_loop tries filename 0 (Z.to_nat num_retries) σ) as [[[[[|] f] |] | e] σ'];
    simpl in *.
  - destruct Hres as (-> & j & body & Hj & Hf & Hbefore & Hfile).
    split; [reflexivity |]. exists j, body.
    split; [lia |]. split; [exact Hf |]. split; [| exact Hfile].
    intros i Hi. apply Hbefore. lia.
  - destruct Hres as (-> & Hcase). split; [reflexivity |].
    destruct Hcase as [(j & part & Hj & Hf & Hbefore) | [Hr Hall]].
    + split; [lia |]. left. exists j, part. split; [lia |]. split; [exact Hf |].
      intros i Hi. apply Hbefore. lia.
    + split; [lia |]. right. intros i Hi. apply Hall. lia.
  - lia.
  - exact Hres.
Qed.

(** Passes beyond the allowed number are never made. *)
Lemma download_loop_ext tries tries' (filename : string) (r : nat) :
  forall (c : nat) σ,
    (forall i, (c <= i < c + r)%nat -> tries i = tries' i) ->
    download_loop tries filename c r σ = download_loop tries' filename c r σ.
Proof.
  induction r as [|r IH]; intros c σ Hagree; [reflexivity |].
  cbn [download_loop]. rewrite <- (Hagree c) by lia.
  destruct (tries c) as [body | partial | partial]; try reflexivity.
  unfold bind. destruct (write_partial filename partial σ) as [[[] | e] σ1]; [| reflexivity].
  destruct r as [|r]; [reflexivity |]. apply IH. intros i Hi. apply Hagree. lia.
Qed.

(** X8.  [download_pdf] makes at most [num_retries] passes: what the
    network would answer to a later pass has no influence on the result or
    on the files. *)
Theorem download_pdf_bounded_passes tries tries' (pdf_url download_dir : string)
    (num_retries : Z) σ :
  (forall i, Z.of_nat i < num_retries -> tries i = tries' i) ->
  download_pdf tries pdf_url download_dir num_retries σ
  = download_pdf tries' pdf_url download_dir num_retries σ.
Proof.
  intros Hagree. unfold download_pdf. apply download_loop_ext.
  intros i Hi. apply Hagree. lia.
Qed.

(** ** What the batch writes *)

Lemma run_batch_frame (net : string -> nat -> attempt content) (download_dir : string)
    (completed : list string) :
  forall counts σ p,
    p ∉ (fun url => local_filename url download_dir) <$> completed ->
    (run_batch net download_dir completed counts σ).2 !! p = σ !! p.
Proof.
  induction completed as [|url rest IH]; intros counts σ p Hp; [reflexivity |].
  rewrite fmap_cons in Hp. apply not_elem_of_cons in Hp as [Hne Hrest].
  cbn [run_batch].
  pose proof (download_loop_spec (net url) (local_filename url download_dir)
                (Z.to_nat 3) 0 σ) as [Hframe _].
  change (download_loop (net url) (local_filename url download_dir) 0 (Z.to_nat 3) σ)
    with (download_pdf (net url) url download_dir 3 σ) in Hframe.
  destruct (download_pdf (net url) url download_dir 3 σ) as [r σ1]. simpl in Hframe.
  rewrite (IH _ σ1 p Hrest). apply Hframe. exact Hne.
Qed.

Lemma download_batch_frame (page : option (list string)) (completed : list string)
    (net : string -> nat -> attempt content) (download_dir : string)
    (max_workers : option Z) σ (p : string) :
  p ∉ (fun url => local_filename url download_dir) <$> completed ->
  (download_pdfs_from_url makedirs page completed net download_dir max_workers σ).2 !! p
  = σ !! p.
Proof.
  intros Hp. unfold download_pdfs_from_url.
  destruct (makedirs download_dir); [reflexivity |].
  destruct page as [[|u us] |]; try reflexivity.
  destruct (Pool.executor max_workers); [| reflexivity].
  pose proof (run_batch_frame net download_dir completed (0, 0) σ p Hp) as H.
  destruct (run_batch net download_dir completed (0, 0) σ) as [counts σ1]. exact H.
Qed.

Lemma download_batch_keeps_directories (page : option (list string)) (completed : list string)
    (net : string -> nat -> attempt content) (download_dir : string)
    (max_workers : option Z) σ (p : string) :
  has_char "/" p = true ->
  (download_pdfs_from_url makedirs page completed net download_dir max_workers σ).2 !! p
  = σ !! p.
Proof.
  intros Hp. apply download_batch_frame. intros Hin.
  apply list_elem_of_fmap in Hin as (url & -> & _).
  rewrite local_filename_no_slash in Hp. discriminate.
Qed.

(** X9.  [download_pdfs_from_url] changes only paths that are derived file
    names of the links it downloads; as these hold no separator, no file
    inside any directory, the download directory included, is created or
    changed.  This holds for every pool size and whether or not the
    directory can be created. *)
Theorem batch_writes_flat_names_only (page : option (list string)) (completed : list string)
    (net : string -> nat -> attempt content) (download_dir : string)
    (max_workers : option Z) σ :
  let σ' :=
    (download_pdfs_from_url makedirs page completed net download_dir max_workers σ).2 in
  (forall p, p ∉ (fun url => local_filename url download_dir) <$> completed ->
             σ' !! p = σ !! p) ∧
  (forall p, has_char "/" p = true -> σ' !! p = σ !! p).
Proof.
  intros σ'. subst σ'. split; intros p Hp.
  - apply download_batch_frame, Hp.
  - apply download_batch_keeps_directories, Hp.
Qed.

(** X23.  Two ways in which [download_pdfs_from_url] fetches nothing
    although the page holds links: when [os.makedirs] raises, the exception
    leaves the function, as the call stands before the [try]; when the pool
    size is zero or less, the ValueError of the pool is caught, [None] is
    returned, and no unit has run.  No file is changed in either case. *)
Theorem download_needs_directory_and_pool (page : option (list string))
    (completed : list string) (net : string -> nat -> attempt content)
    (download_dir : string) (max_workers : option Z) σ :
  match makedirs download_dir with
  | Some e =>
      download_pdfs_from_url makedirs page completed net download_dir max_workers σ
      = (Raise e, σ)
  | None =>
      forall w, max_workers = Some w -> w <= 0 ->
        download_pdfs_from_url makedirs page completed net download_dir max_workers σ
        = (Ret (None, None), σ)
  end.
Proof.
  destruct (makedirs download_dir) as [e |] eqn:Hdir.
  - apply DownloadFacts.download_makedirs_raises, Hdir.
  - intros w -> Hw. apply DownloadFacts.download_without_pool; auto.
Qed.
End Retry.

(** [--workers 0]: the links are found and nothing is fetched. *)
Lemma download_needs_directory_and_pool_witness :
  download_pdfs_from_url no_error (Some sample_urls) sample_urls sample_net "dl" (Some 0) ∅
  = (Ret (None, None), ∅).
Proof.
  apply (download_needs_directory_and_pool no_error (Some sample_urls) sample_urls
           sample_net "dl" (Some 0) ∅ 0 eq_refl).
  lia.
Defined.

Lemma download_pdf_bounded_passes_witness :
  download_pdf (sample_net "http://h/c.pdf") "http://h/c.pdf" "dl" 2 ∅
  = download_pdf (fun n => if (n <? 2)%nat then RequestFailed (Some "%PD") else Fetched "%PDF-c")
      "http://h/c.pdf" "dl" 2 ∅.
Proof.
  apply download_pdf_bounded_passes. intros i Hi.
  destruct i as [|[|i]]; try reflexivity. lia.
Defined.

End DownloadMore.

(* ===================================================================== *)
(** * Directory listings                                                   *)
(* ===================================================================== *)

Module PipelineMore.
Import FS Download Merge Pipeline Preds Samples.

Lemma strip_prefix_Some (pre s rest : string) :
  strip_prefix pre s = Some rest -> s = (pre ++ rest)%string.
Proof.
  revert s. induction pre as [|a pre IH]; intros s; simpl.
  - intros [= ->]. reflexivity.
  - destruct s as [|b s]; [discriminate |].
    destruct (Ascii.eqb_spec a b) as [-> | _]; [| discriminate].
    intros H. rewrite (IH _ H). reflexivity.
Qed.

Lemma string_app_assoc (a b c : string) : ((a ++ b) ++ c = a ++ b ++ c)%string.
Proof.
  induction a as [|x a IH]; [reflexivity |].
  change (String x ((a ++ b) ++ c) = String x (a ++ b ++ c))%string.
  rewrite IH. reflexivity.
Qed.

Lemma entry_of_path (dir path name : string) :
  entry_of dir path = Some name ->
  path = (dir ++ "/" ++ name)%string ∧ name <> "" ∧ has_char "/" name = false.
Proof.
  unfold entry_of. destruct (strip_prefix (dir ++ "/") path) as [rest |] eqn:E; [| discriminate].
  apply strip_prefix_Some in E.
  destruct (String.eqb_spec rest "") as [-> | Hne]; simpl; [discriminate |].
  destruct (has_char "/" rest) eqn:Hs; [discriminate |].
  intros [= <-]. rewrite string_app_assoc in E. auto.
Qed.

Lemma has_char_dir_entry (dir name : string) :
  has_char "/" (dir ++ "/" ++ name) = true.
Proof.
  rewrite DownloadFacts.has_char_app. change ("/" ++ name)%string with (String "/" name).
  cbn [has_char]. rewrite Ascii.eqb_refl. apply orb_true_r.
Qed.

Lemma substring_one_has_char (c : ascii) (s : string) (n : nat) :
  substring n 1 s = String c EmptyString -> has_char c s = true.
Proof.
  revert n. induction s as [|b s IH]; intros [|n]; simpl; try discriminate.
  - destruct s; intros [= ->]; rewrite Ascii.eqb_refl; reflexivity.
  - intros H. rewrite (IH _ H). apply orb_true_r.
Qed.

Lemma py_endswith_has_char (s : string) :
  py_endswith s "/" = true -> has_char "/" s = true.
Proof.
  unfold py_endswith. intros H. apply andb_true_iff in H as [_ H].
  apply String.eqb_eq in H. eapply substring_one_has_char, H.
Qed.

(** A path joined to a non-empty directory lies inside some directory. *)
Lemma os_path_join_has_slash (dir name : string) :
  dir <> "" -> has_char "/" (os_path_join dir name) = true.
Proof.
  intros Hdir. unfold os_path_join.
  destruct (py_startswith name "/") eqn:Es.
  - unfold py_startswith in Es. destruct name as [|c name]; [discriminate |].
    cbn [String.prefix] in Es. destruct (ascii_dec "/" c) as [<- | _]; [| discriminate].
    cbn [has_char]. rewrite Ascii.eqb_refl. reflexivity.
  - destruct (String.eqb dir "" || py_endswith dir "/") eqn:E.
    + apply orb_true_iff in E as [E | E].
      * apply String.eqb_eq in E. contradiction.
      * rewrite DownloadFacts.has_char_app, (py_endswith_has_char _ E). reflexivity.
    + apply has_char_dir_entry.
Qed.

Section Listing.
Context {content : Type}.
Variable nbytes : content -> Z.
Variable pdf_pages : content -> option Z.
Implicit Types (σ : fs content).

Lemma elem_of_listdir (dir name : string) σ :
  name ∈ listdir dir σ <->
  exists c, σ !! (dir ++ "/" ++ name)%string = Some c ∧
            entry_of dir (dir ++ "/" ++ name) = Some name.
Proof.
  unfold listdir. rewrite list_elem_of_omap. split.
  - intros ([path c] & Hin & Hentry). simpl in Hentry.
    apply elem_of_map_to_list in Hin.
    destruct (entry_of_path _ _ _ Hentry) as (-> & _). eauto.
  - intros (c & Hc & Hentry). exists ((dir ++ "/" ++ name)%string, c).
    split; [apply elem_of_map_to_list, Hc | exact Hentry].
Qed.

(** Two file systems that agree on every path holding a separator list the
    same entries in every directory. *)
Lemma listdir_agree (dir name : string) σ σ' :
  (forall p, has_char "/" p = true -> σ' !! p = σ !! p) ->
  name ∈ listdir dir σ' -> name ∈ listdir dir σ.
Proof.
  intros Hagree. rewrite !elem_of_listdir. intros (c & Hc & Hentry).
  exists c. split; [| exact Hentry].
  rewrite <- Hagree; [exact Hc | apply has_char_dir_entry].
Qed.

Lemma elem_of_all_files (dir f : string) σ :
  f ∈ all_files dir σ <->
  exists name, f = os_path_join dir name ∧
               py_endswith (py_lower name) ".pdf" = true ∧ name ∈ listdir dir σ.
Proof.
  unfold all_files. rewrite list_elem_of_fmap. split.
  - intros (name & -> & Hin). apply list_elem_of_In, filter_In in Hin as [Hin Hpdf].
    exists name. repeat split; auto. apply list_elem_of_In, Hin.
  - intros (name & -> & Hpdf & Hin). exists name. split; [reflexivity |].
    apply list_elem_of_In, filter_In. split; [apply list_elem_of_In, Hin | exact Hpdf].
Qed.

Lemma valid_pdfs_nil (l : list pdf_info) :
  valid_pdfs l = [] <-> forall p, p ∈ l -> file_size p <= 0.
Proof.
  induction l as [|p l IH]; simpl.
  - split; [intros _ q Hq; inversion Hq | reflexivity].
  - unfold is_valid. destruct (Z.ltb_spec 0 (file_size p)) as [Hp | Hp].
    + split; [discriminate |]. intros H. specialize (H p ltac:(left)). lia.
    + rewrite IH. split.
      * intros H q Hq. apply elem_of_cons in Hq as [-> | Hq]; auto.
      * intros H q Hq. apply H. right. exact Hq.
Qed.

End Listing.

End PipelineMore.

(* ===================================================================== *)
(** * Further properties of the compression stage                          *)
(* ===================================================================== *)

Module CompressMore.
Import FS Compress Samples CompressFacts.

(** ** The scratch path of the second pass *)

(** Replacing never shortens (up to the characters still to be skipped). *)
Lemma replace_from_length_ge (s : string) :
  forall skip : nat,
    (String.length s
     <= String.length (replace_from ".pdf" "_more_compressed.pdf" skip s) + skip)%nat.
Proof.
  induction s as [|c s IH]; intros skip; [simpl; lia |].
  cbn [replace_from]. destruct skip as [|skip].
  - destruct (String.prefix ".pdf" (String c s)).
    + rewrite DownloadMore.string_length_app. specialize (IH 3%nat). simpl in *. lia.
    + specialize (IH 0%nat). simpl in *. lia.
  - specialize (IH skip). simpl in *. lia.
Qed.

(** A path ending in [.pdf] gets strictly longer. *)
Lemma replace_from_length_gt (stem : string) :
  forall skip : nat,
    (skip <= String.length stem)%nat ->
    (String.length (stem ++ ".pdf")
     < String.length (replace_from ".pdf" "_more_compressed.pdf" skip (stem ++ ".pdf")) + skip)%nat.
Proof.
  induction stem as [|c stem IH]; intros skip Hskip.
  - simpl in Hskip. assert (skip = 0%nat) as -> by lia. vm_compute. lia.
  - change (String c stem ++ ".pdf")%string with (String c (stem ++ ".pdf")).
    cbn [replace_from]. destruct skip as [|skip].
    + destruct (String.prefix ".pdf" (String c (stem ++ ".pdf"))).
      * rewrite DownloadMore.string_length_app.
        pose proof (replace_from_length_ge (stem ++ ".pdf") 3) as Hge.
        simpl String.length in *. lia.
      * specialize (IH 0%nat ltac:(lia)). simpl String.length in *. lia.
    + simpl in Hskip. specialize (IH skip ltac:(lia)). simpl String.length in *. lia.
Qed.

Lemma more_aggressive_output_fresh (stem : string) :
  more_aggressive_output (stem ++ ".pdf") <> (stem ++ ".pdf")%string.
Proof.
  intros E. pose proof (replace_from_length_gt stem 0 ltac:(lia)) as Hgt.
  unfold more_aggressive_output, py_replace in E. rewrite E in Hgt. lia.
Qed.

Section Filter.
Context {content : Type}.
Variable nbytes : content -> Z.
Variable gs : list string -> option content -> gs_exit content.
Variable copy_error : string -> option exn.
Implicit Types (σ : fs content) (c out : content).

(** X11.  On a readable, non-empty input and a distinct output path,
    [compress_pdf] changes nothing but the output path and ends in one of
    three ways: with the filter's output there and
    [(True, original, compressed)] when the filter exits with status 0;
    with an unchanged copy of the input there and
    [(False, original, original)] when it does not and the copy can be
    created; and by raising the exception of the copy, from inside the
    handler, when it cannot, leaving no more than what the filter had
    written. *)
Theorem compress_pdf_outcomes (input_file output_file quality : string) σ c :
  σ !! input_file = Some c -> input_file <> output_file -> nbytes c <> 0 ->
  match gs (compress_cmd (gs_setting quality) output_file input_file) (Some c) with
  | GsDone out =>
      compress_pdf nbytes gs copy_error input_file output_file quality σ
      = (Ret (true, nbytes c, nbytes out), <[output_file := out]> σ)
  | GsFailed partial =>
      match copy_error output_file with
      | None =>
          compress_pdf nbytes gs copy_error input_file output_file quality σ
          = (Ret (false, nbytes c, nbytes c), <[output_file := c]> σ)
      | Some e =>
          compress_pdf nbytes gs copy_error input_file output_file quality σ
          = (Raise e, match partial with
                      | Some part => <[output_file := part]> σ
                      | None => σ
                      end)
      end
  end.
Proof.
  intros Hin Hne Hsize.
  destruct (gs _ (Some c)) as [out | partial] eqn:Hgs.
  - apply compress_pdf_done; auto.
  - destruct (copy_error output_file) as [e |] eqn:Hcopy.
    + eapply compress_pdf_copy_failed; eauto.
    + eapply compress_pdf_failed; eauto.
Qed.

(** X12.  An empty input file makes both compressors raise
    ZeroDivisionError once the filter has succeeded: the reduction
    percentage divides by the original size; the filter's output is already
    written by then. *)
Theorem empty_input_raises_zero_division (input_file output_file quality : string) σ c :
  σ !! input_file = Some c -> input_file <> output_file -> nbytes c = 0 ->
  (forall out,
      gs (compress_cmd (gs_setting quality) output_file input_file) (Some c) = GsDone out ->
      compress_pdf nbytes gs copy_error input_file output_file quality σ
      = (Raise ZeroDivisionError, <[output_file := out]> σ)) ∧
  (forall out,
      gs (super_cmd output_file input_file) (Some c) = GsDone out ->
      super_compress_pdf nbytes gs input_file output_file σ
      = (Raise ZeroDivisionError, <[output_file := out]> σ)).
Proof.
  intros Hin Hne Hsize. split; intros out Hgs.
  - unfold compress_pdf. run. rewrite Hin, Hgs.
    rewrite lookup_insert_ne, Hin by congruence. rewrite lookup_insert_eq.
    rewrite Hsize. reflexivity.
  - unfold super_compress_pdf. run. rewrite Hin. run. rewrite Hin, Hgs. run.
    rewrite lookup_insert_eq. run. rewrite Hsize. reflexivity.
Qed.

(** X13.  A missing input file makes both compressors raise
    FileNotFoundError: [super_compress_pdf] at once, without running the
    filter and without touching any file; [compress_pdf] after the filter
    ran, whatever its exit status. *)
Theorem missing_input_raises (input_file output_file quality : string) σ :
  σ !! input_file = None -> input_file <> output_file ->
  super_compress_pdf nbytes gs input_file output_file σ = (Raise FileNotFoundError, σ) ∧
  (compress_pdf nbytes gs copy_error input_file output_file quality σ).1 = Raise FileNotFoundError.
Proof.
  intros Hin Hne. split.
  - unfold super_compress_pdf. run. rewrite Hin. reflexivity.
  - unfold compress_pdf. run. rewrite Hin.
    destruct (gs _ None) as [out | [part |]].
    + rewrite lookup_insert_ne, Hin by congruence. reflexivity.
    + rewrite lookup_insert_ne, Hin by congruence. reflexivity.
    + rewrite Hin. reflexivity.
Qed.

(** X14.  For every output path that ends in a lower-case [.pdf], a first
    result over 100 MB is followed by the second pass into a scratch path
    different from the output path, and then: a strictly smaller second
    result replaces the first one; an equal or larger one is deleted and the
    first result stays; a failed second pass leaves the first result in
    place and [(False, original size)] is returned.  After a successful
    second pass the scratch path is gone. *)
Theorem two_pass_policy_for_pdf_paths (input_file stem : string) σ c first :
  let output_file := (stem ++ ".pdf")%string in
  σ !! input_file = Some c -> nbytes c <> 0 ->
  gs (super_cmd output_file input_file) (Some c) = GsDone first ->
  over_100mb (nbytes first) = true ->
  more_aggressive_output output_file <> output_file ∧
  match gs (super_cmd2 (more_aggressive_output output_file) input_file)
           (<[output_file := first]> σ !! input_file) with
  | GsDone second =>
      exists σ',
        super_compress_pdf nbytes gs input_file output_file σ
        = (Ret (if nbytes second <? nbytes first
                then (under_100mb (nbytes second), nbytes second)
                else (false, nbytes first)), σ') ∧
        σ' !! output_file
        = Some (if nbytes second <? nbytes first then second else first) ∧
        σ' !! more_aggressive_output output_file = None
  | GsFailed partial =>
      exists σ',
        super_compress_pdf nbytes gs input_file output_file σ
        = (Ret (false, nbytes c), σ') ∧
        σ' !! output_file = Some first
  end.
Proof.
  intros output_file Hin Hsize Hgs Hover.
  split; [apply more_aggressive_output_fresh |].
  apply (super_compress_two_pass nbytes gs input_file output_file σ c first); auto.
  apply more_aggressive_output_fresh.
Qed.

(** X15.  A first result that is not over 100 MB ends the call after one
    pass: the result is committed and the flag tells whether it is below
    100 MB.  A result of exactly 100 MB is neither escalated nor reported as
    under the limit. *)
Theorem one_pass_when_not_over_limit (input_file output_file : string) σ c out :
  σ !! input_file = Some c -> nbytes c <> 0 ->
  gs (super_cmd output_file input_file) (Some c) = GsDone out ->
  nbytes out <= hundred_mb ->
  super_compress_pdf nbytes gs input_file output_file σ
  = (Ret (under_100mb (nbytes out), nbytes out), <[output_file := out]> σ) ∧
  (nbytes out = hundred_mb -> under_100mb (nbytes out) = false) ∧
  (nbytes out < hundred_mb -> under_100mb (nbytes out) = true).
Proof.
  intros Hin Hsize Hgs Hle. split; [| split].
  - apply (super_compress_one_pass nbytes gs input_file output_file σ c out); auto.
    unfold over_100mb. lia.
  - intros ->. reflexivity.
  - intros Hlt. unfold under_100mb. lia.
Qed.

Lemma super_compress_flag_sound_aux (input_file output_file : string) σ :
  match super_compress_pdf nbytes gs input_file output_file σ with
  | (Ret (true, size), σ') =>
      exists c, σ' !! output_file = Some c ∧ nbytes c = size ∧ size < hundred_mb
  | _ => True
  end.
Proof.
  unfold super_compress_pdf, second_pass. run.
  destruct (σ !! input_file) as [c |] eqn:Hin; run; [| exact I].
  rewrite Hin.
  destruct (gs (super_cmd output_file input_file) (Some c)) as [first | [part |]]; run;
    try exact I.
  rewrite lookup_insert_eq. run.
  destruct (nbytes c =? 0); run; [exact I |].
  destruct (over_100mb (nbytes first)) eqn:Hover; run.
  2:{ destruct (under_100mb (nbytes first)) eqn:Hu; [| exact I].
      exists first. rewrite lookup_insert_eq. unfold under_100mb in Hu.
      split; [reflexivity | lia]. }
  remember (more_aggressive_output output_file) as more eqn:Hmore.
  destruct (gs (super_cmd2 more input_file) _) as [second | [part |]]; run; try exact I.
  rewrite lookup_insert_eq. run.
  destruct (nbytes second <? nbytes first) eqn:Hlt; run.
  - destruct (decide (more = output_file)) as [E | Hne].
    + rewrite E. rewrite lookup_insert_eq. run. rewrite lookup_delete_eq. run. exact I.
    + rewrite lookup_insert_ne, lookup_insert_eq by exact Hne. run.
      rewrite lookup_delete_ne, lookup_insert_eq by congruence. run.
      destruct (under_100mb (nbytes second)) eqn:Hu; [| exact I].
      exists second. rewrite lookup_insert_eq. unfold under_100mb in Hu.
      split; [reflexivity | lia].
  - rewrite lookup_insert_eq. rewrite bool_decide_eq_true_2 by eauto. run.
    rewrite lookup_insert_eq. run.
    replace (under_100mb (nbytes first)) with false; [exact I |].
    unfold over_100mb, under_100mb in *. lia.
Qed.

(** X16.  Whenever [super_compress_pdf] reports success, the output path
    holds a file of the reported size, and that size is below 100 MB; this
    needs no assumption on the paths or on the filter. *)
Theorem super_compress_success_is_sound (input_file output_file : string) σ
    (size : Z) (σ' : fs content) :
  super_compress_pdf nbytes gs input_file output_file σ = (Ret (true, size), σ') ->
  exists c, σ' !! output_file = Some c ∧ nbytes c = size ∧ size < hundred_mb.
Proof.
  intros H. pose proof (super_compress_flag_sound_aux input_file output_file σ) as Haux.
  rewrite H in Haux. exact Haux.
Qed.

Lemma super_compress_frame_aux (input_file output_file : string) σ (p : string) :
  p <> output_file -> p <> more_aggressive_output output_file ->
  (super_compress_pdf nbytes gs input_file output_file σ).2 !! p = σ !! p.
Proof.
  intros Hp1 Hp2. unfold super_compress_pdf, second_pass. run.
  destruct (σ !! input_file) as [c |] eqn:Hin; run; [| reflexivity].
  rewrite Hin.
  destruct (gs (super_cmd output_file input_file) (Some c)) as [first | [part |]]; run;
    try reflexivity; try (simpl; rewrite lookup_insert_ne by congruence; reflexivity).
  rewrite lookup_insert_eq. run.
  destruct (nbytes c =? 0); run; [simpl; rewrite lookup_insert_ne by congruence; reflexivity |].
  destruct (over_100mb (nbytes first)) eqn:Hover; run.
  2:{ simpl. rewrite lookup_insert_ne by congruence. reflexivity. }
  remember (more_aggressive_output output_file) as more eqn:Hmore.
  destruct (gs (super_cmd2 more input_file) _) as [second | [part |]]; run;
    try (simpl; rewrite ?lookup_insert_ne by congruence; reflexivity).
  rewrite lookup_insert_eq. run.
  destruct (nbytes second <? nbytes first) eqn:Hlt; run.
  - destruct (decide (more = output_file)) as [E | Hne].
    + rewrite E. rewrite lookup_insert_eq. run. rewrite lookup_delete_eq. run. simpl.
      rewrite lookup_delete_ne, !lookup_insert_ne by congruence. reflexivity.
    + rewrite lookup_insert_ne, lookup_insert_eq by exact Hne. run.
      rewrite lookup_delete_ne, lookup_insert_eq by congruence. run. simpl.
      rewrite lookup_insert_ne, !lookup_delete_ne, !lookup_insert_ne by congruence.
      reflexivity.
  - rewrite lookup_insert_eq. rewrite bool_decide_eq_true_2 by eauto. run.
    rewrite lookup_insert_eq. run. simpl.
    rewrite lookup_delete_ne, !lookup_insert_ne by congruence. reflexivity.
Qed.

Lemma compress_pdf_frame_aux (input_file output_file quality : string) σ (p : string) :
  p <> output_file ->
  (compress_pdf nbytes gs copy_error input_file output_file quality σ).2 !! p = σ !! p.
Proof.
  intros Hp. unfold compress_pdf. run.
  destruct (gs _ (σ !! input_file)) as [out | [part |]]; run.
  - destruct (<[output_file:=out]> σ !! input_file); run;
      [| simpl; rewrite lookup_insert_ne by congruence; reflexivity].
    rewrite lookup_insert_eq. run.
    destruct (nbytes c =? 0); run; simpl; rewrite lookup_insert_ne by congruence; reflexivity.
  - destruct (<[output_file:=part]> σ !! input_file); run;
      [| simpl; rewrite lookup_insert_ne by congruence; reflexivity].
    destruct (decide (input_file = output_file)); run;
      [simpl; rewrite lookup_insert_ne by congruence; reflexivity |].
    destruct (copy_error output_file); run;
      [simpl; rewrite lookup_insert_ne by congruence; reflexivity |].
    destruct (<[output_file:=c]> (<[output_file:=part]> σ) !! input_file); run; simpl;
      rewrite !lookup_insert_ne by congruence; reflexivity.
  - destruct (σ !! input_file); run; [| reflexivity].
    destruct (decide (input_file = output_file)); run; [reflexivity |].
    destruct (copy_error output_file); run; [reflexivity |].
    destruct (<[output_file:=c]> σ !! input_file); run; simpl;
      rewrite !lookup_insert_ne by congruence; reflexivity.
Qed.

(** X17.  The compressors write nowhere else: [compress_pdf] changes no
    path but the output path, [super_compress_pdf] no path but the output
    path and its scratch path; in particular the input file is kept when it
    is neither of them, whether the call returns or raises. *)
Theorem compressors_touch_only_their_outputs (input_file output_file quality : string) σ
    (p : string) :
  p <> output_file ->
  (compress_pdf nbytes gs copy_error input_file output_file quality σ).2 !! p = σ !! p ∧
  (p <> more_aggressive_output output_file ->
   (super_compress_pdf nbytes gs input_file output_file σ).2 !! p = σ !! p).
Proof.
  intros Hp. split; [apply compress_pdf_frame_aux, Hp |].
  intros Hp2. apply super_compress_frame_aux; assumption.
Qed.
End Filter.

(** The filter fails and the output directory does not exist. *)
Lemma compress_pdf_outcomes_witness :
  compress_pdf id (sized_gs None None) read_only "in/a.pdf" "out/a.pdf" "screen"
    (one_file "in" "a.pdf" (mb 50))
  = (Raise FileNotFoundError, one_file "in" "a.pdf" (mb 50)).
Proof.
  apply (compress_pdf_outcomes id (sized_gs None None) read_only "in/a.pdf" "out/a.pdf"
           "screen" (one_file "in" "a.pdf" (mb 50)) (mb 50)).
  - reflexivity.
  - discriminate.
  - vm_compute. discriminate.
Defined.

Lemma empty_input_raises_zero_division_witness :
  compress_pdf id (sized_gs (Some 300) None) no_error "in/a.pdf" "out/a.pdf" "screen"
    (one_file "in" "a.pdf" 0)
  = (Raise ZeroDivisionError, <["out/a.pdf" := 300]> (one_file "in" "a.pdf" 0)).
Proof.
  apply (proj1 (empty_input_raises_zero_division id (sized_gs (Some 300) None) no_error
                  "in/a.pdf" "out/a.pdf" "screen" (one_file "in" "a.pdf" 0) 0
                  eq_refl ltac:(discriminate) eq_refl)).
  reflexivity.
Defined.

Lemma missing_input_raises_witness :
  super_compress_pdf id (sized_gs (Some 300) None) "in/b.pdf" "out/b.pdf"
    (one_file "in" "a.pdf" (mb 50))
  = (Raise FileNotFoundError, one_file "in" "a.pdf" (mb 50)).
Proof.
  apply (proj1 (missing_input_raises id (sized_gs (Some 300) None) no_error
                  "in/b.pdf" "out/b.pdf" "screen" (one_file "in" "a.pdf" (mb 50))
                  eq_refl ltac:(discriminate))).
Defined.

Lemma two_pass_policy_for_pdf_paths_witness :
  more_aggressive_output "out/big.pdf" <> "out/big.pdf".
Proof.
  apply (proj1 (two_pass_policy_for_pdf_paths id (sized_gs (Some (mb 120)) (Some (mb 95)))
                  "in/big.pdf" "out/big" (one_file "in" "big.pdf" (mb 150)) (mb 150) (mb 120)
                  eq_refl ltac:(vm_compute; discriminate) eq_refl eq_refl)).
Defined.

Lemma one_pass_when_not_over_limit_witness :
  super_compress_pdf id (sized_gs (Some (mb 100)) None) "in/big.pdf" "out/big.pdf"
    (one_file "in" "big.pdf" (mb 150))
  = (Ret (false, mb 100), <["out/big.pdf" := mb 100]> (one_file "in" "big.pdf" (mb 150))).
Proof.
  apply (proj1 (one_pass_when_not_over_limit id (sized_gs (Some (mb 100)) None)
                  "in/big.pdf" "out/big.pdf" (one_file "in" "big.pdf" (mb 150)) (mb 150) (mb 100)
                  eq_refl ltac:(vm_compute; discriminate) eq_refl
                  ltac:(vm_compute; discriminate))).
Defined.

Lemma super_compress_success_is_sound_witness :
  exists c, (<["out/big.pdf" := mb 95]> (one_file "in" "big.pdf" (mb 150)) : gmap string Z)
              !! "out/big.pdf" = Some c ∧ id c = mb 95 ∧ mb 95 < hundred_mb.
Proof.
  apply (super_compress_success_is_sound id (sized_gs (Some (mb 120)) (Some (mb 95)))
           "in/big.pdf" "out/big.pdf" (one_file "in" "big.pdf" (mb 150))).
  vm_compute. reflexivity.
Defined.

Lemma compressors_touch_only_their_outputs_witness :
  (compress_pdf id (sized_gs None None) no_error "in/a.pdf" "out/a.pdf" "screen"
     (one_file "in" "a.pdf" (mb 50))).2 !! "in/a.pdf"
  = one_file "in" "a.pdf" (mb 50) !! "in/a.pdf".
Proof.
  apply (proj1 (compressors_touch_only_their_outputs id (sized_gs None None) no_error
                  "in/a.pdf" "out/a.pdf" "screen" (one_file "in" "a.pdf" (mb 50))
                  "in/a.pdf" ltac:(discriminate))).
Defined.

End CompressMore.

(* ===================================================================== *)
(** * Properties of the merging loop                                       *)
(* ===================================================================== *)

Module MergeWriteFacts.
Import FS Download Merge Pipeline MergeWrite Preds Samples.

(** ** Output names *)

Lemma digit_char_inj (a b : nat) :
  (a < 10)%nat -> (b < 10)%nat -> digit_char a = digit_char b -> a = b.
Proof.
  intros Ha Hb H. unfold digit_char in H.
  apply (f_equal nat_of_ascii) in H.
  rewrite !nat_ascii_embedding in H by lia. lia.
Qed.

Lemma pretty_N_go_length (x : N) :
  forall s, (String.length s <= String.length (pretty_N_go x s))%nat.
Proof.
  induction (N.lt_wf_0 x) as [x _ IH]; intros s.
  destruct (decide (x = 0)%N) as [-> | Hx].
  - rewrite pretty_N_go_0. lia.
  - rewrite pretty_N_go_step by lia.
    etransitivity; [| apply IH; apply N.div_lt; lia]. simpl. lia.
Qed.

Lemma pretty_length_ge_4 (n : nat) :
  (1000 <= n)%nat -> (4 <= String.length (pretty n))%nat.
Proof.
  intros Hn. unfold pretty, pretty_nat, pretty, pretty_N.
  set (x := N.of_nat n). assert (Hx : (1000 <= x)%N) by lia.
  destruct (decide (x = 0)%N); [lia |].
  assert (H1 : (100 <= x `div` 10)%N) by (apply N.div_le_lower_bound; lia).
  assert (H2 : (10 <= (x `div` 10) `div` 10)%N) by (apply N.div_le_lower_bound; lia).
  assert (H3 : (1 <= ((x `div` 10) `div` 10) `div` 10)%N)
    by (apply N.div_le_lower_bound; lia).
  rewrite pretty_N_go_step by lia.
  rewrite pretty_N_go_step by lia.
  rewrite pretty_N_go_step by lia.
  rewrite pretty_N_go_step by lia.
  etransitivity; [| apply pretty_N_go_length]. simpl. lia.
Qed.

Lemma three_digits_inj (a b : nat) :
  (a / 100 = b / 100)%nat -> (a / 10 mod 10 = b / 10 mod 10)%nat ->
  (a mod 10 = b mod 10)%nat -> a = b.
Proof.
  intros H2 H1 H0.
  pose proof (Nat.Div0.div_div a 10 10) as Ha2.
  pose proof (Nat.Div0.div_div b 10 10) as Hb2.
  change (10 * 10)%nat with 100%nat in *.
  pose proof (Nat.div_mod_eq a 10) as Ha0. pose proof (Nat.div_mod_eq b 10) as Hb0.
  pose proof (Nat.div_mod_eq (a / 10) 10) as Ha1.
  pose proof (Nat.div_mod_eq (b / 10) 10) as Hb1.
  rewrite Ha2 in Ha1. rewrite Hb2 in Hb1. rewrite <- H2, <- H1 in Hb1.
  rewrite <- H0 in Hb0. lia.
Qed.

Lemma format_03d_inj (a b : nat) : format_03d a = format_03d b -> a = b.
Proof.
  unfold format_03d.
  destruct (Nat.ltb_spec a 1000) as [Ha | Ha], (Nat.ltb_spec b 1000) as [Hb | Hb].
  - intros H. injection H as H2 H1 H0.
    apply three_digits_inj.
    + apply digit_char_inj; [apply Nat.Div0.div_lt_upper_bound; lia .. | exact H2].
    + apply digit_char_inj; [apply Nat.mod_upper_bound; lia .. | exact H1].
    + apply digit_char_inj; [apply Nat.mod_upper_bound; lia .. | exact H0].
  - intros H. apply (f_equal String.length) in H.
    pose proof (pretty_length_ge_4 b Hb) as Hlen. cbn [String.length] in H.
    rewrite <- H in Hlen. lia.
  - intros H. apply (f_equal String.length) in H.
    pose proof (pretty_length_ge_4 a Ha) as Hlen. cbn [String.length] in H.
    rewrite H in Hlen. lia.
  - apply (inj pretty).
Qed.

Lemma string_app_inv_head (a b c : string) : (a ++ b = a ++ c)%string -> b = c.
Proof. apply (inj (String.append a)). Qed.

Lemma string_app_inv_tail (a b c : string) : (a ++ c = b ++ c)%string -> a = b.
Proof.
  revert b. induction a as [|x a IH]; intros [|y b] H.
  - reflexivity.
  - exfalso. apply (f_equal String.length) in H.
    rewrite !DownloadMore.string_length_app in H. cbn [String.length] in H. lia.
  - exfalso. apply (f_equal String.length) in H.
    rewrite !DownloadMore.string_length_app in H. cbn [String.length] in H. lia.
  - change (String x (a ++ c) = String y (b ++ c))%string in H.
    injection H as -> H. rewrite (IH b H). reflexivity.
Qed.

(** Distinct buckets never share an output file. *)
Lemma output_file_inj (output_dir : string) (i j : nat) :
  output_file output_dir i = output_file output_dir j -> i = j.
Proof.
  unfold output_file, os_path_join.
  change (py_startswith ("merged_" ++ format_03d (i + 1) ++ ".pdf") "/") with false.
  change (py_startswith ("merged_" ++ format_03d (j + 1) ++ ".pdf") "/") with false.
  cbv iota. intros H.
  assert (Hname : ("merged_" ++ format_03d (i + 1) ++ ".pdf"
                   = "merged_" ++ format_03d (j + 1) ++ ".pdf")%string).
  { destruct (String.eqb output_dir "" || py_endswith output_dir "/").
    - eapply string_app_inv_head, H.
    - apply string_app_inv_head in H. eapply (string_app_inv_head "/"), H. }
  apply string_app_inv_head, string_app_inv_tail, format_03d_inj in Hname. lia.
Qed.

(** ** The merging loop *)

Section Loop.
Context {content : Type}.
Variable nbytes : content -> Z.
Variable pdf_pages : content -> option Z.
Variable appends : content -> bool.
Variable pdf_write : string -> list content -> write_exit content.
Variable makedirs : string -> option exn.
Implicit Types (σ : fs content) (bs : list (list string)).

Lemma merge_pdf_bucket_frame (bucket : list string) (output : string) σ (p : string) :
  p <> output -> (merge_pdf_bucket appends pdf_write bucket output σ).2 !! p = σ !! p.
Proof.
  intros Hp. unfold merge_pdf_bucket.
  destruct (0 <? Z.of_nat (length (appended appends σ bucket))); [| reflexivity].
  destruct (pdf_write output _) as [out | [part |]]; simpl;
    rewrite ?lookup_insert_ne by congruence; reflexivity.
Qed.

(** What is appended depends on the bucket's own files only. *)
Lemma appended_agree (bucket : list string) σ σ' :
  (forall f, f ∈ bucket -> σ' !! f = σ !! f) ->
  appended appends σ' bucket = appended appends σ bucket.
Proof.
  induction bucket as [|f rest IH]; intros Hagree; [reflexivity |].
  simpl. rewrite (Hagree f) by left.
  rewrite IH by (intros g Hg; apply Hagree; right; exact Hg). reflexivity.
Qed.

Lemma merge_pdf_bucket_agree (bucket : list string) (output : string) σ σ' :
  (forall f, f ∈ bucket -> σ' !! f = σ !! f) -> σ' !! output = σ !! output ->
  (merge_pdf_bucket appends pdf_write bucket output σ').1
  = (merge_pdf_bucket appends pdf_write bucket output σ).1 ∧
  (merge_pdf_bucket appends pdf_write bucket output σ').2 !! output
  = (merge_pdf_bucket appends pdf_write bucket output σ).2 !! output.
Proof.
  intros Hfiles Hout. unfold merge_pdf_bucket. rewrite (appended_agree _ _ _ Hfiles).
  destruct (0 <? Z.of_nat (length (appended appends σ bucket))); [| auto].
  destruct (pdf_write output _) as [out | [part |]]; simpl;
    rewrite ?lookup_insert_eq; auto.
Qed.

Lemma merge_pdf_bucket_empty (output : string) σ :
  merge_pdf_bucket appends pdf_write [] output σ = (false, σ).
Proof. reflexivity. Qed.

(** The loop writes under output names of its own range only. *)
Lemma merge_buckets_frame (output_dir : string) bs :
  forall (i : nat) (merged : Z) σ (p : string),
    (forall j, (i <= j < i + length bs)%nat -> p <> output_file output_dir j) ->
    (merge_buckets appends pdf_write output_dir i bs merged σ).2 !! p = σ !! p.
Proof.
  induction bs as [|bucket rest IH]; intros i merged σ p Hp; [reflexivity |].
  cbn [merge_buckets]. simpl length in Hp.
  destruct bucket as [|f bucket].
  - apply IH. intros j Hj. apply Hp. lia.
  - destruct (merge_pdf_bucket appends pdf_write (f :: bucket) (output_file output_dir i) σ)
      as [ok σ1] eqn:E.
    rewrite IH by (intros j Hj; apply Hp; lia).
    pose proof (merge_pdf_bucket_frame (f :: bucket) (output_file output_dir i) σ p) as Hf.
    rewrite E in Hf. apply Hf. apply Hp. lia.
Qed.

(** When no file of a bucket is an output file, the buckets do not
    interfere: each output and the counter are those of merging every bucket
    on the initial file system. *)
Lemma merge_buckets_independent (output_dir : string) bs :
  forall (i : nat) (merged : Z) σ0 σ,
    (forall f j, f ∈ concat bs -> f <> output_file output_dir j) ->
    (forall f, f ∈ concat bs -> σ !! f = σ0 !! f) ->
    (forall j, (i <= j)%nat -> σ !! output_file output_dir j = σ0 !! output_file output_dir j) ->
    (merge_buckets appends pdf_write output_dir i bs merged σ).1
    = merged + count_merged appends pdf_write output_dir i bs σ0 ∧
    forall j bucket,
      bs !! j = Some bucket ->
      (merge_buckets appends pdf_write output_dir i bs merged σ).2
        !! output_file output_dir (i + j)
      = (merge_pdf_bucket appends pdf_write bucket (output_file output_dir (i + j)) σ0).2
        !! output_file output_dir (i + j).
Proof.
  induction bs as [|bucket rest IH]; intros i merged σ0 σ Hdisj Hfiles Houts.
  - simpl. split; [lia | intros j b Hj; discriminate].
  - assert (Hhere : forall f, f ∈ bucket -> σ !! f = σ0 !! f).
    { intros f Hf. apply Hfiles. simpl. apply elem_of_app. left. exact Hf. }
    assert (Hdisj' : forall f j, f ∈ concat rest -> f <> output_file output_dir j).
    { intros f j Hf. apply Hdisj. simpl. apply elem_of_app. right. exact Hf. }
    destruct (merge_pdf_bucket_agree bucket (output_file output_dir i) σ0 σ Hhere
                (Houts i ltac:(lia))) as [Hok Hout].
    cbn [merge_buckets count_merged].
    assert (Hnext :
      forall merged' σ1,
        (forall p, p <> output_file output_dir i -> σ1 !! p = σ !! p) ->
        σ1 !! output_file output_dir i
        = (merge_pdf_bucket appends pdf_write bucket (output_file output_dir i) σ0).2
            !! output_file output_dir i ->
        (merge_buckets appends pdf_write output_dir (S i) rest merged' σ1).1
        = merged' + count_merged appends pdf_write output_dir (S i) rest σ0 ∧
        forall j b, (bucket :: rest) !! j = Some b ->
          (merge_buckets appends pdf_write output_dir (S i) rest merged' σ1).2
            !! output_file output_dir (i + j)
          = (merge_pdf_bucket appends pdf_write b (output_file output_dir (i + j)) σ0).2
            !! output_file output_dir (i + j)).
    { intros merged' σ1 Hframe Hi.
      destruct (IH (S i) merged' σ0 σ1 Hdisj') as [Hcount Hrest].
      - intros f Hf. rewrite Hframe; [apply Hfiles; simpl; apply elem_of_app; auto |].
        apply Hdisj'. exact Hf.
      - intros j Hj. rewrite Hframe; [apply Houts; lia |].
        intros E. apply output_file_inj in E. lia.
      - split; [exact Hcount |]. intros [|j] b Hb; simpl in Hb.
        + injection Hb as <-. rewrite Nat.add_0_r.
          rewrite merge_buckets_frame; [exact Hi |].
          intros j Hj E. apply output_file_inj in E. lia.
        + replace (i + S j)%nat with (S i + j)%nat by lia. apply Hrest. exact Hb. }
    destruct bucket as [|f bucket].
    + rewrite merge_pdf_bucket_empty. simpl fst.
      assert (Hi : σ !! output_file output_dir i
                   = (merge_pdf_bucket appends pdf_write [] (output_file output_dir i) σ0).2
                       !! output_file output_dir i).
      { rewrite merge_pdf_bucket_empty. simpl. apply Houts. lia. }
      destruct (Hnext merged σ (fun p _ => eq_refl) Hi) as [Hcount Hall].
      split; [rewrite Hcount; lia | exact Hall].
    + destruct (merge_pdf_bucket appends pdf_write (f :: bucket) (output_file output_dir i) σ)
        as [ok σ1] eqn:E.
      simpl in Hok, Hout. subst ok.
      destruct (Hnext (if (merge_pdf_bucket appends pdf_write (f :: bucket)
                             (output_file output_dir i) σ0).1
                       then merged + 1 else merged) σ1) as [Hcount Hall].
      * intros p Hp.
        pose proof (merge_pdf_bucket_frame (f :: bucket) (output_file output_dir i) σ p Hp) as Hf.
        rewrite E in Hf. exact Hf.
      * exact Hout.
      * split; [| exact Hall]. rewrite Hcount.
        destruct (merge_pdf_bucket appends pdf_write (f :: bucket)
                    (output_file output_dir i) σ0).1; lia.
Qed.

Lemma get_pdf_size_info_path σ (f : string) :
  pdf_path (get_pdf_size_info nbytes pdf_pages σ f) = f.
Proof.
  unfold get_pdf_size_info. destruct (σ !! f) as [c |]; [| reflexivity].
  destruct (pdf_pages c); reflexivity.
Qed.

(** The files of the buckets are files of the directory. *)
Lemma bucket_files_listed (pdf_dir : string) (k : Z) σ (st : state) (f : string) :
  merge_assign (get_pdf_size_info nbytes pdf_pages σ <$> all_files pdf_dir σ) k
    = Ret (Some st) ->
  f ∈ concat (buckets st) -> f ∈ all_files pdf_dir σ.
Proof.
  intros Hrun Hf.
  destruct (decide (1 <= k)) as [Hk | Hk].
  2:{ destruct (decide (valid_pdfs (get_pdf_size_info nbytes pdf_pages σ
                                      <$> all_files pdf_dir σ) = [])) as [Hv | Hv].
      - rewrite (MergeFacts.merge_assign_no_valid _ _ Hv) in Hrun. discriminate.
      - rewrite (MergeFacts.merge_assign_nonpositive_count _ k) in Hrun by (auto; lia).
        discriminate. }
  destruct (decide (valid_pdfs (get_pdf_size_info nbytes pdf_pages σ
                                  <$> all_files pdf_dir σ) = [])) as [Hv | Hv].
  { rewrite (MergeFacts.merge_assign_no_valid _ _ Hv) in Hrun. discriminate. }
  destruct (MergeFacts.merge_assign_tracks _ k Hk Hv) as (st' & ib & Hrun' & [Hb _] & _ & Hperm).
  rewrite Hrun in Hrun'. injection Hrun' as <-.
  rewrite Hb, MergeFacts.concat_paths, Hperm in Hf.
  apply list_elem_of_fmap in Hf as (info & -> & Hinfo).
  rewrite MergeFacts.valid_pdfs_filter in Hinfo.
  apply list_elem_of_filter in Hinfo as [_ Hinfo].
  apply list_elem_of_fmap in Hinfo as (g & -> & Hg).
  rewrite get_pdf_size_info_path. exact Hg.
Qed.

(** X18.  [merge_pdfs] writes nothing but its numbered outputs: every path
    that is not [merged_NNN.pdf] in the output directory keeps its content,
    the source documents among them; and once the directory is listed, the
    only exceptions that leave [merge_pdfs] are the one of [os.makedirs],
    when the output directory cannot be created, and the ValueError of a
    requested count below one: no failure to read, append or write a
    document leaves [merge_pdfs]. *)
Theorem merge_writes_only_numbered_outputs (pdf_dir output_dir : string) (k : Z) σ :
  (forall p, (forall j, p <> output_file output_dir j) ->
             (merge_pdfs_run nbytes pdf_pages appends pdf_write makedirs
                pdf_dir output_dir k σ).2 !! p
             = σ !! p) ∧
  match (merge_pdfs_run nbytes pdf_pages appends pdf_write makedirs
           pdf_dir output_dir k σ).1 with
  | Raise e =>
      makedirs output_dir = Some e ∨
      (makedirs output_dir = None ∧ e = ValueError ∧ k <= 0)
  | Ret _ => True
  end.
Proof.
  unfold merge_pdfs_run.
  destruct (all_files pdf_dir σ) as [|f fs] eqn:Efiles; [split; [reflexivity | exact I] |].
  rewrite <- Efiles.
  destruct (valid_pdfs (get_pdf_size_info nbytes pdf_pages σ <$> all_files pdf_dir σ))
    as [|v vs] eqn:Hvalid; [split; [reflexivity | exact I] |].
  assert (Hv : valid_pdfs (get_pdf_size_info nbytes pdf_pages σ <$> all_files pdf_dir σ)
               <> []) by (rewrite Hvalid; discriminate).
  destruct (makedirs output_dir) as [e |] eqn:Hdir; [split; [reflexivity | left; reflexivity] |].
  destruct (merge_assign _ k) as [[st |] | e] eqn:Hrun.
  - split; [| destruct (merge_buckets _ _ _ _ _ _ _); exact I].
    intros p Hp.
    pose proof (merge_buckets_frame output_dir (buckets st) 0 0 σ p
                  (fun j _ => Hp j)) as Hframe.
    destruct (merge_buckets _ _ _ _ _ _ _). exact Hframe.
  - split; [reflexivity | exact I].
  - split; [reflexivity |]. simpl. right. split; [reflexivity |].
    destruct (decide (1 <= k)) as [Hk | Hk].
    + destruct (MergeFacts.merge_assign_tracks _ k Hk Hv) as (st & ib & Hrun' & _).
      rewrite Hrun in Hrun'. discriminate.
    + rewrite (MergeFacts.merge_assign_nonpositive_count _ k) in Hrun by (auto; lia).
      injection Hrun as <-. split; [reflexivity | lia].
Qed.

(** X19.  When no source document of the directory carries the name of an
    output file, the directory holds a valid document, the output directory
    can be created and the count is at least one, the buckets are merged
    independently of one another: under the name of bucket [j] lies what
    merging that bucket alone on the initial files gives (the appendable
    files of the bucket, in bucket order), the printed number of merged
    files is the number of buckets whose own merge succeeds, and distinct
    buckets have distinct output files. *)
Theorem buckets_are_merged_independently (pdf_dir output_dir : string) (k : Z) σ :
  1 <= k ->
  valid_pdfs (get_pdf_size_info nbytes pdf_pages σ <$> all_files pdf_dir σ) <> [] ->
  (forall f j, f ∈ all_files pdf_dir σ -> f <> output_file output_dir j) ->
  makedirs output_dir = None ->
  exists st,
    merge_assign (get_pdf_size_info nbytes pdf_pages σ <$> all_files pdf_dir σ) k
      = Ret (Some st) ∧
    (merge_pdfs_run nbytes pdf_pages appends pdf_write makedirs pdf_dir output_dir k σ).1
      = Ret (Some (output_dir, count_merged appends pdf_write output_dir 0 (buckets st) σ)) ∧
    (forall j bucket,
        buckets st !! j = Some bucket ->
        (merge_pdfs_run nbytes pdf_pages appends pdf_write makedirs pdf_dir output_dir k σ).2
          !! output_file output_dir j
        = (merge_pdf_bucket appends pdf_write bucket (output_file output_dir j) σ).2
          !! output_file output_dir j) ∧
    (forall i j, output_file output_dir i = output_file output_dir j -> i = j).
Proof.
  intros Hk Hv Hdisj Hdir.
  destruct (MergeFacts.merge_assign_tracks _ k Hk Hv) as (st & ib & Hrun & _).
  exists st. split; [exact Hrun |].
  assert (Hfiles : forall f j, f ∈ concat (buckets st) -> f <> output_file output_dir j).
  { intros f j Hf. apply Hdisj. eapply bucket_files_listed; eauto. }
  destruct (merge_buckets_independent output_dir (buckets st) 0 0 σ σ Hfiles)
    as [Hcount Hout]; auto.
  unfold merge_pdfs_run. rewrite Hrun, Hdir.
  destruct (all_files pdf_dir σ) as [|f fs] eqn:Efiles.
  { exfalso. apply Hv. reflexivity. }
  destruct (valid_pdfs _) as [|v vs]; [congruence |].
  destruct (merge_buckets appends pdf_write output_dir 0 (buckets st) 0 σ) as [merged σ'].
  simpl in Hcount, Hout. subst merged.
  split; [reflexivity |]. split; [| apply output_file_inj].
  intros j bucket Hj. apply (Hout j bucket Hj).
Qed.
End Loop.

Lemma merge_writes_only_numbered_outputs_witness :
  (merge_pdfs_run id one_page (fun _ => true) (fun _ docs => Wrote (foldr Z.add 0 docs))
     no_error "in" "Merged_PDFs" 2
     (<["in/a.pdf" := 30]> (<["in/b.pdf" := 20]> (<["in/c.pdf" := 10]> ∅)))).2 !! "in/a.pdf"
  = Some 30.
Proof.
  rewrite (proj1 (merge_writes_only_numbered_outputs id one_page (fun _ => true)
                    (fun _ docs => Wrote (foldr Z.add 0 docs)) no_error "in" "Merged_PDFs" 2
                    (<["in/a.pdf" := 30]> (<["in/b.pdf" := 20]> (<["in/c.pdf" := 10]> ∅))))).
  - reflexivity.
  - intros j E. vm_compute in E. discriminate.
Defined.

Lemma buckets_are_merged_independently_witness :
  (merge_pdfs_run id one_page (fun _ => true) (fun _ docs => Wrote (foldr Z.add 0 docs))
     no_error "in" "Merged_PDFs" 2
     (<["in/a.pdf" := 30]> (<["in/b.pdf" := 20]> (<["in/c.pdf" := 10]> ∅)))).1
  = Ret (Some ("Merged_PDFs", 2)).
Proof.
  destruct (buckets_are_merged_independently id one_page (fun _ => true)
              (fun _ docs => Wrote (foldr Z.add 0 docs)) no_error "in" "Merged_PDFs" 2
              (<["in/a.pdf" := 30]> (<["in/b.pdf" := 20]> (<["in/c.pdf" := 10]> ∅))))
    as (st & Hrun & Hret & _).
  - lia.
  - vm_compute. discriminate.
  - intros f j Hf E. vm_compute in Hf.
    repeat (apply elem_of_cons in Hf as [-> | Hf]; [vm_compute in E; discriminate |]).
    inversion Hf.
  - reflexivity.
  - rewrite Hret. vm_compute in Hrun. injection Hrun as <-. reflexivity.
Defined.

End MergeWriteFacts.

(* ===================================================================== *)
(** * Properties of compress_pdf_directory                                 *)
(* ===================================================================== *)

Module CompressDirFacts.
Import FS Pool Download Pipeline Compress CompressDir Preds Samples.

(** ** Listed names and their paths *)

Lemma no_slash_not_absolute (name : string) :
  has_char "/" name = false -> py_startswith name "/" = false.
Proof.
  unfold py_startswith. destruct name as [|c name]; [reflexivity |].
  cbn [has_char String.prefix]. intros H. apply orb_false_iff in H as [Hc _].
  destruct (ascii_dec "/" c) as [<- | _]; [| reflexivity].
  rewrite Ascii.eqb_refl in Hc. discriminate.
Qed.

Lemma os_path_join_plain (dir name : string) :
  plain_dir dir -> has_char "/" name = false ->
  os_path_join dir name = (dir ++ "/" ++ name)%string.
Proof.
  intros [Hne Hend] Hname. unfold os_path_join.
  rewrite (no_slash_not_absolute _ Hname), Hend.
  destruct (String.eqb_spec dir ""); [contradiction | reflexivity].
Qed.

(** Joining to a fixed directory keeps distinct names distinct. *)
Lemma os_path_join_inj (dir a b : string) :
  has_char "/" a = false -> has_char "/" b = false ->
  os_path_join dir a = os_path_join dir b -> a = b.
Proof.
  intros Ha Hb. unfold os_path_join.
  rewrite (no_slash_not_absolute _ Ha), (no_slash_not_absolute _ Hb).
  destruct (String.eqb dir "" || py_endswith dir "/"); intros H.
  - eapply MergeWriteFacts.string_app_inv_head, H.
  - apply MergeWriteFacts.string_app_inv_head in H.
    eapply (MergeWriteFacts.string_app_inv_head "/"), H.
Qed.

Lemma NoDup_omap {A B} (f : A -> option B) (l : list A) :
  (forall x y z, x ∈ l -> y ∈ l -> f x = Some z -> f y = Some z -> x = y) ->
  NoDup l -> NoDup (omap f l).
Proof.
  intros Hinj Hnd. induction Hnd as [|x l Hx Hnd IH]; [constructor |].
  cbn [omap list_omap]. destruct (f x) as [z |] eqn:E.
  - constructor.
    + intros Hin. apply list_elem_of_omap in Hin as (y & Hy & Hfy).
      assert (x = y) by (eapply Hinj; eauto; [left | right; exact Hy]).
      subst y. contradiction.
    + apply IH. intros a b c Ha Hb. apply Hinj; right; assumption.
  - apply IH. intros a b c Ha Hb. apply Hinj; right; assumption.
Qed.

Section Listing.
Context {content : Type}.
Implicit Types (σ : fs content).

Lemma listdir_NoDup (dir : string) σ : NoDup (listdir dir σ).
Proof.
  unfold listdir. apply NoDup_omap; [| apply NoDup_map_to_list].
  intros [p c] [q d] name Hp Hq Ep Eq. simpl in Ep, Eq.
  apply PipelineMore.entry_of_path in Ep as (-> & _).
  apply PipelineMore.entry_of_path in Eq as (-> & _).
  apply elem_of_map_to_list in Hp, Hq. rewrite Hp in Hq. congruence.
Qed.

Lemma listdir_entry (dir name : string) σ :
  name ∈ listdir dir σ ->
  has_char "/" name = false ∧ exists c, σ !! (dir ++ "/" ++ name)%string = Some c.
Proof.
  intros H. apply PipelineMore.elem_of_listdir in H as (c & Hc & Hentry).
  apply PipelineMore.entry_of_path in Hentry as (_ & _ & Hname). eauto.
Qed.
End Listing.

(** ** The two loops *)

Section Dir.
Context {content : Type}.
Variable nbytes : content -> Z.
Variable gs : list string -> option content -> gs_exit content.
Variable copy_error : string -> option exn.
Variable makedirs : string -> option exn.
Implicit Types (σ : fs content) (t : totals).

(** The pool of lines 434-438 is created exactly for a size given as a
    positive number, and for a size left out (or given as 0) when the number
    of processors is known. *)
Lemma make_pool_returns_iff (max_workers cpu_count : option Z) :
  make_pool max_workers cpu_count = Ret tt <->
  (exists w, max_workers = Some w ∧ 1 <= w) ∨
  ((max_workers = None ∨ max_workers = Some 0) ∧ exists n, cpu_count = Some n ∧ 1 <= n).
Proof.
  unfold make_pool, default_workers, executor.
  assert (Hfallback :
            forall n, match (if Z.min n 4 <=? 0 then Raise ValueError else Ret tt) with
                      | Ret _ => 1 <= n
                      | Raise _ => True
                      end).
  { intros n. destruct (Z.leb_spec (Z.min n 4) 0); [exact I | lia]. }
  split.
  - intros Hret. destruct max_workers as [w |].
    + destruct (Z.eqb_spec w 0) as [-> | Hw0].
      * right. split; [auto |]. destruct cpu_count as [n |]; [| discriminate].
        exists n. split; [reflexivity |]. specialize (Hfallback n).
        rewrite Hret in Hfallback. exact Hfallback.
      * left. exists w. split; [reflexivity |].
        destruct (Z.leb_spec w 0); [discriminate | lia].
    + right. split; [auto |]. destruct cpu_count as [n |]; [| discriminate].
      exists n. split; [reflexivity |]. specialize (Hfallback n).
      rewrite Hret in Hfallback. exact Hfallback.
  - intros [(w & -> & Hw) | [Hm (n & -> & Hn)]].
    + destruct (Z.eqb_spec w 0); [lia |]. destruct (Z.leb_spec w 0); [lia | reflexivity].
    + assert (Hmin : (Z.min n 4 <=? 0) = false) by lia.
      destruct Hm as [-> | ->]; cbn; rewrite Hmin; reflexivity.
Qed.

(** A negative size, and a size of its own choice without a known number
    of processors, raise. *)
Lemma make_pool_raises (max_workers cpu_count : option Z) :
  (forall w, max_workers = Some w -> w < 0 ->
             make_pool max_workers cpu_count = Raise ValueError) ∧
  (max_workers = None ∨ max_workers = Some 0 -> cpu_count = None ->
   make_pool max_workers cpu_count = Raise TypeError).
Proof.
  unfold make_pool, default_workers, executor. split.
  - intros w -> Hw. destruct (Z.eqb_spec w 0); [lia |].
    destruct (Z.leb_spec w 0); [reflexivity | lia].
  - intros [-> | ->] ->; reflexivity.
Qed.

Lemma pdf_files_listed (dir f : string) σ :
  f ∈ pdf_files dir σ -> f ∈ listdir dir σ.
Proof.
  unfold pdf_files. intros H. apply list_elem_of_In, filter_In in H as [H _].
  apply list_elem_of_In, H.
Qed.

Lemma pdf_files_NoDup (dir : string) σ : NoDup (pdf_files dir σ).
Proof.
  unfold pdf_files. apply NoDup_ListNoDup, List.NoDup_filter, NoDup_ListNoDup, listdir_NoDup.
Qed.

(** Every listed PDF file is found under its joined path. *)
Lemma pdf_file_exists (dir f : string) σ :
  plain_dir dir -> f ∈ pdf_files dir σ ->
  has_char "/" f = false ∧ exists c, σ !! os_path_join dir f = Some c.
Proof.
  intros Hdir Hf. apply pdf_files_listed, listdir_entry in Hf as [Hname [c Hc]].
  rewrite (os_path_join_plain _ _ Hdir Hname). eauto.
Qed.

Lemma large_pdfs_none (input_dir : string) (files : list string) σ :
  (forall f, f ∈ files ->
             exists c, σ !! os_path_join input_dir f = Some c ∧ nbytes c <= hundred_mb) ->
  large_pdfs nbytes input_dir files σ = (Ret [], σ).
Proof.
  induction files as [|f rest IH]; intros Hall; [reflexivity |].
  destruct (Hall f ltac:(left)) as (c & Hc & Hsize).
  cbn [large_pdfs]. unfold bind, getsize at 1. rewrite Hc.
  rewrite IH by (intros g Hg; apply Hall; right; exact Hg).
  unfold ret, over_100mb. replace (hundred_mb <? nbytes c) with false by lia. reflexivity.
Qed.

Lemma regular_pdfs_all (input_dir : string) (files : list string) :
  regular_pdfs input_dir files [] = files.
Proof.
  unfold regular_pdfs. induction files as [|f rest IH]; [reflexivity |].
  cbn [List.filter]. rewrite bool_decide_eq_false_2 by (intros H; inversion H).
  cbn [negb]. f_equal. exact IH.
Qed.

Lemma compress_regular_count (input_dir output_dir quality : string) (regular : list string) :
  forall t σ,
    successfully_compressed t
    <= successfully_compressed
         (compress_regular nbytes gs copy_error input_dir output_dir quality regular t σ).1
    <= successfully_compressed t + Z.of_nat (length regular).
Proof.
  induction regular as [|f rest IH]; intros t σ; [simpl; lia |].
  cbn [compress_regular]. simpl length. rewrite Nat2Z.inj_succ.
  destruct (compress_pdf nbytes gs copy_error _ _ quality σ) as [[[[ok o] c] | e] σ'].
  - specialize (IH (mkTotals (total_original_size t + o) (total_compressed_size t + c)
                             (if ok then successfully_compressed t + 1
                              else successfully_compressed t)) σ').
    simpl in IH. destruct ok; lia.
  - specialize (IH t σ'). lia.
Qed.

(** X20.  A directory (without a trailing separator in its name) whose PDF
    files are all at most 100 MB is always processed to the end once the
    output directory and the pool could be created:
    [compress_pdf_directory] returns the output directory whatever the
    filter does, whatever the files are (empty files included) and whether
    or not the copies of the failure handler succeed, since every exception
    of a [compress_pdf] task is caught; the number of successes it reports
    lies between zero and the number of PDF files. *)
Theorem directory_without_large_files_completes (input_dir output_dir quality : string)
    (max_workers cpu_count : option Z) σ :
  plain_dir input_dir ->
  pdf_files input_dir σ <> [] ->
  (forall f c, f ∈ pdf_files input_dir σ -> σ !! os_path_join input_dir f = Some c ->
               nbytes c <= hundred_mb) ->
  makedirs output_dir = None ->
  make_pool max_workers cpu_count = Ret tt ->
  exists t σ',
    compress_pdf_directory nbytes gs copy_error makedirs input_dir output_dir quality
      max_workers cpu_count σ
    = (Ret (Some (output_dir, t)), σ') ∧
    0 <= successfully_compressed t <= Z.of_nat (length (pdf_files input_dir σ)).
Proof.
  intros Hdir Hne Hsmall Hmk Hpool. unfold compress_pdf_directory.
  assert (Hlarge : large_pdfs nbytes input_dir (pdf_files input_dir σ) σ = (Ret [], σ)).
  { apply large_pdfs_none. intros f Hf.
    destruct (pdf_file_exists _ _ _ Hdir Hf) as [_ [c Hc]]. eauto. }
  destruct (pdf_files input_dir σ) as [|f0 rest] eqn:Efiles; [congruence |].
  rewrite Hmk. unfold bind. rewrite Hlarge. cbn [compress_large]. unfold ret.
  rewrite Hpool, regular_pdfs_all.
  pose proof (compress_regular_count input_dir output_dir quality (f0 :: rest)
                (mkTotals 0 0 0) σ) as Hcount.
  destruct (compress_regular nbytes gs copy_error input_dir output_dir quality (f0 :: rest)
              (mkTotals 0 0 0) σ) as [t σ'].
  exists t, σ'. split; [reflexivity |]. simpl in Hcount. simpl length. lia.
Qed.

(** X24.  Where the pool cannot be created, [compress_pdf_directory]
    compresses nothing: for a directory whose PDF files are all at most
    100 MB, the exception of lines 434-438 (ValueError for a negative
    number of workers, TypeError when the number is left to the program and
    [os.cpu_count()] is [None]) leaves the function before any task is
    submitted, and no file is written; so does the exception of
    [os.makedirs] when the output directory cannot be created. *)
Theorem directory_without_pool_raises (input_dir output_dir quality : string)
    (max_workers cpu_count : option Z) σ :
  plain_dir input_dir ->
  pdf_files input_dir σ <> [] ->
  (forall f c, f ∈ pdf_files input_dir σ -> σ !! os_path_join input_dir f = Some c ->
               nbytes c <= hundred_mb) ->
  (forall e, makedirs output_dir = Some e ->
     compress_pdf_directory nbytes gs copy_error makedirs input_dir output_dir quality
       max_workers cpu_count σ = (Raise e, σ)) ∧
  (forall e, makedirs output_dir = None -> make_pool max_workers cpu_count = Raise e ->
     compress_pdf_directory nbytes gs copy_error makedirs input_dir output_dir quality
       max_workers cpu_count σ = (Raise e, σ)) ∧
  (forall w, max_workers = Some w -> w < 0 ->
     make_pool max_workers cpu_count = Raise ValueError) ∧
  (max_workers = None ∨ max_workers = Some 0 -> cpu_count = None ->
   make_pool max_workers cpu_count = Raise TypeError).
Proof.
  intros Hdir Hne Hsmall.
  assert (Hlarge : large_pdfs nbytes input_dir (pdf_files input_dir σ) σ = (Ret [], σ)).
  { apply large_pdfs_none. intros f Hf.
    destruct (pdf_file_exists _ _ _ Hdir Hf) as [_ [c Hc]]. eauto. }
  split; [| split; [| apply make_pool_raises]].
  - intros e Hmk. unfold compress_pdf_directory.
    destruct (pdf_files input_dir σ) as [|f0 rest]; [congruence |].
    rewrite Hmk. reflexivity.
  - intros e Hmk Hpool. unfold compress_pdf_directory.
    destruct (pdf_files input_dir σ) as [|f0 rest]; [congruence |].
    rewrite Hmk. unfold bind. rewrite Hlarge. cbn [compress_large]. unfold ret.
    rewrite Hpool. reflexivity.
Qed.

(** Tasks on distinct files with outputs away from the inputs do not
    interfere. *)
Lemma compress_regular_exact (input_dir output_dir quality : string) (σ0 : fs content)
    (regular : list string) :
  forall t σ,
    NoDup regular ->
    (forall f, f ∈ regular -> has_char "/" f = false) ->
    (forall f, f ∈ regular ->
               exists c, σ0 !! os_path_join input_dir f = Some c ∧ nbytes c <> 0) ->
    (forall f g, f ∈ regular -> g ∈ regular ->
                 os_path_join output_dir g <> os_path_join input_dir f) ->
    (forall f, f ∈ regular -> copy_error (os_path_join output_dir f) = None) ->
    (forall f, f ∈ regular -> σ !! os_path_join input_dir f = σ0 !! os_path_join input_dir f) ->
    let result := compress_regular nbytes gs copy_error input_dir output_dir quality regular t σ in
    let e := expected_totals nbytes gs input_dir output_dir quality regular σ0 in
    total_original_size result.1 = total_original_size t + total_original_size e ∧
    total_compressed_size result.1 = total_compressed_size t + total_compressed_size e ∧
    successfully_compressed result.1 = successfully_compressed t + successfully_compressed e ∧
    (forall f, f ∈ regular ->
               result.2 !! os_path_join output_dir f
               = committed gs quality (os_path_join input_dir f) (os_path_join output_dir f) σ0) ∧
    (forall p, (forall f, f ∈ regular -> p <> os_path_join output_dir f) ->
               result.2 !! p = σ !! p).
Proof.
  induction regular as [|f rest IH];
    intros t σ Hnd Hnames Hin Hdisj Hcopy Hagree result e.
  - subst result e. simpl. repeat split; try lia.
    intros f Hf. inversion Hf.
  - apply NoDup_cons in Hnd as [Hfresh Hnd].
    destruct (Hin f ltac:(left)) as (c & Hc & Hsize).
    assert (Hcur : σ !! os_path_join input_dir f = Some c).
    { rewrite Hagree by left. exact Hc. }
    assert (Hio : os_path_join input_dir f <> os_path_join output_dir f).
    { intros E. eapply (Hdisj f f); [left | left | symmetry; exact E]. }
    set (out := match gs (compress_cmd (gs_setting quality) (os_path_join output_dir f)
                            (os_path_join input_dir f)) (Some c) with
                | GsDone o => o
                | GsFailed _ => c
                end).
    assert (Hstep : exists ok,
               compress_pdf nbytes gs copy_error (os_path_join input_dir f)
                 (os_path_join output_dir f) quality σ
               = (Ret (ok, nbytes c, nbytes out), <[os_path_join output_dir f := out]> σ) ∧
               ok = match gs (compress_cmd (gs_setting quality) (os_path_join output_dir f)
                                (os_path_join input_dir f)) (Some c) with
                    | GsDone _ => true
                    | GsFailed _ => false
                    end).
    { subst out.
      destruct (gs _ (Some c)) as [o | partial] eqn:Hgs.
      - exists true. split; [| reflexivity].
        apply CompressFacts.compress_pdf_done; auto.
      - exists false. split; [| reflexivity].
        eapply CompressFacts.compress_pdf_failed; eauto. apply Hcopy. left. }
    destruct Hstep as (ok & Hrun & Hok).
    subst result e. cbn [compress_regular expected_totals]. rewrite Hrun, Hc.
    set (σ1 := <[os_path_join output_dir f := out]> σ).
    set (t1 := mkTotals (total_original_size t + nbytes c)
                        (total_compressed_size t + nbytes out)
                        (if ok then successfully_compressed t + 1
                         else successfully_compressed t)).
    destruct (IH t1 σ1 Hnd) as (Ho & Hcs & Hn & Houts & Hframe).
    { intros g Hg. apply Hnames. right. exact Hg. }
    { intros g Hg. apply Hin. right. exact Hg. }
    { intros g h Hg Hh. apply Hdisj; right; assumption. }
    { intros g Hg. apply Hcopy. right. exact Hg. }
    { intros g Hg. subst σ1. rewrite lookup_insert_ne.
      - apply Hagree. right. exact Hg.
      - apply Hdisj; [right; exact Hg | left]. }
    assert (Hdistinct : forall g, g ∈ rest ->
                                  os_path_join output_dir f <> os_path_join output_dir g).
    { intros g Hg E. apply os_path_join_inj in E.
      - subst g. contradiction.
      - apply Hnames. left.
      - apply Hnames. right. exact Hg. }
    split; [| split; [| split; [| split]]].
    + rewrite Ho. subst t1. simpl.
      destruct (gs _ (Some c)); simpl; lia.
    + rewrite Hcs. subst t1 out. simpl.
      destruct (gs _ (Some c)); simpl; lia.
    + rewrite Hn. subst t1. simpl. rewrite Hok.
      destruct (gs _ (Some c)); simpl; lia.
    + intros g Hg. apply elem_of_cons in Hg as [-> | Hg].
      * rewrite Hframe by exact Hdistinct.
        subst σ1. rewrite lookup_insert_eq. unfold committed. rewrite Hc. subst out.
        destruct (gs _ (Some c)); reflexivity.
      * apply Houts. exact Hg.
    + intros p Hp. rewrite Hframe by (intros g Hg; apply Hp; right; exact Hg).
      subst σ1. apply lookup_insert_ne. intros E. eapply (Hp f); [left | symmetry; exact E].
Qed.

(** X21.  For a directory whose PDF files are all non-empty and at most
    100 MB, and an output directory that can be created and written to and
    in which none of their outputs falls on one of the inputs,
    [compress_pdf_directory], once its pool is created, loses no file:
    under each output name lies the filter's output or, where the filter
    failed, the unchanged input; the inputs are kept; the original total is
    the sum of the input sizes, the compressed total the sum of the output
    sizes, and the number of successes the number of files the filter
    accepted. *)
Theorem directory_outputs_and_totals (input_dir output_dir quality : string)
    (max_workers cpu_count : option Z) σ :
  plain_dir input_dir ->
  pdf_files input_dir σ <> [] ->
  (forall f c, f ∈ pdf_files input_dir σ -> σ !! os_path_join input_dir f = Some c ->
               0 < nbytes c <= hundred_mb) ->
  (forall f g, f ∈ pdf_files input_dir σ -> g ∈ pdf_files input_dir σ ->
               os_path_join output_dir g <> os_path_join input_dir f) ->
  makedirs output_dir = None ->
  (forall f, f ∈ pdf_files input_dir σ -> copy_error (os_path_join output_dir f) = None) ->
  make_pool max_workers cpu_count = Ret tt ->
  let result :=
    compress_pdf_directory nbytes gs copy_error makedirs input_dir output_dir quality
      max_workers cpu_count σ in
  let e := expected_totals nbytes gs input_dir output_dir quality (pdf_files input_dir σ) σ in
  (exists t, result.1 = Ret (Some (output_dir, t)) ∧
             total_original_size t = total_original_size e ∧
             total_compressed_size t = total_compressed_size e ∧
             successfully_compressed t = successfully_compressed e) ∧
  (forall f, f ∈ pdf_files input_dir σ ->
             result.2 !! os_path_join output_dir f
             = committed gs quality (os_path_join input_dir f) (os_path_join output_dir f) σ ∧
             result.2 !! os_path_join input_dir f = σ !! os_path_join input_dir f).
Proof.
  intros Hdir Hne Hsizes Hdisj Hmk Hcopy Hpool result e. subst result.
  unfold compress_pdf_directory.
  assert (Hlarge : large_pdfs nbytes input_dir (pdf_files input_dir σ) σ = (Ret [], σ)).
  { apply large_pdfs_none. intros f Hf.
    destruct (pdf_file_exists _ _ _ Hdir Hf) as [_ [c Hc]].
    exists c. split; [exact Hc |]. apply (Hsizes f c Hf Hc). }
  pose proof (compress_regular_exact input_dir output_dir quality σ (pdf_files input_dir σ)
                (mkTotals 0 0 0) σ (pdf_files_NoDup input_dir σ)) as Hexact.
  destruct Hexact as (Ho & Hc & Hn & Houts & Hframe).
  { intros f Hf. apply (pdf_file_exists _ _ _ Hdir Hf). }
  { intros f Hf. destruct (pdf_file_exists _ _ _ Hdir Hf) as [_ [c Hc]].
    exists c. split; [exact Hc |]. specialize (Hsizes f c Hf Hc). lia. }
  { exact Hdisj. }
  { exact Hcopy. }
  { reflexivity. }
  fold e in Ho, Hc, Hn.
  destruct (pdf_files input_dir σ) as [|f0 rest] eqn:Efiles; [congruence |].
  rewrite Hmk. unfold bind. rewrite Hlarge. cbn [compress_large]. unfold ret.
  rewrite Hpool, regular_pdfs_all.
  destruct (compress_regular nbytes gs copy_error input_dir output_dir quality (f0 :: rest)
              (mkTotals 0 0 0) σ) as [t σ'].
  simpl in Ho, Hc, Hn, Houts, Hframe. split.
  - exists t. split; [reflexivity |]. simpl. auto.
  - intros f Hf. split; [apply Houts, Hf |].
    apply Hframe. intros g Hg. apply not_eq_sym, Hdisj; assumption.
Qed.
End Dir.

Section Large.
Context {content : Type}.
Variable nbytes : content -> Z.
Variable gs : list string -> option content -> gs_exit content.
Variable copy_error : string -> option exn.
Variable makedirs : string -> option exn.
Implicit Types (σ : fs content) (t : totals).

(** The first loop reads the sizes and changes nothing: it collects the
    paths of the files over 100 MB, in the order of the listing. *)
Lemma large_pdfs_spec (input_dir : string) (files : list string) σ :
  (forall f, f ∈ files -> exists c, σ !! os_path_join input_dir f = Some c) ->
  large_pdfs nbytes input_dir files σ
  = (Ret (os_path_join input_dir <$> List.filter (is_large nbytes input_dir σ) files), σ).
Proof.
  induction files as [|f rest IH]; intros Hall; [reflexivity |].
  destruct (Hall f ltac:(left)) as (c & Hc).
  cbn [large_pdfs List.filter]. unfold bind, getsize at 1, is_large at 1. rewrite Hc.
  rewrite IH by (intros g Hg; apply Hall; right; exact Hg).
  unfold ret. destruct (over_100mb (nbytes c)); reflexivity.
Qed.

(** The regular files are the listed files that are not over 100 MB. *)
Lemma regular_pdfs_spec (input_dir : string) (files : list string) σ :
  (forall f, f ∈ files -> has_char "/" f = false) ->
  regular_pdfs input_dir files
    (os_path_join input_dir <$> List.filter (is_large nbytes input_dir σ) files)
  = List.filter (fun f => negb (is_large nbytes input_dir σ f)) files.
Proof.
  intros Hnames. unfold regular_pdfs. apply List.filter_ext_in. intros f Hf.
  apply list_elem_of_In in Hf. f_equal.
  destruct (is_large nbytes input_dir σ f) eqn:Ebig.
  - apply bool_decide_eq_true_2, list_elem_of_fmap. exists f. split; [reflexivity |].
    apply list_elem_of_In, filter_In. split; [apply list_elem_of_In, Hf | exact Ebig].
  - apply bool_decide_eq_false_2. intros Hin.
    apply list_elem_of_fmap in Hin as (g & Heq & Hg).
    apply list_elem_of_In, filter_In in Hg as [Hg Hbig]. apply list_elem_of_In in Hg.
    apply os_path_join_inj in Heq; [| apply Hnames, Hf | apply Hnames, Hg].
    subst g. congruence.
Qed.

(** X22.  Files over 100 MB are kept out of the pool of [compress_pdf]
    tasks: when [compress_pdf_directory] returns its output directory, the
    number of successes it has counted is at most the number of PDF files of
    the input directory that are not over 100 MB, whatever became of the
    large ones. *)
Theorem large_files_are_not_counted (input_dir output_dir quality : string)
    (max_workers cpu_count : option Z) σ (out : string) t σ' :
  plain_dir input_dir ->
  compress_pdf_directory nbytes gs copy_error makedirs input_dir output_dir quality
    max_workers cpu_count σ
  = (Ret (Some (out, t)), σ') ->
  out = output_dir ∧
  0 <= successfully_compressed t
    <= Z.of_nat (length (List.filter (fun f => negb (is_large nbytes input_dir σ f))
                           (pdf_files input_dir σ))).
Proof.
  intros Hdir. unfold compress_pdf_directory.
  pose proof (large_pdfs_spec input_dir (pdf_files input_dir σ) σ) as Hlarge.
  pose proof (regular_pdfs_spec input_dir (pdf_files input_dir σ) σ) as Hregular.
  assert (Hfiles : forall f, f ∈ pdf_files input_dir σ ->
                             has_char "/" f = false ∧
                             exists c, σ !! os_path_join input_dir f = Some c)
    by (intros f Hf; apply (pdf_file_exists _ _ _ Hdir Hf)).
  destruct (pdf_files input_dir σ) as [|f0 rest] eqn:Efiles; [discriminate |].
  destruct (makedirs output_dir); [discriminate |].
  unfold bind. rewrite Hlarge by (intros f Hf; apply (Hfiles f Hf)).
  destruct (compress_large nbytes gs output_dir _ σ) as [[[] | e] σ1]; [| discriminate].
  destruct (make_pool max_workers cpu_count); [| discriminate].
  rewrite Hregular by (intros f Hf; apply (Hfiles f Hf)).
  pose proof (compress_regular_count nbytes gs copy_error input_dir output_dir quality
                (List.filter (fun f => negb (is_large nbytes input_dir σ f)) (f0 :: rest))
                (mkTotals 0 0 0) σ1) as Hcount.
  destruct (compress_regular nbytes gs copy_error input_dir output_dir quality _
              (mkTotals 0 0 0) σ1) as [t1 σ2].
  intros [= <- <- <-]. split; [reflexivity |].
  cbn [fst successfully_compressed] in Hcount. lia.
Qed.
End Large.

Lemma large_files_are_not_counted_witness :
  successfully_compressed (mkTotals (mb 30) (mb 10) 1) <= 1.
Proof.
  pose proof (large_files_are_not_counted id (sized_gs (Some (mb 10)) None)
                no_error no_error "in" "out" "screen" (Some 2) None
                (<["in/a.pdf" := mb 30]> (<["in/big.pdf" := mb 150]> ∅))
                "out" (mkTotals (mb 30) (mb 10) 1)
                (<["out/a.pdf" := mb 10]>
                   (<["out/big.pdf" := mb 10]>
                      (<["in/a.pdf" := mb 30]> (<["in/big.pdf" := mb 150]> ∅)))))
    as H.
  destruct H as [_ H].
  - split; [discriminate | reflexivity].
  - vm_compute. reflexivity.
  - vm_compute in H. vm_compute. destruct H as [_ H]. exact H.
Defined.

(** The filter fails on every file and the copies fail too; one file is
    empty; the number of workers is left to the program. *)
Lemma directory_without_large_files_completes_witness :
  exists t σ',
    compress_pdf_directory id (sized_gs None None) read_only no_error "in" "out" "screen"
      None (Some 8) (<["in/a.pdf" := mb 30]> (<["in/c.pdf" := 0]> ∅))
    = (Ret (Some ("out", t)), σ') ∧
    0 <= successfully_compressed t <= 2.
Proof.
  assert (Hlen : Z.of_nat (length (pdf_files "in" (<["in/a.pdf" := mb 30]>
                                                     (<["in/c.pdf" := 0]> (∅ : gmap string Z)))))
                 = 2) by (vm_compute; reflexivity).
  destruct (directory_without_large_files_completes id (sized_gs None None)
              read_only no_error "in" "out" "screen" None (Some 8)
              (<["in/a.pdf" := mb 30]> (<["in/c.pdf" := 0]> ∅)))
    as (t & σ' & Hrun & Hcount).
  - split; [discriminate | reflexivity].
  - vm_compute. discriminate.
  - intros f c Hf Hc. vm_compute in Hf.
    repeat (apply elem_of_cons in Hf as [-> | Hf];
            [vm_compute in Hc; injection Hc as <-; vm_compute; discriminate |]).
    inversion Hf.
  - reflexivity.
  - reflexivity.
  - exists t, σ'. split; [exact Hrun |]. rewrite Hlen in Hcount. exact Hcount.
Defined.

(** [--workers -1] *)
Lemma directory_without_pool_raises_witness :
  compress_pdf_directory id (sized_gs (Some (mb 10)) None) no_error no_error
    "in" "out" "screen" (Some (-1)) (Some 8)
    (<["in/a.pdf" := mb 30]> (<["in/c.pdf" := mb 20]> ∅))
  = (Raise ValueError, <["in/a.pdf" := mb 30]> (<["in/c.pdf" := mb 20]> ∅)).
Proof.
  destruct (directory_without_pool_raises id (sized_gs (Some (mb 10)) None)
              no_error no_error "in" "out" "screen" (Some (-1)) (Some 8)
              (<["in/a.pdf" := mb 30]> (<["in/c.pdf" := mb 20]> ∅)))
    as (_ & Hpool & Hneg & _).
  - split; [discriminate | reflexivity].
  - vm_compute. discriminate.
  - intros f c Hf Hc. vm_compute in Hf.
    repeat (apply elem_of_cons in Hf as [-> | Hf];
            [vm_compute in Hc; injection Hc as <-; vm_compute; discriminate |]).
    inversion Hf.
  - apply Hpool; [reflexivity |]. apply (Hneg (-1)); [reflexivity | lia].
Defined.

Lemma directory_outputs_and_totals_witness :
  exists t,
    (compress_pdf_directory id (sized_gs (Some (mb 10)) None) no_error no_error
       "in" "out" "screen" (Some 4) None
       (<["in/a.pdf" := mb 30]> (<["in/c.pdf" := mb 20]> ∅))).1
    = Ret (Some ("out", t)) ∧
    total_original_size t = mb 50 ∧ total_compressed_size t = mb 20 ∧
    successfully_compressed t = 2.
Proof.
  destruct (directory_outputs_and_totals id (sized_gs (Some (mb 10)) None) no_error no_error
              "in" "out" "screen" (Some 4) None
              (<["in/a.pdf" := mb 30]> (<["in/c.pdf" := mb 20]> ∅)))
    as [(t & Hrun & Ho & Hc & Hn) _].
  - split; [discriminate | reflexivity].
  - vm_compute. discriminate.
  - intros f c Hf Hc. vm_compute in Hf.
    repeat (apply elem_of_cons in Hf as [-> | Hf];
            [vm_compute in Hc; injection Hc as <-; vm_compute;
             split; [reflexivity | discriminate] |]).
    inversion Hf.
  - intros f g Hf Hg. vm_compute in Hf, Hg.
    repeat (apply elem_of_cons in Hf as [-> | Hf];
            [repeat (apply elem_of_cons in Hg as [-> | Hg]; [vm_compute; discriminate |]);
             inversion Hg |]).
    inversion Hf.
  - reflexivity.
  - intros f Hf. reflexivity.
  - reflexivity.
  - exists t. split; [exact Hrun |]. rewrite Ho, Hc, Hn. vm_compute. auto.
Defined.

End CompressDirFacts.

(* ===================================================================== *)
(** * Properties of the [all] command                                      *)
(* ===================================================================== *)

Module MainFacts.
Import FS Pool Download Merge Compress Pipeline MergeWrite CompressDir Main Preds Samples.

Section Stages.
Context {content : Type}.
Variable nbytes : content -> Z.
Variable pdf_pages : content -> option Z.
Variable appends : content -> bool.
Variable pdf_write : string -> list content -> write_exit content.
Variable gs : list string -> option content -> gs_exit content.
Variable copy_error : string -> option exn.
Variable makedirs : string -> option exn.
Variable cpu_count : option Z.
Implicit Types (σ : fs content).

(** ** The value returned by [merge_pdfs] *)

Lemma merge_pdfs_run_no_valid (pdf_dir output_dir : string) (count : Z) σ :
  valid_pdfs (get_pdf_size_info nbytes pdf_pages σ <$> all_files pdf_dir σ) = [] ->
  merge_pdfs_run nbytes pdf_pages appends pdf_write makedirs pdf_dir output_dir count σ
  = (Ret None, σ).
Proof.
  intros Hv. unfold merge_pdfs_run. cbv zeta.
  destruct (all_files pdf_dir σ) as [|f fs]; [reflexivity |].
  rewrite Hv. reflexivity.
Qed.

Lemma merge_pdfs_run_some_valid (pdf_dir output_dir : string) (count : Z) σ :
  valid_pdfs (get_pdf_size_info nbytes pdf_pages σ <$> all_files pdf_dir σ) <> [] ->
  1 <= count -> makedirs output_dir = None ->
  exists merged,
    (merge_pdfs_run nbytes pdf_pages appends pdf_write makedirs pdf_dir output_dir count σ).1
    = Ret (Some (output_dir, merged)).
Proof.
  intros Hv Hk Hdir. unfold merge_pdfs_run.
  destruct (MergeFacts.merge_assign_tracks _ count Hk Hv) as (st & ib & Hrun & _).
  cbv zeta.
  destruct (all_files pdf_dir σ) as [|f fs]; [simpl in Hv; congruence |].
  destruct (valid_pdfs _) as [|v vs]; [congruence |].
  rewrite Hdir, Hrun.
  destruct (merge_buckets appends pdf_write output_dir 0 (buckets st) 0 σ) as [merged σ'].
  exists merged. reflexivity.
Qed.

Lemma merge_pdfs_run_makedirs_raises (pdf_dir output_dir : string) (count : Z) σ (e : exn) :
  valid_pdfs (get_pdf_size_info nbytes pdf_pages σ <$> all_files pdf_dir σ) <> [] ->
  makedirs output_dir = Some e ->
  merge_pdfs_run nbytes pdf_pages appends pdf_write makedirs pdf_dir output_dir count σ
  = (Raise e, σ).
Proof.
  intros Hv Hdir. unfold merge_pdfs_run. cbv zeta.
  destruct (all_files pdf_dir σ) as [|f fs]; [simpl in Hv; congruence |].
  destruct (valid_pdfs _) as [|v vs]; [congruence |].
  rewrite Hdir. reflexivity.
Qed.

(** ** What the download stage leaves in its directory *)

(** The downloads are written next to the directory: a directory without a
    valid document before the download stage has none after it. *)
Lemma download_adds_no_document (page : option (list string)) (completed : list string)
    (net : string -> nat -> attempt content) (download_dir : string)
    (max_workers : option Z) σ :
  download_dir <> "" ->
  valid_pdfs (get_pdf_size_info nbytes pdf_pages σ <$> all_files download_dir σ) = [] ->
  let σ1 :=
    (download_pdfs_from_url makedirs page completed net download_dir max_workers σ).2 in
  valid_pdfs (get_pdf_size_info nbytes pdf_pages σ1 <$> all_files download_dir σ1) = [].
Proof.
  intros Hdir Hempty σ1.
  pose proof (fun p => DownloadMore.download_batch_keeps_directories makedirs page
                         completed net download_dir max_workers σ p) as Hagree.
  fold σ1 in Hagree.
  apply PipelineMore.valid_pdfs_nil. intros info Hinfo.
  apply list_elem_of_fmap in Hinfo as (f & -> & Hf).
  apply PipelineMore.elem_of_all_files in Hf as (name & -> & Hpdf & Hname).
  assert (Hslash : has_char "/" (os_path_join download_dir name) = true).
  { apply PipelineMore.os_path_join_has_slash. exact Hdir. }
  assert (Hsame : get_pdf_size_info nbytes pdf_pages σ1 (os_path_join download_dir name)
                  = get_pdf_size_info nbytes pdf_pages σ (os_path_join download_dir name)).
  { unfold get_pdf_size_info. rewrite (Hagree _ Hslash). reflexivity. }
  rewrite Hsame. apply (proj1 (PipelineMore.valid_pdfs_nil _) Hempty).
  apply list_elem_of_fmap. exists (os_path_join download_dir name). split; [reflexivity |].
  apply PipelineMore.elem_of_all_files. exists name. repeat split; auto.
  eapply PipelineMore.listdir_agree; eauto.
Qed.

(** ** The stages *)

(** The run up to the end of the download stage. *)
Lemma main_all_download (target_url output : string) (count : Z) (quality : string)
    (download_workers : Z) (compress_workers : option Z)
    (page : option (list string)) (completed : list string)
    (net : string -> nat -> attempt content) σ :
  let download_dir := ("PDF_Downloads_" ++ py_last (py_split "/" target_url))%string in
  main_all nbytes pdf_pages appends pdf_write gs copy_error makedirs cpu_count
    target_url output count quality download_workers compress_workers page completed net σ
  = StepDownload target_url ::
    match makedirs download_dir with
    | Some e => [Uncaught e]
    | None =>
        match page with
        | Some (_ :: _) =>
            if download_workers <=? 0 then []
            else
              let σ1 := (run_batch net download_dir completed (0, 0) σ).2 in
              StepMerge download_dir ::
              match merge_pdfs_run nbytes pdf_pages appends pdf_write makedirs
                      download_dir "Temp_Merged_PDFs" count σ1 with
              | (Raise e, _) => [Uncaught e]
              | (Ret merged, σ2) =>
                  if truthy (fst <$> merged) then
                    StepCompress "Temp_Merged_PDFs" ::
                    match compress_pdf_directory nbytes gs copy_error makedirs
                            "Temp_Merged_PDFs" output quality compress_workers cpu_count σ2
                    with
                    | (Raise e, _) => [Uncaught e]
                    | (Ret _, _) => [StepCleanup "Temp_Merged_PDFs"]
                    end
                  else []
              end
        | _ => []
        end
    end.
Proof.
  intros download_dir. unfold main_all. fold download_dir.
  unfold download_pdfs_from_url, executor.
  destruct (makedirs download_dir) as [e |]; [reflexivity |].
  destruct page as [[|u us] |]; try reflexivity.
  destruct (download_workers <=? 0); [reflexivity |].
  destruct (run_batch net download_dir completed (0, 0) σ) as [counts σ1]. reflexivity.
Qed.

(** C9, as amended.  A stage that ends with [return None] halts the
    pipeline, and so does a stage that raises.  When the page cannot be
    fetched, holds no PDF link, or the number of download workers is zero
    or less, only the download stage runs; when the download directory
    holds no valid document the merge stage is the last one; when the
    temporary directory cannot be created the merge stage raises.  A batch in
    which no download succeeds does not halt at the download stage: as soon
    as a link was found and the pool created, the merge stage is entered
    whatever the counters; with a valid document in the directory, a count
    of at least one and a temporary directory that can be created,
    compression follows, and the clean-up follows it unless
    [compress_pdf_directory] raises. *)
Theorem pipeline_halts_on_none (target_url output : string) (count : Z) (quality : string)
    (download_workers : Z) (compress_workers : option Z)
    (page : option (list string)) (completed : list string)
    (net : string -> nat -> attempt content) σ :
  let download_dir := ("PDF_Downloads_" ++ py_last (py_split "/" target_url))%string in
  let σ1 :=
    (download_pdfs_from_url makedirs page completed net download_dir
       (Some download_workers) σ).2 in
  let docs :=
    valid_pdfs (get_pdf_size_info nbytes pdf_pages σ1 <$> all_files download_dir σ1) in
  let σ2 :=
    (merge_pdfs_run nbytes pdf_pages appends pdf_write makedirs
       download_dir "Temp_Merged_PDFs" count σ1).2 in
  let trace :=
    main_all nbytes pdf_pages appends pdf_write gs copy_error makedirs cpu_count
      target_url output count quality download_workers compress_workers
      page completed net σ in
  (forall e, makedirs download_dir = Some e ->
             trace = [StepDownload target_url; Uncaught e]) ∧
  (makedirs download_dir = None ->
   (page = None ∨ page = Some [] ∨ download_workers <= 0 ->
    trace = [StepDownload target_url]) ∧
   (forall u us, page = Some (u :: us) -> 1 <= download_workers ->
      (exists rest, trace = StepDownload target_url :: StepMerge download_dir :: rest) ∧
      (docs = [] -> trace = [StepDownload target_url; StepMerge download_dir]) ∧
      (docs <> [] -> forall e, makedirs "Temp_Merged_PDFs" = Some e ->
       trace = [StepDownload target_url; StepMerge download_dir; Uncaught e]) ∧
      (docs <> [] -> 1 <= count -> makedirs "Temp_Merged_PDFs" = None ->
       trace = [StepDownload target_url; StepMerge download_dir;
                StepCompress "Temp_Merged_PDFs"] ++
               match (compress_pdf_directory nbytes gs copy_error makedirs
                        "Temp_Merged_PDFs" output quality compress_workers cpu_count
                        σ2).1 with
               | Raise e => [Uncaught e]
               | Ret _ => [StepCleanup "Temp_Merged_PDFs"]
               end))).
Proof.
  intros download_dir σ1 docs σ2 trace.
  pose proof (main_all_download target_url output count quality download_workers
                compress_workers page completed net σ) as Htrace.
  cbv zeta in Htrace. fold download_dir trace in Htrace.
  split.
  - intros e He. rewrite Htrace, He. reflexivity.
  - intros Hmk. rewrite Hmk in Htrace. split.
    + intros [-> | [-> | Hw]]; rewrite Htrace; try reflexivity.
      destruct page as [[|u us] |]; try reflexivity.
      destruct (Z.leb_spec download_workers 0); [reflexivity | lia].
    + intros u us -> Hw.
      assert (Hσ1 : σ1 = (run_batch net download_dir completed (0, 0) σ).2).
      { subst σ1. rewrite (DownloadFacts.download_runs_batch makedirs u us completed net
                             download_dir (Some download_workers) σ Hmk).
        - reflexivity.
        - intros w [= <-]. exact Hw. }
      destruct (Z.leb_spec download_workers 0) as [Hle | _]; [lia |].
      rewrite <- Hσ1 in Htrace. split; [rewrite Htrace; eauto |]. split; [| split].
      * intros Hdocs. rewrite Htrace.
        rewrite (merge_pdfs_run_no_valid _ _ _ _ Hdocs). reflexivity.
      * intros Hdocs e Htmp. rewrite Htrace.
        rewrite (merge_pdfs_run_makedirs_raises _ _ _ _ _ Hdocs Htmp). reflexivity.
      * intros Hdocs Hk Htmp. rewrite Htrace.
        destruct (merge_pdfs_run_some_valid download_dir "Temp_Merged_PDFs" count σ1
                    Hdocs Hk Htmp) as (merged & Hmerged).
        subst σ2.
        destruct (merge_pdfs_run nbytes pdf_pages appends pdf_write makedirs
                    download_dir "Temp_Merged_PDFs" count σ1) as [r σ2'].
        simpl in Hmerged. subst r. cbn [fst snd fmap option_fmap option_map truthy].
        simpl.
        destruct (compress_pdf_directory nbytes gs copy_error makedirs "Temp_Merged_PDFs"
                    output quality compress_workers cpu_count σ2') as [[r | e] σ3];
          reflexivity.
Qed.

(** X10.  In the [all] command nothing that the download stage fetched
    reaches the merge stage: the downloads are written next to the download
    directory, never into it, so when the directory holds no valid PDF
    before the run, the run ends after the download stage (no link found,
    no pool, or the directory could not be created) or after the merge
    stage, and compression is never entered, however many downloads
    succeed. *)
Theorem downloads_never_reach_compression (target_url output : string) (count : Z)
    (quality : string) (download_workers : Z) (compress_workers : option Z)
    (page : option (list string)) (completed : list string)
    (net : string -> nat -> attempt content) σ :
  let download_dir := ("PDF_Downloads_" ++ py_last (py_split "/" target_url))%string in
  let trace :=
    main_all nbytes pdf_pages appends pdf_write gs copy_error makedirs cpu_count
      target_url output count quality download_workers compress_workers
      page completed net σ in
  valid_pdfs (get_pdf_size_info nbytes pdf_pages σ <$> all_files download_dir σ) = [] ->
  trace = [StepDownload target_url] ∨
  trace = [StepDownload target_url; StepMerge download_dir] ∨
  (exists e, makedirs download_dir = Some e ∧
             trace = [StepDownload target_url; Uncaught e]).
Proof.
  intros download_dir trace Hempty.
  pose proof (main_all_download target_url output count quality download_workers
                compress_workers page completed net σ) as Htrace.
  cbv zeta in Htrace. fold download_dir trace in Htrace.
  destruct (makedirs download_dir) as [e |] eqn:Hmk; [right; right; eauto |].
  destruct page as [[|u us] |]; [left; exact Htrace | | left; exact Htrace].
  destruct (Z.leb_spec download_workers 0) as [Hle | Hw]; [left; exact Htrace |].
  right. left. rewrite Htrace.
  pose proof (download_adds_no_document (Some (u :: us)) completed net download_dir
                (Some download_workers) σ ltac:(discriminate) Hempty) as Hafter.
  cbv zeta in Hafter.
  rewrite (DownloadFacts.download_runs_batch makedirs u us completed net
             download_dir (Some download_workers) σ Hmk) in Hafter
    by (intros w [= <-]; lia).
  cbn [snd] in Hafter.
  rewrite (merge_pdfs_run_no_valid _ _ _ _ Hafter). reflexivity.
Qed.
End Stages.

Lemma pipeline_halts_on_none_witness :
  main_all id one_page (fun _ => true) (fun _ docs => Wrote (foldr Z.add 0 docs))
    (sized_gs (Some 3) None) no_error no_error (Some 8)
    "http://h/docs" "Processed_PDFs" 250 "screen" 0 None
    (Some ["http://h/docs/a.pdf"]) ["http://h/docs/a.pdf"] failing_net
    (one_file "PDF_Downloads_docs" "old.pdf" 5)
  = [StepDownload "http://h/docs"] ∧
  main_all id one_page (fun _ => true) (fun _ docs => Wrote (foldr Z.add 0 docs))
    (sized_gs (Some 3) None) no_error no_error (Some 8)
    "http://h/docs" "Processed_PDFs" 250 "screen" 10 None
    (Some ["http://h/docs/a.pdf"]) ["http://h/docs/a.pdf"] failing_net
    (one_file "PDF_Downloads_docs" "old.pdf" 5)
  = [StepDownload "http://h/docs"; StepMerge "PDF_Downloads_docs";
     StepCompress "Temp_Merged_PDFs"; StepCleanup "Temp_Merged_PDFs"].
Proof.
  split.
  - apply (proj2 (pipeline_halts_on_none id one_page (fun _ => true)
                    (fun _ docs => Wrote (foldr Z.add 0 docs)) (sized_gs (Some 3) None)
                    no_error no_error (Some 8) "http://h/docs" "Processed_PDFs" 250 "screen"
                    0 None (Some ["http://h/docs/a.pdf"]) ["http://h/docs/a.pdf"]
                    failing_net (one_file "PDF_Downloads_docs" "old.pdf" 5)) eq_refl).
    right. right. lia.
  - destruct (proj2 (proj2 (pipeline_halts_on_none id one_page (fun _ => true)
                               (fun _ docs => Wrote (foldr Z.add 0 docs))
                               (sized_gs (Some 3) None)
                               no_error no_error (Some 8) "http://h/docs" "Processed_PDFs"
                               250 "screen" 10 None (Some ["http://h/docs/a.pdf"])
                               ["http://h/docs/a.pdf"] failing_net
                               (one_file "PDF_Downloads_docs" "old.pdf" 5)) eq_refl)
                  "http://h/docs/a.pdf" [] eq_refl ltac:(lia)) as (_ & _ & _ & H).
    rewrite H.
    + vm_compute. reflexivity.
    + vm_compute. discriminate.
    + lia.
    + reflexivity.
Defined.

(** C9, as stated, fails for a batch without any successful download: the
    page has one link, every request for it fails, the counters are 0 and 1,
    and the merge stage is entered all the same. *)
Lemma pipeline_halts_counterexample :
  (download_pdfs_from_url no_error (Some ["http://h/docs/a.pdf"]) ["http://h/docs/a.pdf"]
     failing_net "PDF_Downloads_docs" (Some 10) ∅).1
  = Ret (Some "PDF_Downloads_docs", Some (0, 1)) ∧
  main_all id one_page (fun _ => true) (fun _ docs => Wrote (foldr Z.add 0 docs))
    (sized_gs (Some 3) None) no_error no_error (Some 8)
    "http://h/docs" "Processed_PDFs" 250 "screen" 10 None
    (Some ["http://h/docs/a.pdf"]) ["http://h/docs/a.pdf"] failing_net ∅
  = [StepDownload "http://h/docs"; StepMerge "PDF_Downloads_docs"] ∧
  In (StepMerge "PDF_Downloads_docs")
     (main_all id one_page (fun _ => true) (fun _ docs => Wrote (foldr Z.add 0 docs))
        (sized_gs (Some 3) None) no_error no_error (Some 8)
        "http://h/docs" "Processed_PDFs" 250 "screen" 10 None
        (Some ["http://h/docs/a.pdf"]) ["http://h/docs/a.pdf"] failing_net ∅).
Proof. repeat split; vm_compute; auto. Qed.

(** Every request succeeds at once. *)
Lemma downloads_never_reach_compression_witness :
  main_all id one_page (fun _ => true) (fun _ docs => Wrote (foldr Z.add 0 docs))
    (sized_gs (Some 3) None) no_error no_error (Some 8)
    "http://h/docs" "Processed_PDFs" 250 "screen" 10 None
    (Some ["http://h/docs/a.pdf"; "http://h/docs/b.pdf"])
    ["http://h/docs/b.pdf"; "http://h/docs/a.pdf"] (fun _ _ => Fetched 1000) ∅
  = [StepDownload "http://h/docs"; StepMerge "PDF_Downloads_docs"].
Proof.
  assert (Hempty : valid_pdfs (get_pdf_size_info id one_page (∅ : gmap string Z)
                                 <$> all_files "PDF_Downloads_docs" (∅ : gmap string Z)) = [])
    by (vm_compute; reflexivity).
  destruct (downloads_never_reach_compression id one_page (fun _ => true)
              (fun _ docs => Wrote (foldr Z.add 0 docs)) (sized_gs (Some 3) None)
              no_error no_error (Some 8) "http://h/docs" "Processed_PDFs" 250 "screen"
              10 None (Some ["http://h/docs/a.pdf"; "http://h/docs/b.pdf"])
              ["http://h/docs/b.pdf"; "http://h/docs/a.pdf"] (fun _ _ => Fetched 1000) ∅
              Hempty) as [H | [H | (e & He & _)]].
  - vm_compute in H. discriminate.
  - exact H.
  - discriminate.
Defined.

End MainFacts.
